(** * Fluffles: the evolutionary engine, embedded in Rocq

    A shallow embedding of the TypeScript sources of the Fluffles
    simulator: [dna.ts] (class [DNA]), [world.ts] (class [World]),
    [animal.ts] (abstract class [Animal]), [animals/fluffles.ts],
    [animals/rabbit.ts] and [simulation.ts] (class [Simulation]).

    Conventions of the embedding.
    - A JavaScript [number] that carries a real quantity (gene values,
      stats, food) is an exact rational [Q]; the tests [<], [>=] ... are
      the boolean comparisons of [Q].  Grid coordinates, the grid
      dimensions and the population counters only ever hold integers and
      are [Z]; [Math.floor] is [Qfloor].
    - [Math.random()] reads the next cell of an infinite tape of draws;
      every call of the source, also the ones that only decide whether a
      line is logged, advances the tape.  [crypto.randomUUID()] reads a
      second tape.
    - Objects that the source shares by reference (animals, DNA objects,
      position objects, stats objects) live in a heap addressed by
      locations; [{...o}] allocates a new object.  A [Map] is an
      insertion-ordered association list ([JsMap]).
    - The logger only appends text to a log and is left out; the draws
      that guard a log line are kept. *)

From Stdlib Require Import QArith Qround Qminmax Lqa Lia ZArith String List.
From stdpp Require Import base option list.
Import ListNotations.

Local Open Scope Q_scope.

(** ** Numbers *)

(** [a < b] on JavaScript numbers. *)
Definition Qltb (a b : Q) : bool := negb (Qle_bool b a).

(** [Math.floor]. *)
Definition Math_floor (x : Q) : Z := Qfloor x.

(** [Math.max] and [Math.min] on real-valued numbers. *)
Definition Math_max (a b : Q) : Q := Qmax a b.
Definition Math_min (a b : Q) : Q := Qmin a b.

(** ** JavaScript [Map<string, V>]: insertion-ordered, unique keys *)

Module JsMap.

Definition t (V : Type) : Type := list (string * V).

Definition empty {V} : t V := [].

(** [m.set(k, v)]: an existing key keeps its place in the order, a new
    key goes to the end. *)
Fixpoint set {V} (k : string) (v : V) (m : t V) : t V :=
  match m with
  | [] => [(k, v)]
  | (k', v') :: r =>
      if String.eqb k' k then (k', v) :: r else (k', v') :: set k v r
  end.

(** [m.get(k)], [undefined] being [None]. *)
Fixpoint get {V} (k : string) (m : t V) : option V :=
  match m with
  | [] => None
  | (k', v') :: r => if String.eqb k' k then Some v' else get k r
  end.

(** [m.delete(k)]. *)
Fixpoint delete {V} (k : string) (m : t V) : t V :=
  match m with
  | [] => []
  | (k', v') :: r =>
      if String.eqb k' k then r else (k', v') :: delete k r
  end.

(** [m.size]. *)
Definition size {V} (m : t V) : Z := Z.of_nat (length m).

(** [m.keys()] and [m.values()], in insertion order. *)
Definition keys {V} (m : t V) : list string := map fst m.
Definition values {V} (m : t V) : list V := map snd m.

(** The invariant of a [Map]: no key occurs twice. *)
Definition wf {V} (m : t V) : Prop := NoDup (keys m).

End JsMap.

(** [new Set(names)] followed by [forEach]: the distinct names in the
    order of their first occurrence. *)
Fixpoint Set_add (k : string) (s : list string) : list string :=
  match s with
  | [] => [k]
  | k' :: r => if String.eqb k' k then s else k' :: Set_add k r
  end.

Definition Set_of (names : list string) : list string :=
  fold_left (fun s k => Set_add k s) names [].

(** ** The source of randomness *)

(** A computation that calls [Math.random()]: it reads the tape from a
    position on and returns the position it stopped at. *)
Definition Rand (A : Type) : Type := (nat -> Q) -> nat -> A * nat.

Module Rand.

Definition ret {A} (a : A) : Rand A := fun _ p => (a, p).

Definition bind {A B} (c : Rand A) (k : A -> Rand B) : Rand B :=
  fun tape p => let (a, p') := c tape p in k a tape p'.

(** [Math.random()]. *)
Definition random : Rand Q := fun tape p => (tape p, S p).

(** [xs.forEach(x => { acc = body(acc, x) })]. *)
Fixpoint forEach {A X} (xs : list X) (body : A -> X -> Rand A) (acc : A)
  : Rand A :=
  match xs with
  | [] => ret acc
  | x :: r => bind (body acc x) (forEach r body)
  end.

End Rand.

(** ** dna.ts *)

Record Gene : Type := mkGene {
  name : string;
  value : Q;
  mutationRate : Q
}.

Record GeneDefinition : Type := mkGeneDefinition {
  gd_name : string;
  defaultValue : Q;
  defaultMutationRate : Q;
  description : string;
  minValue : option Q;
  maxValue : option Q
}.

Module DNA.

(** A [DNA] object has the single field [genes : Map<string, Gene>]. *)
Definition t : Type := JsMap.t Gene.

Definition addGene (gene : Gene) (d : t) : t := JsMap.set (name gene) gene d.

Definition getGene (n : string) (d : t) : option Gene := JsMap.get n d.

Definition getAllGenes (d : t) : list Gene := JsMap.values d.

(** [new DNA(initialGenes)]. *)
Definition new (initialGenes : option (list Gene)) : t :=
  match initialGenes with
  | Some gs => fold_left (fun d g => JsMap.set (name g) g d) gs JsMap.empty
  | None => JsMap.empty
  end.

(** The body of the [forEach] of [mutate], for the entry [(key, gene)]
    of [this.genes] and the [newDNA] built so far. *)
Definition mutate_step (newDNA : t) (entry : string * Gene) : Rand t :=
  let (key, gene) := entry in
  Rand.bind Rand.random (fun r =>
  let shouldMutate := Qltb r (mutationRate gene) in
  if shouldMutate then
    Rand.bind Rand.random (fun r' =>
    let mutationAmount := (r' * 2 - 1) * (1 # 10) in
    let newValue := Math_max 0 (Math_min 1 (value gene + mutationAmount)) in
    Rand.ret (addGene (mkGene key newValue (mutationRate gene)) newDNA))
  else
    Rand.ret (addGene gene newDNA)).

Definition mutate (this : t) : Rand t :=
  Rand.forEach this mutate_step (new None).

(** The body of the [forEach] of [combine], for one gene name. *)
Definition combine_step (dna1 dna2 : t) (combinedDNA : t) (n : string)
  : Rand t :=
  match getGene n dna1, getGene n dna2 with
  | Some gene1, Some gene2 =>
      Rand.bind Rand.random (fun inheritanceType =>
      if Qltb inheritanceType (4 # 10) then
        Rand.ret (addGene gene1 combinedDNA)
      else if Qltb inheritanceType (8 # 10) then
        Rand.ret (addGene gene2 combinedDNA)
      else
        Rand.ret (addGene
                    (mkGene n ((value gene1 + value gene2) / 2)
                       ((mutationRate gene1 + mutationRate gene2) / 2))
                    combinedDNA))
  | Some gene1, None => Rand.ret (addGene gene1 combinedDNA)
  | None, Some gene2 => Rand.ret (addGene gene2 combinedDNA)
  | None, None => Rand.ret combinedDNA
  end.

Definition combine (dna1 dna2 : t) : Rand t :=
  let allGeneNames := Set_of (JsMap.keys dna1 ++ JsMap.keys dna2) in
  Rand.forEach allGeneNames (combine_step dna1 dna2) (new None).

Definition STANDARD_GENES : list GeneDefinition :=
  [ mkGeneDefinition "size" (5 # 10) (5 # 100)
      "Physical size of the animal" (Some (1 # 10)) (Some 1);
    mkGeneDefinition "speed" (5 # 10) (1 # 10)
      "Movement speed and agility" (Some (1 # 10)) (Some 1);
    mkGeneDefinition "metabolism" (5 # 10) (5 # 100)
      "Rate of energy consumption" (Some (1 # 10)) (Some 1);
    mkGeneDefinition "vision" (5 # 10) (8 # 100)
      "Ability to detect food and threats at a distance"
      (Some (1 # 10)) (Some 1);
    mkGeneDefinition "intelligence" (3 # 10) (3 # 100)
      "Problem-solving and decision-making ability"
      (Some (1 # 10)) (Some 1);
    mkGeneDefinition "aggression" (3 # 10) (1 # 10)
      "Tendency to fight rather than flee" (Some 0) (Some 1);
    mkGeneDefinition "socialBehavior" (5 # 10) (7 # 100)
      "Tendency to group with others" (Some 0) (Some 1);
    mkGeneDefinition "furColor" (5 # 10) (15 # 100)
      "Color of fur/skin" (Some 0) (Some 1);
    mkGeneDefinition "reproductiveUrge" (5 # 10) (1 # 10)
      "Desire to reproduce when conditions are right"
      (Some (1 # 10)) (Some 1);
    mkGeneDefinition "lifespan" (5 # 10) (5 # 100)
      "Natural maximum age" (Some (2 # 10)) (Some 1);
    mkGeneDefinition "maturityAge" (5 # 10) (5 # 100)
      "Age at which the animal reaches maturity"
      (Some (2 # 10)) (Some (8 # 10));
    mkGeneDefinition "friendship" (5 # 10) (1 # 10)
      "Tendency to be friendly rather than aggressive" (Some 0) (Some 1)
  ]%string.

(** [createStandard(customValues)]; [customValues] is a plain object
    read by key, [customValues[k] !== undefined] being [Some]. *)
Definition createStandard (customValues : option (list (string * Q))) : t :=
  fold_left
    (fun dna geneDef =>
       let value :=
         match customValues with
         | Some cv =>
             match JsMap.get (gd_name geneDef) cv with
             | Some v => v
             | None => defaultValue geneDef
             end
         | None => defaultValue geneDef
         end in
       addGene (mkGene (gd_name geneDef) value (defaultMutationRate geneDef))
         dna)
    STANDARD_GENES (new None).

(** What every [DNA] object built through the class satisfies: the keys
    of [genes] are distinct and each gene is stored under its own
    name. *)
Definition wf (d : t) : Prop :=
  JsMap.wf d /\ Forall (fun e => fst e = name (snd e)) d.

(** Every gene value lies in [[0, 1]]. *)
Definition values_in_unit (d : t) : Prop :=
  Forall (fun e => 0 <= value (snd e) /\ value (snd e) <= 1) d.

End DNA.

(** ** The objects of the simulation *)

(** A location of the heap. *)
Definition loc : Type := nat.

(** world.ts: [interface Position]. *)
Record Position : Type := mkPosition { x : Z; y : Z }.

(** world.ts: [interface Tile]. *)
Inductive TileType : Type := grass | water | rock.

Record Tile : Type := mkTile { type : TileType; foodValue : Q }.

(** animal.ts: [interface AnimalStats]. *)
Record AnimalStats : Type := mkStats {
  health : Q;
  energy : Q;
  age : Q;
  hunger : Q
}.

(** The concrete subclasses of [Animal]. *)
Inductive Species : Type := Rabbit | Fluffles.

(** The fields of an [Animal] object.  [dna], [position] and [stats] are
    references to objects of their own; the [world] and [logger] fields
    always point to the one world and the one logger. *)
Record Animal : Type := mkAnimal {
  id : string;
  dna : loc;
  position : loc;
  stats : loc;
  species : Species
}.

Inductive Obj : Type :=
  | OAnimal (a : Animal)
  | ODNA (d : DNA.t)
  | OPosition (p : Position)
  | OStats (s : AnimalStats).

(** The fields of the [World] object; [animals] maps an id to a reference
    to the animal. *)
Record World : Type := mkWorld {
  width : Z;
  height : Z;
  grid : list (list Tile);
  animals : JsMap.t loc;
  maxPopulation : Z;
  populationPressure : Z
}.

(** The disaster fields of the [Simulation] object. *)
Record Disaster : Type := mkDisaster {
  disasterActive : bool;
  disasterType : string;
  disasterDuration : Z;
  disasterIntensity : Q
}.

Record State : Type := mkState {
  heap : list Obj;
  world : World;
  disaster : Disaster;
  random_tape : nat -> Q;
  random_pos : nat;
  uuid_tape : nat -> string;
  uuid_pos : nat
}.

Definition set_heap (s : State) (h : list Obj) : State :=
  mkState h (world s) (disaster s) (random_tape s) (random_pos s)
    (uuid_tape s) (uuid_pos s).

Definition set_world (s : State) (w : World) : State :=
  mkState (heap s) w (disaster s) (random_tape s) (random_pos s)
    (uuid_tape s) (uuid_pos s).


Definition set_random_pos (s : State) (p : nat) : State :=
  mkState (heap s) (world s) (disaster s) (random_tape s) p
    (uuid_tape s) (uuid_pos s).

Definition set_uuid_pos (s : State) (p : nat) : State :=
  mkState (heap s) (world s) (disaster s) (random_tape s) (random_pos s)
    (uuid_tape s) p.

Definition set_grid (w : World) (g : list (list Tile)) : World :=
  mkWorld (width w) (height w) g (animals w) (maxPopulation w)
    (populationPressure w).

Definition set_animals (w : World) (m : JsMap.t loc) : World :=
  mkWorld (width w) (height w) (grid w) m (maxPopulation w)
    (populationPressure w).

Definition set_populationPressure (w : World) (p : Z) : World :=
  mkWorld (width w) (height w) (grid w) (animals w) (maxPopulation w) p.

Definition set_health (s : AnimalStats) (v : Q) : AnimalStats :=
  mkStats v (energy s) (age s) (hunger s).
Definition set_energy (s : AnimalStats) (v : Q) : AnimalStats :=
  mkStats (health s) v (age s) (hunger s).
Definition set_age (s : AnimalStats) (v : Q) : AnimalStats :=
  mkStats (health s) (energy s) v (hunger s).
Definition set_hunger (s : AnimalStats) (v : Q) : AnimalStats :=
  mkStats (health s) (energy s) (age s) v.

Definition set_position (a : Animal) (p : loc) : Animal :=
  mkAnimal (id a) (dna a) p (stats a) (species a).

(** ** The monad of the simulation

    A method is a function of the state that returns its result and the
    new state.  [None] is the run-time error of JavaScript (a field read
    through a reference of the wrong class, an index outside an array);
    no theorem below is about a run that ends in it. *)

Definition M (A : Type) : Type := State -> option (A * State).

Definition ret {A} (a : A) : M A := fun s => Some (a, s).

Definition bind {A B} (c : M A) (k : A -> M B) : M B :=
  fun s => match c s with
           | Some (a, s') => k a s'
           | None => None
           end.

Definition fail {A} : M A := fun _ => None.

Declare Scope sim_scope.
Delimit Scope sim_scope with sim.
Notation "v <- c ;; k" := (bind c (fun v => k))
  (at level 100, c at next level, right associativity) : sim_scope.
Notation "c ;; k" := (bind c (fun _ => k))
  (at level 100, right associativity) : sim_scope.
Local Open Scope sim_scope.

Definition gets {A} (f : State -> A) : M A := fun s => Some (f s, s).

Definition modify (f : State -> State) : M unit := fun s => Some (tt, f s).

(** [if (c) { body }]. *)
Definition when (c : bool) (body : M unit) : M unit :=
  if c then body else ret tt.

(** [xs.forEach(x => body(x))] and [for (const x of xs) body(x)] over an
    array that the body does not change. *)
Fixpoint forEach {X} (xs : list X) (body : X -> M unit) : M unit :=
  match xs with
  | [] => ret tt
  | v :: r => body v ;; forEach r body
  end.

(** [for (const x of xs) { acc = body(acc, x) }], for the local
    variables that a loop updates. *)
Fixpoint forEach_acc {X A} (xs : list X) (body : A -> X -> M A) (acc : A)
  : M A :=
  match xs with
  | [] => ret acc
  | v :: r => acc' <- body acc v ;; forEach_acc r body acc'
  end.

(** [xs.forEach(x => { if (test(x)) result.push(x) })] and
    [xs.filter(x => test(x))]. *)
Fixpoint select (xs : list loc) (test : loc -> M bool) : M (list loc) :=
  match xs with
  | [] => ret []
  | v :: r =>
      keep <- test v ;;
      rest <- select r test ;;
      ret (if keep : bool then v :: rest else rest)
  end.

(** [Math.random()]. *)
Definition Math_random : M Q :=
  fun s => Some (random_tape s (random_pos s),
                 set_random_pos s (S (random_pos s))).

(** A computation that only draws random numbers, run on the tape of the
    state. *)
Definition liftRand {A} (c : Rand A) : M A :=
  fun s => let (a, p) := c (random_tape s) (random_pos s) in
           Some (a, set_random_pos s p).

(** [crypto.randomUUID()]. *)
Definition randomUUID : M string :=
  fun s => Some (uuid_tape s (uuid_pos s), set_uuid_pos s (S (uuid_pos s))).

(** [new C(...)] or [{...o}]: a new object at a new location. *)
Definition alloc (o : Obj) : M loc :=
  fun s => Some (length (heap s), set_heap s (heap s ++ [o])).

Definition read (l : loc) : M Obj :=
  fun s => match heap s !! l with
           | Some o => Some (o, s)
           | None => None
           end.

(** An assignment to the fields of the object at [l]. *)
Definition write (l : loc) (o : Obj) : M unit :=
  fun s => match heap s !! l with
           | Some _ => Some (tt, set_heap s (<[l := o]> (heap s)))
           | None => None
           end.

Definition read_animal (l : loc) : M Animal :=
  o <- read l ;; match o with OAnimal a => ret a | _ => fail end.

Definition read_dna (l : loc) : M DNA.t :=
  o <- read l ;; match o with ODNA d => ret d | _ => fail end.

Definition read_position (l : loc) : M Position :=
  o <- read l ;; match o with OPosition p => ret p | _ => fail end.

Definition read_stats (l : loc) : M AnimalStats :=
  o <- read l ;; match o with OStats st => ret st | _ => fail end.

(** [this.stats] read as a whole. *)
Definition this_stats (this : loc) : M AnimalStats :=
  a <- read_animal this ;; read_stats (stats a).

(** [ref.f = ...] for a reference [ref] to a stats object. *)
Definition assign_stats (ref : loc) (f : AnimalStats -> AnimalStats)
  : M unit :=
  st <- read_stats ref ;; write ref (OStats (f st)).

(** [this.stats.f = ...]. *)
Definition update_stats (this : loc) (f : AnimalStats -> AnimalStats)
  : M unit :=
  a <- read_animal this ;; assign_stats (stats a) f.

Definition this_dna (this : loc) : M DNA.t :=
  a <- read_animal this ;; read_dna (dna a).

Definition this_position (this : loc) : M Position :=
  a <- read_animal this ;; read_position (position a).

Definition the_world : M World := gets world.

Definition update_world (f : World -> World) : M unit :=
  modify (fun s => set_world s (f (world s))).

(** ** world.ts: class [World] *)

(** The body of the inner loop of the constructor: one tile. *)
Definition seedTile : Rand Tile :=
  Rand.bind Rand.random (fun rand =>
  if Qltb rand (7 # 10) then Rand.ret (mkTile grass 10)
  else if Qltb rand (9 # 10) then Rand.ret (mkTile water 5)
  else Rand.ret (mkTile rock 0)).

(** [for (let i = 0; i < n; i++) row.push(body())]. *)
Fixpoint pushTimes {A} (n : nat) (body : Rand A) : Rand (list A) :=
  match n with
  | O => Rand.ret []
  | S m => Rand.bind body (fun a =>
           Rand.bind (pushTimes m body) (fun r => Rand.ret (a :: r)))
  end.

(** [new World(width, height, logger)]. *)
Definition World_new (width height : Z) : Rand World :=
  let maxPopulation := Math_floor (inject_Z (width * height) * (3 # 10)) in
  Rand.bind (pushTimes (Z.to_nat height) (pushTimes (Z.to_nat width) seedTile))
    (fun grid => Rand.ret (mkWorld width height grid JsMap.empty
                             maxPopulation 0%Z)).

Definition getWidth : M Z := w <- the_world ;; ret (width w).

Definition getHeight : M Z := w <- the_world ;; ret (height w).

Definition position_valid (w : World) (p : Position) : bool :=
  (0 <=? x p)%Z && (x p <? width w)%Z && (0 <=? y p)%Z && (y p <? height w)%Z.

Definition isPositionValid (p : Position) : M bool :=
  w <- the_world ;; ret (position_valid w p).

(** [this.grid[y][x]]: a missing row is a run-time error, a missing cell
    is [undefined]. *)
Definition grid_at (py px : Z) : M (option Tile) :=
  w <- the_world ;;
  match grid w !! Z.to_nat py with
  | Some row => ret (row !! Z.to_nat px)
  | None => fail
  end.

(** [this.grid[y][x].foodValue = v] for a tile that exists. *)
Definition set_foodValue (py px : Z) (v : Q) : M unit :=
  w <- the_world ;;
  match grid w !! Z.to_nat py with
  | Some row =>
      match row !! Z.to_nat px with
      | Some tile =>
          update_world (fun w =>
            set_grid w (<[Z.to_nat py :=
                          <[Z.to_nat px := mkTile (type tile) v]> row]> (grid w)))
      | None => fail
      end
  | None => fail
  end.

Definition getTile (p : Position) : M (option Tile) :=
  valid <- isPositionValid p ;;
  if valid then grid_at (y p) (x p) else ret None.

Definition addAnimal (animal : loc) : M bool :=
  w <- the_world ;;
  if (JsMap.size (animals w) >=? maxPopulation w)%Z then
    when (populationPressure w <? 5)%Z
      (update_world (fun w =>
         set_populationPressure w (populationPressure w + 1)%Z)) ;;
    ret false
  else
    a <- read_animal animal ;;
    update_world (fun w => set_animals w (JsMap.set (id a) animal (animals w))) ;;
    update_world (fun w =>
      set_populationPressure w
        (Z.min 10
           (Math_floor
              (inject_Z (JsMap.size (animals w)) / inject_Z (maxPopulation w)
               * 10)))) ;;
    ret true.

Definition removeAnimal (i : string) : M unit :=
  update_world (fun w => set_animals w (JsMap.delete i (animals w))).

Definition getAnimal (i : string) : M (option loc) :=
  w <- the_world ;; ret (JsMap.get i (animals w)).

Definition getAllAnimals : M (list loc) :=
  w <- the_world ;; ret (JsMap.values (animals w)).

Definition consumeFood (p : Position) (amount : Q) : M Q :=
  tile <- getTile p ;;
  match tile with
  | None => ret 0
  | Some tile =>
      let consumed := Math_min (foodValue tile) amount in
      set_foodValue (y p) (x p) (foodValue tile - consumed) ;;
      ret consumed
  end.

Definition getPopulationPressure : M Z :=
  w <- the_world ;; ret (populationPressure w).

Definition getMaxPopulation : M Z := w <- the_world ;; ret (maxPopulation w).

(** [for (let i = 0; i < n; i++)]: the values of [i]. *)
Definition upto (n : Z) : list Z := map Z.of_nat (seq 0 (Z.to_nat n)).

(** The second half of [update()]: grass grows back. *)
Definition regrow : M unit :=
  w <- the_world ;;
  let regrowthRate :=
    Math_max (1 # 100) ((1 # 10) - inject_Z (populationPressure w) * (1 # 100)) in
  forEach (upto (height w)) (fun py =>
    forEach (upto (width w)) (fun px =>
      tile <- grid_at py px ;;
      match tile with
      | Some tile =>
          match type tile with
          | grass =>
              when (Qltb (foodValue tile) 10)
                (set_foodValue py px (foodValue tile + regrowthRate))
          | _ => ret tt
          end
      | None => fail
      end)).

(** ** animal.ts: class [Animal] *)

Inductive Direction : Type := north | east | south | west.

(** The overrides that the constructors of the subclasses pass to
    [DNA.createStandard]. *)
Definition species_overrides (sp : Species) : list (string * Q) :=
  match sp with
  | Rabbit =>
      [ ("size", 3 # 10); ("speed", 7 # 10); ("metabolism", 7 # 10);
        ("vision", 6 # 10); ("intelligence", 4 # 10); ("aggression", 2 # 10);
        ("socialBehavior", 6 # 10); ("reproductiveUrge", 8 # 10) ]%string
  | Fluffles =>
      [ ("size", 3 # 10); ("speed", 7 # 10); ("metabolism", 7 # 10);
        ("vision", 6 # 10); ("intelligence", 4 # 10); ("aggression", 2 # 10);
        ("socialBehavior", 6 # 10); ("reproductiveUrge", 8 # 10);
        ("maturityAge", 4 # 10) ]%string
  end.

(** [dna.addGene(gene)] on a reference to a [DNA] object. *)
Definition addGene_at (dna : loc) (gene : Gene) : M unit :=
  d <- read_dna dna ;; write dna (ODNA (DNA.addGene gene d)).

(** [new Rabbit(dna, position, world, logger)] and [new Fluffles(...)]:
    the constructor of [Animal], then the one of the subclass, which
    fills an empty [dna] object in place. *)
Definition Animal_new (sp : Species) (dna position : loc) : M loc :=
  i <- randomUUID ;;
  stats <- alloc (OStats (mkStats 100 100 0 0)) ;;
  this <- alloc (OAnimal (mkAnimal i dna position stats sp)) ;;
  d <- read_dna dna ;;
  when (length (DNA.getAllGenes d) =? 0)%nat
    (let standard := DNA.createStandard (Some (species_overrides sp)) in
     forEach (DNA.getAllGenes standard) (fun gene => addGene_at dna gene)) ;;
  ret this.

Definition getId (this : loc) : M string :=
  a <- read_animal this ;; ret (id a).

(** [return this.dna]. *)
Definition getDNA (this : loc) : M loc :=
  a <- read_animal this ;; ret (dna a).

(** [return {...this.position}]. *)
Definition getPosition (this : loc) : M loc :=
  p <- this_position this ;; alloc (OPosition p).

(** [return {...this.stats}]. *)
Definition getStats (this : loc) : M loc :=
  st <- this_stats this ;; alloc (OStats st).

Definition setPosition (this : loc) (p : loc) : M unit :=
  a <- read_animal this ;; write this (OAnimal (set_position a p)).

Definition die (this : loc) : M unit :=
  a <- read_animal this ;; removeAnimal (id a).

Definition move (this : loc) (direction : Direction) : M unit :=
  p <- this_position this ;;
  w <- the_world ;;
  let newPosition :=
    match direction with
    | north => mkPosition (x p) (Z.max 0 (y p - 1))
    | east => mkPosition (Z.min (width w - 1) (x p + 1)) (y p)
    | south => mkPosition (x p) (Z.min (height w - 1) (y p + 1))
    | west => mkPosition (Z.max 0 (x p - 1)) (y p)
    end in
  newPosition_ref <- alloc (OPosition newPosition) ;;
  valid <- isPositionValid newPosition ;;
  when valid
    (setPosition this newPosition_ref ;;
     update_stats this (fun st => set_energy st (energy st - 1)) ;;
     _ <- Math_random ;;
     ret tt).


Definition isAdult (this : loc) : M bool :=
  d <- this_dna this ;;
  let maturityGene := DNA.getGene "maturityAge" d in
  let baseMaturityAge := 25 in
  let maturityModifier :=
    match maturityGene with
    | Some g => value g * 20 - 10
    | None => 0
    end in
  let maturityAge := Math_max 15 (baseMaturityAge + maturityModifier) in
  st <- this_stats this ;;
  ret (Qle_bool maturityAge (age st)).

(** [createOffspring(dna, position)]: each subclass builds an animal of
    its own class. *)
Definition createOffspring (this : loc) (dna position : loc) : M loc :=
  a <- read_animal this ;; Animal_new (species a) dna position.

Definition reproduce (this partner : loc) : M (option loc) :=
  adult <- isAdult this ;;
  immature <- (if negb adult then ret true
               else partnerAdult <- isAdult partner ;; ret (negb partnerAdult)) ;;
  if immature : bool then ret None
  else
    st <- this_stats this ;;
    tired <- (if Qltb (energy st) 50 then ret true
              else partnerStats <- getStats partner ;;
                   pst <- read_stats partnerStats ;;
                   ret (Qltb (energy pst) 50)) ;;
    if tired : bool then ret None
    else
      populationPressure <- getPopulationPressure ;;
      d <- this_dna this ;;
      let reproductiveUrgeGene := DNA.getGene "reproductiveUrge" d in
      let reproductiveUrge :=
        match reproductiveUrgeGene with
        | Some g => value g
        | None => 5 # 10
        end in
      let successChance :=
        Math_max (1 # 10)
          (reproductiveUrge - inject_Z populationPressure * (8 # 100)) in
      r <- Math_random ;;
      if Qltb successChance r then
        update_stats this (fun st => set_energy st (energy st - 10)) ;;
        ret None
      else
        d1 <- this_dna this ;;
        partnerDNA <- getDNA partner ;;
        d2 <- read_dna partnerDNA ;;
        combined <- liftRand (DNA.combine d1 d2) ;;
        childDNA <- alloc (ODNA combined) ;;
        mutated <- liftRand (DNA.mutate combined) ;;
        mutatedDNA <- alloc (ODNA mutated) ;;
        p <- this_position this ;;
        px_ref <- getPosition partner ;;
        px <- read_position px_ref ;;
        py_ref <- getPosition partner ;;
        py <- read_position py_ref ;;
        childPosition <-
          alloc (OPosition
                   (mkPosition (Math_floor (inject_Z (x p + x px) / 2))
                               (Math_floor (inject_Z (y p + y py) / 2)))) ;;
        update_stats this (fun st => set_energy st (energy st - 30)) ;;
        offspring <- createOffspring this mutatedDNA childPosition ;;
        accepted <- addAnimal offspring ;;
        if negb accepted then ret None else ret (Some offspring).

Definition applyEnvironmentalStress (this : loc) (pressureLevel : Z) : M unit :=
  if (pressureLevel >? 7)%Z then
    update_stats this (fun st => set_hunger st (hunger st + (5 # 10))) ;;
    update_stats this (fun st => set_energy st (energy st - (3 # 10))) ;;
    r <- Math_random ;;
    when (Qltb r (5 # 100))
      (update_stats this (fun st => set_health st (health st - 1)) ;;
       _ <- Math_random ;;
       ret tt)
  else if (pressureLevel >? 5)%Z then
    update_stats this (fun st => set_hunger st (hunger st + (3 # 10))) ;;
    update_stats this (fun st => set_energy st (energy st - (1 # 10)))
  else ret tt.

Definition attack (this target : loc) : M bool :=
  st <- this_stats this ;;
  if Qltb (energy st) 20 then ret false
  else
    d <- this_dna this ;;
    let aggressionGene := DNA.getGene "aggression" d in
    let speedGene := DNA.getGene "speed" d in
    targetDNA <- getDNA target ;;
    td <- read_dna targetDNA ;;
    let targetSpeedGene := DNA.getGene "speed" td in
    let aggression :=
      match aggressionGene with Some g => value g | None => 3 # 10 end in
    let speed := match speedGene with Some g => value g | None => 5 # 10 end in
    let targetSpeed :=
      match targetSpeedGene with Some g => value g | None => 5 # 10 end in
    let speedAdvantage := Math_max 0 (speed - targetSpeed) in
    let successChance :=
      (3 # 10) + aggression * (4 # 10) + speedAdvantage * (3 # 10) in
    update_stats this (fun st => set_energy st (energy st - 15)) ;;
    r <- Math_random ;;
    if Qltb r successChance then
      r' <- Math_random ;;
      let energyGain := 30 + inject_Z (Math_floor (r' * 20)) in
      update_stats this (fun st =>
        set_energy st (Math_min 100 (energy st + energyGain))) ;;
      update_stats this (fun st => set_hunger st (Math_max 0 (hunger st - 40))) ;;
      die target ;;
      ret true
    else
      _ <- Math_random ;;
      ret false.

Definition shouldBeAggressive (this : loc) : M bool :=
  d <- this_dna this ;;
  let aggressionGene := DNA.getGene "aggression" d in
  let friendshipGene := DNA.getGene "friendship" d in
  let aggression :=
    match aggressionGene with Some g => value g | None => 3 # 10 end in
  let friendship :=
    match friendshipGene with Some g => value g | None => 5 # 10 end in
  st <- this_stats this ;;
  let energyFactor := Math_max 0 (1 - energy st / 100) in
  let hungerFactor := hunger st / 100 in
  let aggressionTendency :=
    aggression * (3 # 10) + energyFactor * (2 # 10) + hungerFactor * (4 # 10)
    - friendship * (3 # 10) in
  r <- Math_random ;;
  ret (Qltb r aggressionTendency).

(** [update()].  The abstract method [act()], the decision policy of the
    subclass, is the parameter [act]. *)
Definition Animal_update (act : loc -> M unit) (this : loc) : M unit :=
  update_stats this (fun st => set_age st (age st + 1)) ;;
  update_stats this (fun st => set_hunger st (Math_min 100 (hunger st + 1))) ;;
  update_stats this (fun st => set_energy st (Math_max 0 (energy st - (5 # 10)))) ;;
  st <- this_stats this ;;
  if Qle_bool (health st) 0 || Qle_bool 100 (hunger st) then die this
  else
    d <- this_dna this ;;
    let lifespanGene := DNA.getGene "lifespan" d in
    let baseLifespan := 100 in
    let lifespanModifier :=
      match lifespanGene with Some g => value g * 50 | None => 0 end in
    let maxAge := baseLifespan + lifespanModifier in
    dead <- (if Qltb (maxAge * (7 # 10)) (age st) then
               let deathChance :=
                 (age st - maxAge * (7 # 10)) / (maxAge * (3 # 10)) in
               r <- Math_random ;;
               if Qltb r (deathChance * (1 # 10)) then die this ;; ret true
               else ret false
             else ret false) ;;
    if dead : bool then ret tt else act this.

(** The first half of [World.update()]: [this.animals.forEach] visits the
    entries of the live map in insertion order, so an animal removed
    before its turn is skipped and one added during the loop is visited.
    [visited] holds the ids already seen and [fuel] bounds the number of
    visits. *)
Fixpoint update_animals (act : loc -> M unit) (fuel : nat)
    (visited : list string) : M unit :=
  match fuel with
  | O => ret tt
  | S fuel' =>
      w <- the_world ;;
      match find (fun e => negb (existsb (String.eqb (fst e)) visited))
                 (animals w) with
      | None => ret tt
      | Some (i, animal) =>
          when (populationPressure w >? 5)%Z
            (applyEnvironmentalStress animal (populationPressure w)) ;;
          Animal_update act animal ;;
          update_animals act fuel' (i :: visited)
      end
  end.

(** [World.update()]. *)
Definition World_update (act : loc -> M unit) (fuel : nat) : M unit :=
  update_animals act fuel [] ;;
  regrow.

(** ** world.ts: neighbours and terrain *)

(** [getAnimalsInRadius(center, radius)]; the callers pass their own
    position object as [center]. *)
Definition getAnimalsInRadius (center : loc) (radius : Q) : M (list loc) :=
  w <- the_world ;;
  select (JsMap.values (animals w)) (fun animal =>
    pos_ref <- getPosition animal ;;
    pos <- read_position pos_ref ;;
    c <- read_position center ;;
    let distance := (Z.abs (x pos - x c) + Z.abs (y pos - y c))%Z in
    ret (Qle_bool (inject_Z distance) radius)).




(** ** rabbit.ts and fluffles.ts: what both species do alike *)

(** [directions[i]], [undefined] outside the array. *)
Definition direction_at (i : Z) : option Direction :=
  if (i <? 0)%Z then None else [north; east; south; west] !! Z.to_nat i.

(** [this.move(direction)] for a direction read from an array: no case
    of the [switch] applies to [undefined], and the rest of [move] runs
    on the copy of the position as it is. *)
Definition move_to (this : loc) (direction : option Direction) : M unit :=
  match direction with
  | Some direction => move this direction
  | None =>
      p <- this_position this ;;
      newPosition_ref <- alloc (OPosition p) ;;
      valid <- isPositionValid p ;;
      when valid
        (setPosition this newPosition_ref ;;
         update_stats this (fun st => set_energy st (energy st - 1)) ;;
         _ <- Math_random ;;
         ret tt)
  end.

(** [wander()]. *)
Definition wander (this : loc) : M unit :=
  r <- Math_random ;;
  let randomDirection := direction_at (Math_floor (r * 4)) in
  move_to this randomDirection.

(** [moveToward(targetPos)]. *)
Definition moveToward (this : loc) (targetPos : loc) : M unit :=
  t <- read_position targetPos ;;
  p <- this_position this ;;
  let dx := (x t - x p)%Z in
  let dy := (y t - y p)%Z in
  if (Z.abs dx >? Z.abs dy)%Z then
    if (dx >? 0)%Z then move this east else move this west
  else
    if (dy >? 0)%Z then move this south else move this north.

(** [if (distance < closestDistance) { closest = animal; closestDistance
    = distance }], on the local variables [closest] and
    [closestDistance], which start as [null] and [Infinity]. *)
Definition closer (closest : option (loc * Z)) (animal : loc) (distance : Z)
  : option (loc * Z) :=
  match closest with
  | Some (_, closestDistance) =>
      if (distance <? closestDistance)%Z then Some (animal, distance)
      else closest
  | None => Some (animal, distance)
  end.

(** [seekCompany()]. *)
Definition seekCompany (this : loc) : M unit :=
  a <- read_animal this ;;
  nearbyAnimals <- getAnimalsInRadius (position a) 3 ;;
  if (0 <? length nearbyAnimals)%nat then
    closest <- forEach_acc nearbyAnimals
                 (fun closest animal =>
                    i <- getId animal ;;
                    if negb (String.eqb i (id a)) then
                      pos_ref <- getPosition animal ;;
                      pos <- read_position pos_ref ;;
                      p <- this_position this ;;
                      let distance :=
                        (Z.abs (x pos - x p) + Z.abs (y pos - y p))%Z in
                      ret (closer closest animal distance)
                    else ret closest)
                 None ;;
    match closest with
    | Some (closest, _) =>
        targetPos <- getPosition closest ;;
        moveToward this targetPos
    | None => wander this
    end
  else wander this.

(** ** fluffles.ts: class [Fluffles] *)


(** [huntOthers()]. *)
Definition huntOthers (this : loc) : M unit :=
  a <- read_animal this ;;
  nearbyAnimals <- getAnimalsInRadius (position a) 2 ;;
  potentialTargets <-
    select nearbyAnimals
      (fun animal => i <- getId animal ;; ret (negb (String.eqb i (id a)))) ;;
  if (0 <? length potentialTargets)%nat then
    closest <- forEach_acc potentialTargets
                 (fun closest animal =>
                    pos_ref <- getPosition animal ;;
                    pos <- read_position pos_ref ;;
                    p <- this_position this ;;
                    let distance :=
                      (Z.abs (x pos - x p) + Z.abs (y pos - y p))%Z in
                    ret (closer closest animal distance))
                 None ;;
    match closest with
    | Some (closestTarget, closestDistance) =>
        if (closestDistance <=? 1)%Z then
          _ <- attack this closestTarget ;; ret tt
        else
          targetPos <- getPosition closestTarget ;;
          moveToward this targetPos
    | None => wander this
    end
  else wander this.

(** ** rabbit.ts: class [Rabbit] *)

(** The loop of [searchForMates()] of the Rabbit over [nearbyAnimals],
    which returns from the method at the first animal it turns to; after
    the loop the Rabbit wanders. *)
Fixpoint searchForMates_from (this : loc) (a : Animal) (nearbyAnimals : list loc)
  : M unit :=
  match nearbyAnimals with
  | [] => wander this
  | animal :: rest =>
      i <- getId animal ;;
      if negb (String.eqb i (id a)) then
        pos <- getPosition animal ;;
        q <- read_position pos ;;
        p <- this_position this ;;
        let distance := (Z.abs (x q - x p) + Z.abs (y q - y p))%Z in
        if (distance <=? 1)%Z then
          _ <- reproduce this animal ;; ret tt
        else if (distance <=? 2)%Z then
          moveToward this pos
        else searchForMates_from this a rest
      else searchForMates_from this a rest
  end.

(** [searchForMates()] of the Rabbit. *)
Definition Rabbit_searchForMates (this : loc) : M unit :=
  a <- read_animal this ;;
  nearbyAnimals <- getAnimalsInRadius (position a) 2 ;;
  searchForMates_from this a nearbyAnimals.

(** ** simulation.ts: class [Simulation] *)

Definition getDisaster : M Disaster := gets disaster.

(** [animals.forEach(animal => { if (Math.random() < chance) { const
    stats = animal.getStats(); stats.health -= damage; if
    (Math.random() < ...) log } })]: the loops of the earthquake and of
    the disease. *)
Definition injure (animals : list loc) (chance damage : Q) : M unit :=
  forEach animals (fun animal =>
    r <- Math_random ;;
    when (Qltb r chance)
      (stats <- getStats animal ;;
       assign_stats stats (fun st => set_health st (health st - damage)) ;;
       _ <- Math_random ;;
       ret tt)).

Definition reduceWorldFood (percentage : Q) : M unit :=
  w <- the_world ;;
  forEach (upto (height w)) (fun py =>
    forEach (upto (width w)) (fun px =>
      let position := mkPosition px py in
      tile <- getTile position ;;
      match tile with
      | Some tile =>
          match type tile with
          | grass =>
              let reduction := foodValue tile * percentage in
              _ <- consumeFood position reduction ;; ret tt
          | _ => ret tt
          end
      | None => ret tt
      end)).

Definition applyDisasterEffects : M unit :=
  animals <- getAllAnimals ;;
  dis <- getDisaster ;;
  let disasterIntensity := disasterIntensity dis in
  if String.eqb (disasterType dis) "earthquake" then
    r <- Math_random ;;
    when (Qltb r (3 # 10))
      (forEach (upto 5) (fun _ =>
         w <- the_world ;;
         rx <- Math_random ;;
         let px := Math_floor (rx * inject_Z (width w)) in
         ry <- Math_random ;;
         let py := Math_floor (ry * inject_Z (height w)) in
         let position := mkPosition px py in
         tile <- getTile position ;;
         match tile with
         | Some tile =>
             match type tile with
             | grass =>
                 _ <- consumeFood position (foodValue tile * disasterIntensity) ;;
                 ret tt
             | _ => ret tt
             end
         | None => ret tt
         end)) ;;
    injure animals (disasterIntensity * (2 # 10))
      (inject_Z (Math_floor (20 * disasterIntensity)))
  else if String.eqb (disasterType dis) "drought" then
    when (Z.rem (disasterDuration dis) 5 =? 0)%Z
      (reduceWorldFood ((1 # 10) * disasterIntensity) ;;
       _ <- Math_random ;;
       ret tt) ;;
    forEach animals (fun animal =>
      stats <- getStats animal ;;
      assign_stats stats (fun st => set_hunger st (hunger st + disasterIntensity * 2)))
  else if String.eqb (disasterType dis) "disease" then
    injure animals (disasterIntensity * (15 # 100))
      (inject_Z (Math_floor (10 * disasterIntensity)))
  else if String.eqb (disasterType dis) "coldSnap" then
    forEach animals (fun animal =>
      stats <- getStats animal ;;
      assign_stats stats (fun st => set_energy st (energy st - disasterIntensity * 2)) ;;
      r <- Math_random ;;
      when (Qltb r (disasterIntensity * (1 # 10)))
        (assign_stats stats (fun st =>
           set_health st (health st - inject_Z (Math_floor (5 * disasterIntensity)))) ;;
         _ <- Math_random ;;
         ret tt))
  else ret tt.


(** [Math.ceil]. *)
Definition Math_ceil (q : Q) : Z := Qceiling q.

(** [applyDisease()]: [animals[randomIndex]] is [undefined] outside the
    array, and the call of [getStats] on it is a run-time error. *)
Definition applyDisease : M unit :=
  animals <- getAllAnimals ;;
  let affectedCount :=
    Math_ceil (inject_Z (Z.of_nat (length animals)) * (2 # 10)) in
  forEach (upto affectedCount) (fun _ =>
    r <- Math_random ;;
    let randomIndex :=
      Math_floor (r * inject_Z (Z.of_nat (length animals))) in
    match (if (randomIndex <? 0)%Z then None
           else animals !! Z.to_nat randomIndex) with
    | Some animal =>
        stats <- getStats animal ;;
        assign_stats stats (fun st => set_health st (health st - 20)) ;;
        _ <- Math_random ;;
        ret tt
    | None => fail
    end).

Definition applyHarshWeather : M unit :=
  animals <- getAllAnimals ;;
  forEach animals (fun animal =>
    stats <- getStats animal ;;
    assign_stats stats (fun st =>
      set_energy st (Math_max 10 (energy st - 10)))).

Definition introduceChallenge : M unit :=
  challengeType <- Math_random ;;
  if Qltb challengeType (3 # 10) then reduceWorldFood (3 # 10)
  else if Qltb challengeType (6 # 10) then applyDisease
  else applyHarshWeather.


(** [initialize(numFluffles)]. *)
Definition initialize (numFluffles : Z) : M unit :=
  maxPopulation <- getMaxPopulation ;;
  let actualFluffles := Z.min numFluffles maxPopulation in
  forEach (upto actualFluffles) (fun _ =>
    dna <- alloc (ODNA (DNA.new None)) ;;
    w <- the_world ;;
    rx <- Math_random ;;
    ry <- Math_random ;;
    position <-
      alloc (OPosition
               (mkPosition (Math_floor (rx * inject_Z (width w)))
                           (Math_floor (ry * inject_Z (height w))))) ;;
    fluffles <- Animal_new Fluffles dna position ;;
    _ <- addAnimal fluffles ;;
    ret tt).

(** ** The words of the specification

    Definitions that follow the text of the specification, to be compared
    with the code above. *)

(** [clamp01]. *)
Definition clamp01 (v : Q) : Q := Qmax 0 (Qmin 1 v).

(** [uniform(lo, hi)], from a draw [u] of [[0, 1)]. *)
Definition uniform (lo hi u : Q) : Q := lo + (hi - lo) * u.

(** "for each gene, independently with probability = its mutationRate,
    replace value with clamp01(value + uniform(-0.1, 0.1)); otherwise
    copy unchanged": the genes are decided one after the other, each by
    draws of its own, [tape p] being the next unused draw. *)
Inductive mutates (tape : nat -> Q) : nat -> DNA.t -> DNA.t -> nat -> Prop :=
  | mutates_nil p : mutates tape p [] [] p
  | mutates_copy p k g l l' q :
      ~ tape p < mutationRate g ->
      mutates tape (S p) l l' q ->
      mutates tape p ((k, g) :: l) ((k, g) :: l') q
  | mutates_change p k g g' l l' q :
      tape p < mutationRate g ->
      name g' = name g ->
      mutationRate g' = mutationRate g ->
      value g' == clamp01 (value g + uniform (- (1 # 10)) (1 # 10) (tape (S p))) ->
      mutates tape (S (S p)) l l' q ->
      mutates tape p ((k, g) :: l) ((k, g') :: l') q.

(** "draw uniform(0,1): <0.4 take parent-a's gene, <0.8 take parent-b's
    gene, else produce a new gene averaging both value and
    mutationRate". *)
Definition inherit (u : Q) (n : string) (a b : Gene) : Gene :=
  if Qltb u (4 # 10) then a
  else if Qltb u (8 # 10) then b
  else mkGene n ((value a + value b) / 2) ((mutationRate a + mutationRate b) / 2).

(** Whether both parents carry the name [n]. *)
Definition in_both (dna1 dna2 : DNA.t) (n : string) : bool :=
  match DNA.getGene n dna1, DNA.getGene n dna2 with
  | Some _, Some _ => true
  | _, _ => false
  end.

(** The names that both parents carry, in the order in which [combine]
    meets them. *)
Definition shared_names (a b : DNA.t) : list string :=
  List.filter (in_both a b) (Set_of (JsMap.keys a ++ JsMap.keys b)).

(** The gene that the specification puts under the name [n] of the
    combined genome, [u] being the draw made for [n] when both parents
    carry it. *)
Definition combined_gene (dna1 dna2 : DNA.t) (n : string) (u : Q)
  : option Gene :=
  match DNA.getGene n dna1, DNA.getGene n dna2 with
  | Some gene1, Some gene2 => Some (inherit u n gene1 gene2)
  | Some gene1, None => Some gene1
  | None, Some gene2 => Some gene2
  | None, None => None
  end.

(** *** The agents *)

(** "four cardinal directions only, target coordinate clamped to grid
    bounds": one step, then both coordinates clamped into the grid. *)
Definition clampZ (lo hi v : Z) : Z := Z.max lo (Z.min hi v).

Definition step (direction : Direction) (p : Position) : Position :=
  match direction with
  | north => mkPosition (x p) (y p - 1)
  | east => mkPosition (x p + 1) (y p)
  | south => mkPosition (x p) (y p + 1)
  | west => mkPosition (x p - 1) (y p)
  end.

Definition clamp_to_grid (w : World) (p : Position) : Position :=
  mkPosition (clampZ 0 (width w - 1) (x p)) (clampZ 0 (height w - 1) (y p)).

(** "successChance = 0.3 + aggression*0.4 + max(0, speed -
    targetSpeed)*0.3", with the fallback constants of absent genes. *)
Definition gene_or (n : string) (fallback : Q) (d : DNA.t) : Q :=
  match DNA.getGene n d with
  | Some g => value g
  | None => fallback
  end.

Definition attack_chance (attacker target : DNA.t) : Q :=
  (3 # 10) + gene_or "aggression" (3 # 10) attacker * (4 # 10)
  + Qmax 0 (gene_or "speed" (5 # 10) attacker - gene_or "speed" (5 # 10) target)
    * (3 # 10).

(** "maturityAge = max(15, 25 + maturityGene*20 - 10); an Agent is adult
    iff age >= maturityAge". *)
Definition maturityAge (d : DNA.t) : Q :=
  Qmax 15 (25 + match DNA.getGene "maturityAge" d with
                | Some g => value g * 20 - 10
                | None => 0
                end).

Definition adult (d : DNA.t) (st : AnimalStats) : bool :=
  Qle_bool (maturityAge d) (age st).

(** "successChance = max(0.1, reproductiveUrgeGene -
    populationPressure*0.08)". *)
Definition reproduction_chance (d : DNA.t) (pressure : Z) : Q :=
  Qmax (1 # 10) (gene_or "reproductiveUrge" (5 # 10) d - inject_Z pressure * (8 # 100)).

(** "floor of the midpoint of both parents' positions". *)
Definition midpoint (p q : Position) : Position :=
  mkPosition ((x p + x q) / 2)%Z ((y p + y q) / 2)%Z.

(** Both parents are adult and both have at least 50 energy. *)
Definition eligible (d d' : DNA.t) (st st' : AnimalStats) : bool :=
  adult d st && adult d' st'
  && negb (Qltb (energy st) 50) && negb (Qltb (energy st') 50).

(** ** Observations on states

    What a state holds for an animal, and how two states compare; the
    theorems are stated with them. *)

(** What an animal's own fields hold in a state. *)
Definition stats_of (s : State) (this : loc) : option AnimalStats :=
  match heap s !! this with
  | Some (OAnimal a) =>
      match heap s !! stats a with
      | Some (OStats st) => Some st
      | _ => None
      end
  | _ => None
  end.

Definition position_of (s : State) (this : loc) : option Position :=
  match heap s !! this with
  | Some (OAnimal a) =>
      match heap s !! position a with
      | Some (OPosition p) => Some p
      | _ => None
      end
  | _ => None
  end.

Definition dna_of (s : State) (this : loc) : option DNA.t :=
  match heap s !! this with
  | Some (OAnimal a) =>
      match heap s !! dna a with
      | Some (ODNA d) => Some d
      | _ => None
      end
  | _ => None
  end.

(** The objects one animal owns: the animal [a] at [this], with its
    genome [d], its position [p] and its stats [st]. *)
Record owns (s : State) (this : loc) (a : Animal) (d : DNA.t) (p : Position)
    (st : AnimalStats) : Prop := mkOwns {
  owns_animal : heap s !! this = Some (OAnimal a);
  owns_dna : heap s !! dna a = Some (ODNA d);
  owns_position : heap s !! position a = Some (OPosition p);
  owns_stats : heap s !! stats a = Some (OStats st)
}.

(** [h'] holds every object of [h] but perhaps the one at [l0]. *)
Definition preserved_except (l0 : loc) (h h' : list Obj) : Prop :=
  forall (l : loc) o, l <> l0 -> h !! l = Some o -> h' !! l = Some o.

(** The id of the animal at a location. *)
Definition id_at (h : list Obj) (l : loc) : option string :=
  match h !! l with
  | Some (OAnimal a) => Some (id a)
  | _ => None
  end.

(** The congestion scale that [addAnimal] computes for a registry of
    [size] animals. *)
Definition pressure_of (size maxPopulation : Z) : Z :=
  Z.min 10 (Math_floor (inject_Z size / inject_Z maxPopulation * 10)).

(** [for (const a of animals) results.push(world.addAnimal(a))]. *)
Fixpoint addAnimals (animals : list loc) : M (list bool) :=
  match animals with
  | [] => ret []
  | a :: r => ok <- addAnimal a ;; oks <- addAnimals r ;; ret (ok :: oks)
  end.

(** ** States of the examples *)

(** A world of 2 by 2 tiles, which has room for one animal, that holds
    one animal. *)
Definition crowded_state : State :=
  mkState
    [OAnimal (mkAnimal "a" 1%nat 2%nat 3%nat Fluffles);
     ODNA (DNA.createStandard (Some (species_overrides Fluffles)));
     OPosition (mkPosition 0%Z 0%Z); OStats (mkStats 100 100 0 0)]
    (mkWorld 2%Z 2%Z
       [[mkTile grass 10; mkTile grass 10]; [mkTile grass 10; mkTile grass 10]]
       (JsMap.set "a" 0%nat JsMap.empty) 1%Z 10%Z)
    (mkDisaster false "" 0%Z 0) (fun _ => 0) 0%nat (fun _ => "u"%string) 0%nat.

(** An animal with half a unit of energy in the north-west corner of a
    2 by 2 world. *)
Definition tired_state : State :=
  mkState
    [OAnimal (mkAnimal "a" 1%nat 2%nat 3%nat Fluffles);
     ODNA (DNA.createStandard (Some (species_overrides Fluffles)));
     OPosition (mkPosition 0%Z 0%Z); OStats (mkStats 100 (1 # 2) 0 0)]
    (mkWorld 2%Z 2%Z
       [[mkTile grass 10; mkTile grass 10]; [mkTile grass 10; mkTile grass 10]]
       (JsMap.set "a" 0%nat JsMap.empty) 1%Z 10%Z)
    (mkDisaster false "" 0%Z 0) (fun _ => 1 # 2) 0%nat (fun _ => "u"%string) 0%nat.

(** A world of one grass tile that is 0.05 short of full, with no animal
    and a pressure of 1. *)
Definition lush_state : State :=
  mkState []
    (mkWorld 1%Z 1%Z [[mkTile grass (995 # 100)]] JsMap.empty 0%Z 1%Z)
    (mkDisaster false "" 0%Z 0) (fun _ => 1 # 2) 0%nat (fun _ => "u"%string) 0%nat.

(** Two adult animals next to each other in a 10 by 10 world, both with
    80 energy and a reproductive urge of 0.9, under no pressure; every
    draw is 0.5. *)
Definition pair_dna : DNA.t :=
  DNA.createStandard (Some [("reproductiveUrge"%string, 9 # 10)]).

Definition pair_a : Animal := mkAnimal "a" 1%nat 2%nat 3%nat Fluffles.
Definition pair_b : Animal := mkAnimal "b" 5%nat 6%nat 7%nat Fluffles.
Definition pair_stats : AnimalStats := mkStats 100 80 30 10.

Definition pair_state : State :=
  mkState
    [OAnimal pair_a; ODNA pair_dna; OPosition (mkPosition 2%Z 3%Z);
     OStats pair_stats;
     OAnimal pair_b; ODNA pair_dna; OPosition (mkPosition 3%Z 3%Z);
     OStats pair_stats]
    (mkWorld 10%Z 10%Z (repeat (repeat (mkTile grass 10) 10) 10)
       (JsMap.set "b" 4%nat (JsMap.set "a" 0%nat JsMap.empty)) 30%Z 0%Z)
    (mkDisaster false "" 0%Z 0) (fun _ => 1 # 2) 0%nat
    (fun _ => "child"%string) 0%nat.

(** The same world during a disease of full intensity, every draw being
    0, so that the disease reaches every animal. *)
Definition plague_state : State :=
  mkState (heap pair_state) (world pair_state)
    (mkDisaster true "disease" 10%Z 1) (fun _ => 0) 0%nat
    (fun _ => "child"%string) 0%nat.

(** Thirty animals, not yet registered, for a new 10 by 10 world: the
    animal number [n] lives at location [4 n], followed by its genome,
    its position and its stats. *)
Definition ark_id (n : nat) : string :=
  String (Ascii.ascii_of_nat (65 + n)) EmptyString.

Definition ark_locs : list loc := map (fun n => 4 * n)%nat (seq 0 30).

Definition ark_state : State :=
  mkState
    (flat_map
       (fun n =>
          [OAnimal (mkAnimal (ark_id n) (4 * n + 1) (4 * n + 2) (4 * n + 3) Fluffles);
           ODNA pair_dna;
           OPosition (mkPosition (Z.of_nat (n mod 10)) (Z.of_nat (n / 10)));
           OStats (mkStats 100 100 0 0)])%nat
       (seq 0 30))
    (fst (World_new 10 10 (fun _ => 1 # 2) 0%nat))
    (mkDisaster false "" 0%Z 0) (fun _ => 1 # 2) 0%nat
    (fun _ => "child"%string) 0%nat.

(** A hungry attacker with 50 energy next to its prey; the first draw is
    0, so the attack succeeds, and the second is 0.51. *)
Definition hunt_state : State :=
  mkState
    [OAnimal pair_a; ODNA pair_dna; OPosition (mkPosition 2%Z 3%Z);
     OStats (mkStats 100 50 30 60);
     OAnimal pair_b; ODNA pair_dna; OPosition (mkPosition 3%Z 3%Z);
     OStats pair_stats]
    (world pair_state) (mkDisaster false "" 0%Z 0)
    (fun n => match n with O => 0 | S _ => 51 # 100 end) 0%nat
    (fun _ => "child"%string) 0%nat.

(** ** Vocabulary of the further properties *)

(** The gene that [createStandard(customValues)] builds from one entry
    of the catalog. *)
Definition standard_gene (customValues : option (list (string * Q)))
    (geneDef : GeneDefinition) : Gene :=
  mkGene (gd_name geneDef)
    (match customValues with
     | Some cv =>
         match JsMap.get (gd_name geneDef) cv with
         | Some v => v
         | None => defaultValue geneDef
         end
     | None => defaultValue geneDef
     end)
    (defaultMutationRate geneDef).

(** The tile that the constructor of [World] makes of a draw. *)
Definition seed_of (u : Q) : Tile :=
  if Qltb u (7 # 10) then mkTile grass 10
  else if Qltb u (9 # 10) then mkTile water 5
  else mkTile rock 0.

(** The grid has [height] rows of [width] tiles, as the constructor
    builds it. *)
Definition grid_wf (w : World) : Prop :=
  length (grid w) = Z.to_nat (height w) /\
  Forall (fun row => length row = Z.to_nat (width w)) (grid w).

(** The tile of a grid at a position, when there is one. *)
Definition tile_in (g : list (list Tile)) (p : Position) : option Tile :=
  match g !! Z.to_nat (y p) with
  | Some row => row !! Z.to_nat (x p)
  | None => None
  end.

Definition tile_at (w : World) (p : Position) : option Tile :=
  tile_in (grid w) p.

(** The state with another grid. *)
Definition with_grid (s : State) (g : list (list Tile)) : State :=
  set_world s (set_grid (world s) g).

(** What one pass of the regrowth does to a tile, at a given rate. *)
Definition regrowthRate (pressure : Z) : Q :=
  Qmax (1 # 100) ((1 # 10) - inject_Z pressure * (1 # 100)).


(** What [reduceWorldFood(percentage)] does to a tile. *)
Definition shrink_tile (percentage : Q) (tile : Tile) : Tile :=
  match type tile with
  | grass =>
      mkTile grass
        (foodValue tile - Qmin (foodValue tile) (foodValue tile * percentage))
  | _ => tile
  end.

(** A loop body that replaces the tile at [(px, py)] by [f] of it and
    touches nothing else. *)
Definition cell_step (body : Z -> Z -> M unit) (f : Tile -> Tile) : Prop :=
  forall (s : State) (py px : Z) (row : list Tile) (tile : Tile),
    position_valid (world s) (mkPosition px py) = true ->
    grid (world s) !! Z.to_nat py = Some row ->
    row !! Z.to_nat px = Some tile ->
    body py px s =
    Some (tt, with_grid s (<[Z.to_nat py := <[Z.to_nat px := f tile]> row]>
                             (grid (world s)))).

(** The registry is a map, holds no more animals than the world has
    room for, and the congestion scale is on its range. *)
Definition registry_ok (w : World) : Prop :=
  JsMap.wf (animals w) /\
  (JsMap.size (animals w) <= Z.max 0 (maxPopulation w))%Z /\
  (0 <= populationPressure w <= 10)%Z.

(** The state in which the stats object of the animal [a] holds [st]. *)
Definition with_stats (s : State) (a : Animal) (st : AnimalStats) : State :=
  set_heap s (<[stats a := OStats st]> (heap s)).

(** What the first three statements of [update()] make of the stats. *)
Definition aged (st : AnimalStats) : AnimalStats :=
  mkStats (health st) (Qmax 0 (energy st - (5 # 10))) (age st + 1)
    (Qmin 100 (hunger st + 1)).

(** [maxAge] and the chance of dying of old age at a given age. *)
Definition lifespan (d : DNA.t) : Q :=
  100 + match DNA.getGene "lifespan" d with
        | Some g => value g * 50
        | None => 0
        end.

Definition age_death_chance (d : DNA.t) (age : Q) : Q :=
  (age - lifespan d * (7 # 10)) / (lifespan d * (3 # 10)) * (1 # 10).


(** From [s] to [s'] no object of the heap has changed (there may be new
    ones), and the world differs at most by the food of its tiles. *)
Definition spared (s s' : State) : Prop :=
  (forall (l : loc) o, heap s !! l = Some o -> heap s' !! l = Some o) /\
  animals (world s') = animals (world s) /\
  maxPopulation (world s') = maxPopulation (world s) /\
  populationPressure (world s') = populationPressure (world s) /\
  width (world s') = width (world s) /\
  height (world s') = height (world s) /\
  map (map type) (grid (world s')) = map (map type) (grid (world s)).

(** From [s] to [s'] no object of the heap has changed, and the world
    and the disaster are the same. *)
Definition untouched (s s' : State) : Prop :=
  (forall (l : loc) o, heap s !! l = Some o -> heap s' !! l = Some o) /\
  world s' = world s /\ disaster s' = disaster s.

(** The distance that the code uses: [|dx| + |dy|]. *)
Definition manhattan (p q : Position) : Z :=
  (Z.abs (x p - x q) + Z.abs (y p - y q))%Z.

(** Whether the animal at [l] is within [radius] of the cell [c]. *)
Definition within (s : State) (c : Position) (radius : Q) (l : loc) : bool :=
  match position_of s l with
  | Some q => Qle_bool (inject_Z (manhattan q c)) radius
  | None => false
  end.




(** The animal at [l] is a Fluffles as [initialize] makes them: standard
    genes of its species, full health and energy, no age, no hunger, and
    a cell of the grid. *)
Definition newborn (s : State) (l : loc) : Prop :=
  exists a q,
    heap s !! l = Some (OAnimal a) /\ species a = Fluffles /\
    JsMap.get (id a) (animals (world s)) = Some l /\
    dna_of s l = Some (DNA.createStandard (Some (species_overrides Fluffles))) /\
    stats_of s l = Some (mkStats 100 100 0 0) /\
    position_of s l = Some q /\
    position_valid (world s) q = true.

(** Identifiers that never repeat: [n] times the letter x. *)
Fixpoint tally (n : nat) : string :=
  match n with
  | O => EmptyString
  | S m => String (Ascii.ascii_of_nat 120) (tally m)
  end.

(** A 2 by 2 world of grass with room for one animal and no animal yet;
    every draw is 0.5. *)
Definition nursery_state : State :=
  mkState []
    (mkWorld 2%Z 2%Z
       [[mkTile grass 10; mkTile grass 10]; [mkTile grass 10; mkTile grass 10]]
       JsMap.empty 1%Z 0%Z)
    (mkDisaster false "" 0%Z 0) (fun _ => 1 # 2) 0%nat tally 0%nat.


(** The registered animals other than the one with the id [i0] that are
    within [radius] of the cell [p], in the order of the registry. *)
Definition others_near (s : State) (p : Position) (radius : Q) (i0 : string)
  : list loc :=
  List.filter
    (fun l => match id_at (heap s) l with
              | Some i => negb (String.eqb i i0)
              | None => false
              end)
    (List.filter (within s p radius) (JsMap.values (animals (world s)))).

(** The first animal of a list among those nearest to [p], with its
    distance, as the loops of [seekCompany] and [huntOthers] find it. *)
Definition nearest (s : State) (p : Position) (ls : list loc)
  : option (loc * Z) :=
  fold_left
    (fun best l =>
       match position_of s l with
       | Some q => closer best l (manhattan q p)
       | None => best
       end) ls None.

(** * Lemmas and theorems *)

(** ** Lemmas on numbers *)

Lemma Qltb_lt (a b : Q) : Qltb a b = true <-> a < b.
Proof.
  unfold Qltb. rewrite negb_true_iff. split.
  - intros H. apply Qnot_le_lt. intros Hle.
    apply Qle_bool_iff in Hle. congruence.
  - intros H. destruct (Qle_bool b a) eqn:E; [|reflexivity].
    apply Qle_bool_iff in E. exfalso. apply (Qlt_not_le _ _ H E).
Qed.

Lemma Qltb_ge (a b : Q) : Qltb a b = false <-> b <= a.
Proof.
  unfold Qltb. rewrite negb_false_iff. apply Qle_bool_iff.
Qed.

Lemma clamp01_bounds (v : Q) : 0 <= clamp01 v /\ clamp01 v <= 1.
Proof.
  unfold clamp01. split.
  - apply Q.le_max_l.
  - apply Q.max_lub; [lra | apply Q.le_min_l].
Qed.

(** ** Lemmas on [JsMap] *)

Section JsMapLemmas.
Context {V : Type}.
Implicit Types (m : JsMap.t V) (k : string) (v : V).

Lemma get_None_keys k m : JsMap.get k m = None <-> ~ In k (JsMap.keys m).
Proof.
  induction m as [|[k' v'] r IH]; simpl; [tauto|].
  destruct (String.eqb_spec k' k) as [->|Hne].
  - split; [discriminate | intros H; exfalso; apply H; now left].
  - rewrite IH. split; [intros H [E|E]; [congruence | tauto] | tauto].
Qed.

Lemma get_Some_In k v m : JsMap.get k m = Some v -> In (k, v) m.
Proof.
  induction m as [|[k' v'] r IH]; simpl; [discriminate|].
  destruct (String.eqb_spec k' k) as [->|Hne].
  - intros [= ->]. now left.
  - intros H. right. now apply IH.
Qed.

Lemma get_is_Some_keys k m : is_Some (JsMap.get k m) <-> In k (JsMap.keys m).
Proof.
  rewrite <- not_eq_None_Some, get_None_keys.
  split; [|tauto]. intros H.
  destruct (in_dec string_dec k (JsMap.keys m)); tauto.
Qed.

Lemma set_absent k v m :
  JsMap.get k m = None -> JsMap.set k v m = m ++ [(k, v)].
Proof.
  induction m as [|[k' v'] r IH]; simpl; [reflexivity|].
  destruct (String.eqb_spec k' k) as [->|Hne]; [discriminate|].
  intros H. now rewrite IH.
Qed.

Lemma get_set_eq k v m : JsMap.get k (JsMap.set k v m) = Some v.
Proof.
  induction m as [|[k' v'] r IH]; simpl.
  - now rewrite String.eqb_refl.
  - destruct (String.eqb_spec k' k) as [->|Hne]; simpl.
    + now rewrite String.eqb_refl.
    + destruct (String.eqb_spec k' k); [contradiction | exact IH].
Qed.

Lemma get_set_ne k k' v m :
  k <> k' -> JsMap.get k' (JsMap.set k v m) = JsMap.get k' m.
Proof.
  intros Hne. induction m as [|[k0 v0] r IH]; simpl.
  - destruct (String.eqb_spec k k'); [contradiction | reflexivity].
  - destruct (String.eqb_spec k0 k) as [->|Hne0]; simpl.
    + destruct (String.eqb_spec k k'); [contradiction | reflexivity].
    + destruct (String.eqb_spec k0 k'); [reflexivity | exact IH].
Qed.

Lemma get_app k m m' :
  JsMap.get k (m ++ m') =
  match JsMap.get k m with Some v => Some v | None => JsMap.get k m' end.
Proof.
  induction m as [|[k0 v0] r IH]; simpl; [reflexivity|].
  destruct (String.eqb k0 k); [reflexivity | exact IH].
Qed.

Lemma size_set_absent k v m :
  JsMap.get k m = None ->
  JsMap.size (JsMap.set k v m) = (JsMap.size m + 1)%Z.
Proof.
  intros H. rewrite (set_absent _ _ _ H). unfold JsMap.size.
  rewrite length_app. simpl. lia.
Qed.

Lemma size_set_present k v m :
  is_Some (JsMap.get k m) -> JsMap.size (JsMap.set k v m) = JsMap.size m.
Proof.
  unfold JsMap.size. intros H. f_equal.
  induction m as [|[k' v'] r IH]; simpl in *.
  - destruct H; discriminate.
  - destruct (String.eqb k' k); simpl; [reflexivity | f_equal; auto].
Qed.

Lemma keys_set_present k v m :
  is_Some (JsMap.get k m) -> JsMap.keys (JsMap.set k v m) = JsMap.keys m.
Proof.
  induction m as [|[k' v'] r IH]; simpl.
  - intros []; discriminate.
  - destruct (String.eqb k' k); simpl; [reflexivity|].
    intros H. f_equal. auto.
Qed.

Lemma wf_set k v m : JsMap.wf m -> JsMap.wf (JsMap.set k v m).
Proof.
  unfold JsMap.wf. intros H.
  destruct (JsMap.get k m) eqn:E.
  - rewrite keys_set_present; [exact H | eauto].
  - rewrite (set_absent _ _ _ E). unfold JsMap.keys. rewrite map_app. simpl.
    apply NoDup_app. split; [exact H|]. split.
    + intros k' Hin Hin'. apply list_elem_of_In in Hin, Hin'.
      destruct Hin' as [<-|[]]. apply get_None_keys in E. contradiction.
    + apply NoDup_singleton.
Qed.

Lemma get_delete_ne k k' m :
  k <> k' -> JsMap.get k' (JsMap.delete k m) = JsMap.get k' m.
Proof.
  intros Hne. induction m as [|[k0 v0] r IH]; simpl; [reflexivity|].
  destruct (String.eqb_spec k0 k) as [->|Hne0]; simpl.
  - destruct (String.eqb_spec k k'); [contradiction | reflexivity].
  - destruct (String.eqb k0 k'); [reflexivity | exact IH].
Qed.

Lemma get_delete_eq k m :
  JsMap.wf m -> JsMap.get k (JsMap.delete k m) = None.
Proof.
  unfold JsMap.wf. induction m as [|[k0 v0] r IH]; simpl; [reflexivity|].
  intros Hnd. apply NoDup_cons in Hnd as [Hnin Hnd].
  destruct (String.eqb_spec k0 k) as [->|Hne0]; simpl.
  - apply get_None_keys. intros Hin. apply Hnin. now apply list_elem_of_In.
  - destruct (String.eqb_spec k0 k); [contradiction | auto].
Qed.

Lemma size_delete_le k m : (JsMap.size (JsMap.delete k m) <= JsMap.size m)%Z.
Proof.
  unfold JsMap.size. apply inj_le.
  induction m as [|[k0 v0] r IH]; simpl; [lia|].
  destruct (String.eqb k0 k); simpl; lia.
Qed.

Lemma size_delete_present k m :
  is_Some (JsMap.get k m) ->
  JsMap.size (JsMap.delete k m) = (JsMap.size m - 1)%Z.
Proof.
  unfold JsMap.size. induction m as [|[k0 v0] r IH]; simpl.
  - intros []; discriminate.
  - destruct (String.eqb k0 k); simpl; [lia|].
    intros H. specialize (IH H).
    assert (length r <> 0)%nat by (destruct r; [destruct H; discriminate | discriminate]).
    lia.
Qed.

End JsMapLemmas.

(** ** Lemmas on [DNA] *)

Lemma wf_new_None : DNA.wf (DNA.new None).
Proof. split; [apply NoDup_nil_2 | apply Forall_nil_2]. Qed.

Lemma wf_addGene g d : DNA.wf d -> DNA.wf (DNA.addGene g d).
Proof.
  intros [Hnd Hkey]. split; [now apply wf_set|].
  unfold DNA.addGene. clear Hnd.
  induction d as [|[k' g'] r IH]; simpl.
  - repeat constructor.
  - apply Forall_cons in Hkey as [Hk Hr].
    destruct (String.eqb_spec k' (name g)) as [->|Hne].
    + constructor; [reflexivity | exact Hr].
    + constructor; [exact Hk | auto].
Qed.

Lemma wf_getGene n g d : DNA.wf d -> DNA.getGene n d = Some g -> name g = n.
Proof.
  intros [_ Hkey] H. apply get_Some_In in H.
  rewrite List.Forall_forall in Hkey. symmetry. exact (Hkey _ H).
Qed.

Lemma wf_createStandard cv : DNA.wf (DNA.createStandard cv).
Proof.
  unfold DNA.createStandard.
  generalize (DNA.new None) wf_new_None. generalize DNA.STANDARD_GENES.
  intros l. induction l as [|gd l IH]; intros d Hd; simpl; [exact Hd|].
  apply IH. now apply wf_addGene.
Qed.

Lemma Rand_forEach_cons {A X} (v : X) (r : list X) (body : A -> X -> Rand A)
    (acc : A) tape p :
  Rand.forEach (v :: r) body acc tape p =
  Rand.forEach r body (fst (body acc v tape p)) tape (snd (body acc v tape p)).
Proof. simpl. unfold Rand.bind. now destruct (body acc v tape p). Qed.

Lemma mutate_step_change (acc : DNA.t) k g tape p :
  Qltb (tape p) (mutationRate g) = true ->
  DNA.mutate_step acc (k, g) tape p =
  (DNA.addGene
     (mkGene k (Math_max 0 (Math_min 1 (value g + (tape (S p) * 2 - 1) * (1 # 10))))
        (mutationRate g)) acc, S (S p)).
Proof.
  intros E. unfold DNA.mutate_step, Rand.bind, Rand.random, Rand.ret.
  now rewrite E.
Qed.

Lemma mutate_step_copy (acc : DNA.t) k g tape p :
  Qltb (tape p) (mutationRate g) = false ->
  DNA.mutate_step acc (k, g) tape p = (DNA.addGene g acc, S p).
Proof.
  intros E. unfold DNA.mutate_step, Rand.bind, Rand.random, Rand.ret.
  now rewrite E.
Qed.

(** The loop of [mutate] appends one gene per entry to [newDNA], when
    the names of the entries are distinct and new to [newDNA]. *)
Lemma mutate_loop tape (l : DNA.t) : forall (acc : DNA.t) p,
  NoDup (JsMap.keys l) ->
  Forall (fun e => fst e = name (snd e)) l ->
  (forall k, In k (JsMap.keys l) -> JsMap.get k acc = None) ->
  exists l' q,
    Rand.forEach l DNA.mutate_step acc tape p = (acc ++ l', q) /\
    mutates tape p l l' q /\
    JsMap.keys l' = JsMap.keys l /\
    Forall (fun e => fst e = name (snd e)) l'.
Proof.
  induction l as [|[k g] l IH]; intros acc p Hnd Hkey Hfresh.
  - exists [], p. simpl. unfold Rand.ret. rewrite app_nil_r.
    repeat split; constructor.
  - apply NoDup_cons in Hnd as [Hk Hnd]. apply Forall_cons in Hkey as [Hkg Hkey].
    simpl in Hkg. subst k.
    assert (Hacc : JsMap.get (name g) acc = None) by (apply Hfresh; now left).
    assert (Hnext : forall g', name g' = name g ->
              forall k, In k (JsMap.keys l) ->
                        JsMap.get k (acc ++ [(name g, g')]) = None).
    { intros g' Hg' k Hin. rewrite get_app, Hfresh by (now right). simpl.
      destruct (String.eqb_spec (name g) k) as [E|_]; [|reflexivity].
      exfalso. apply Hk. apply list_elem_of_In. now rewrite E. }
    rewrite Rand_forEach_cons.
    destruct (Qltb (tape p) (mutationRate g)) eqn:E.
    + rewrite (mutate_step_change _ _ _ _ _ E). cbn [fst snd].
      set (g' := mkGene (name g) _ (mutationRate g)).
      destruct (IH (acc ++ [(name g, g')]) (S (S p)) Hnd Hkey (Hnext g' eq_refl))
        as (l' & q & Hrun & Hmut & Hkeys & Hkey').
      exists ((name g, g') :: l'), q.
      unfold DNA.addGene. change (name g') with (name g).
      rewrite (set_absent _ _ _ Hacc), Hrun.
      rewrite <- app_assoc. repeat split.
      * apply mutates_change; try reflexivity; [now apply Qltb_lt | | exact Hmut].
        subst g'. simpl. unfold Math_max, Math_min, clamp01, uniform.
        apply Q.max_compat; [reflexivity|].
        apply Q.min_compat; [reflexivity|]. lra.
      * simpl. now rewrite Hkeys.
      * constructor; [reflexivity | exact Hkey'].
    + rewrite (mutate_step_copy _ _ _ _ _ E). cbn [fst snd].
      destruct (IH (acc ++ [(name g, g)]) (S p) Hnd Hkey (Hnext g eq_refl))
        as (l' & q & Hrun & Hmut & Hkeys & Hkey').
      exists ((name g, g) :: l'), q.
      unfold DNA.addGene. rewrite (set_absent _ _ _ Hacc), Hrun.
      rewrite <- app_assoc. repeat split.
      * apply mutates_copy; [|exact Hmut].
        intros Hlt. apply Qltb_lt in Hlt. congruence.
      * simpl. now rewrite Hkeys.
      * constructor; [reflexivity | exact Hkey'].
Qed.

Lemma mutates_values_in_unit tape p l l' q :
  mutates tape p l l' q -> DNA.values_in_unit l -> DNA.values_in_unit l'.
Proof.
  unfold DNA.values_in_unit.
  induction 1 as [|p k g l l' q Hlt Hm IH|p k g g' l l' q Hlt Hn Hr Hv Hm IH];
    intros Hin.
  - constructor.
  - apply Forall_cons in Hin as [Hg Hl]. constructor; auto.
  - apply Forall_cons in Hin as [Hg Hl]. constructor; auto.
    simpl. rewrite Hv. apply clamp01_bounds.
Qed.

Lemma mutates_length tape p l l' q :
  mutates tape p l l' q -> length l' = length l.
Proof. induction 1; simpl; congruence. Qed.

Lemma mutates_names tape p l l' q :
  mutates tape p l l' q ->
  map name (DNA.getAllGenes l') = map name (DNA.getAllGenes l).
Proof. induction 1; simpl; congruence. Qed.

(** The offspring of a mutation, as a whole. *)
Lemma mutate_mutates tape p (d : DNA.t) :
  DNA.wf d ->
  mutates tape p d (fst (DNA.mutate d tape p)) (snd (DNA.mutate d tape p)) /\
  DNA.wf (fst (DNA.mutate d tape p)).
Proof.
  intros [Hnd Hkey]. unfold DNA.mutate.
  destruct (mutate_loop tape d (DNA.new None) p Hnd Hkey)
    as (l' & q & Hrun & Hmut & Hkeys & Hkey'); [reflexivity|].
  rewrite Hrun. simpl. split; [exact Hmut|].
  split; [|exact Hkey']. unfold JsMap.wf. now rewrite Hkeys.
Qed.

(** C4. [mutate()] returns a genome with the same gene names, in the same
    number; every gene is decided by a draw of its own against its own
    [mutationRate]: below it the gene is replaced by one of the same name
    and rate whose value is [clamp01 (value + uniform(-0.1, 0.1))], the
    offset coming from a further draw of its own, and otherwise the gene
    is copied unchanged; a genome whose values lie in [[0, 1]] mutates
    into one whose values lie in [[0, 1]]. *)
Theorem mutate_contract (tape : nat -> Q) (p : nat) (d : DNA.t) :
  DNA.wf d ->
  let d' := fst (DNA.mutate d tape p) in
  let q := snd (DNA.mutate d tape p) in
  mutates tape p d d' q /\
  JsMap.keys d' = JsMap.keys d /\
  map name (DNA.getAllGenes d') = map name (DNA.getAllGenes d) /\
  length (DNA.getAllGenes d') = length (DNA.getAllGenes d) /\
  (DNA.values_in_unit d -> DNA.values_in_unit d').
Proof.
  intros Hwf d' q.
  destruct (mutate_mutates tape p d Hwf) as [Hmut Hwf'].
  fold d' q in Hmut. split; [exact Hmut|].
  assert (Hnames := mutates_names _ _ _ _ _ Hmut).
  repeat split.
  - destruct Hwf as [_ Hkey]. destruct Hwf' as [_ Hkey']. fold d' in Hkey'.
    unfold JsMap.keys. unfold DNA.getAllGenes, JsMap.values in Hnames.
    rewrite !map_map in Hnames.
    rewrite (map_ext_Forall fst (fun e => name (snd e)) Hkey').
    rewrite (map_ext_Forall fst (fun e => name (snd e)) Hkey).
    exact Hnames.
  - exact Hnames.
  - unfold DNA.getAllGenes, JsMap.values. rewrite !length_map.
    exact (mutates_length _ _ _ _ _ Hmut).
  - exact (mutates_values_in_unit _ _ _ _ _ Hmut).
Qed.

(** *** [combine] *)

Lemma In_Set_add k n s : In n (Set_add k s) <-> n = k \/ In n s.
Proof.
  induction s as [|k' r IH]; simpl.
  - intuition congruence.
  - destruct (String.eqb_spec k' k) as [->|Hne]; simpl.
    + intuition congruence.
    + rewrite IH. intuition congruence.
Qed.

Lemma NoDup_Set_add k s : NoDup s -> NoDup (Set_add k s).
Proof.
  induction s as [|k' r IH]; simpl; intros Hnd.
  - apply NoDup_singleton.
  - destruct (String.eqb_spec k' k) as [->|Hne]; [exact Hnd|].
    apply NoDup_cons in Hnd as [Hnin Hnd]. apply NoDup_cons. split; [|auto].
    rewrite list_elem_of_In, In_Set_add. rewrite list_elem_of_In in Hnin.
    intuition congruence.
Qed.

Lemma Set_of_spec names :
  NoDup (Set_of names) /\ forall n, In n (Set_of names) <-> In n names.
Proof.
  unfold Set_of.
  assert (H : forall s, NoDup s ->
            NoDup (fold_left (fun s k => Set_add k s) names s) /\
            forall n, In n (fold_left (fun s k => Set_add k s) names s) <->
                      In n s \/ In n names).
  { induction names as [|k r IH]; intros s Hs; simpl.
    - split; [exact Hs | tauto].
    - destruct (IH (Set_add k s) (NoDup_Set_add k s Hs)) as [Hnd Hin].
      split; [exact Hnd|]. intros n. rewrite Hin, In_Set_add. intuition. }
  destruct (H [] (NoDup_nil_2)) as [Hnd Hin].
  split; [exact Hnd|]. intros n. rewrite Hin. simpl. tauto.
Qed.

Lemma combine_step_eq dna1 dna2 (acc : DNA.t) n tape p :
  DNA.wf dna1 -> DNA.wf dna2 ->
  DNA.combine_step dna1 dna2 acc n tape p =
  (match combined_gene dna1 dna2 n (tape p) with
   | Some g => JsMap.set n g acc
   | None => acc
   end,
   if in_both dna1 dna2 n then S p else p).
Proof.
  intros H1 H2. unfold DNA.combine_step, combined_gene, in_both, inherit.
  destruct (DNA.getGene n dna1) as [g1|] eqn:E1;
    destruct (DNA.getGene n dna2) as [g2|] eqn:E2;
    unfold Rand.bind, Rand.random, Rand.ret, DNA.addGene;
    try (pose proof (wf_getGene _ _ _ H1 E1) as N1);
    try (pose proof (wf_getGene _ _ _ H2 E2) as N2).
  - destruct (Qltb (tape p) (4 # 10)); [now rewrite N1|].
    destruct (Qltb (tape p) (8 # 10)); [now rewrite N2 | reflexivity].
  - now rewrite N1.
  - now rewrite N2.
  - reflexivity.
Qed.

Lemma combine_loop dna1 dna2 tape (ns : list string) :
  DNA.wf dna1 -> DNA.wf dna2 -> NoDup ns ->
  forall (acc : DNA.t) p,
    let run := Rand.forEach ns (DNA.combine_step dna1 dna2) acc tape p in
    (forall n, ~ In n ns -> JsMap.get n (fst run) = JsMap.get n acc) /\
    (forall n, In n ns -> in_both dna1 dna2 n = false ->
               JsMap.get n (fst run) =
               match combined_gene dna1 dna2 n 0 with
               | Some g => Some g
               | None => JsMap.get n acc
               end) /\
    (forall (i : nat) n,
        List.filter (in_both dna1 dna2) ns !! i = Some n ->
        JsMap.get n (fst run) = combined_gene dna1 dna2 n (tape (p + i)%nat)) /\
    snd run = (p + length (List.filter (in_both dna1 dna2) ns))%nat /\
    (DNA.wf acc -> DNA.wf (fst run)).
Proof.
  intros H1 H2. induction ns as [|m ns IH]; intros Hnd acc p run.
  - subst run. simpl. unfold Rand.ret. simpl.
    refine (conj _ (conj _ (conj _ (conj _ _)))); try tauto.
    + intros i n Hi. discriminate.
    + lia.
  - apply NoDup_cons in Hnd as [Hm Hnd]. rewrite list_elem_of_In in Hm.
    subst run. rewrite Rand_forEach_cons, (combine_step_eq _ _ _ _ _ _ H1 H2).
    cbn [fst snd].
    set (acc1 := match combined_gene dna1 dna2 m (tape p) with
                 | Some g => JsMap.set m g acc
                 | None => acc
                 end).
    set (p1 := if in_both dna1 dna2 m then S p else p).
    destruct (IH Hnd acc1 p1) as (Ha & Hb & Hc & Hd & He).
    assert (Hother : forall n, n <> m -> JsMap.get n acc1 = JsMap.get n acc).
    { intros n Hn. subst acc1. destruct (combined_gene dna1 dna2 m (tape p));
        [apply get_set_ne; congruence | reflexivity]. }
    assert (Hm1 : JsMap.get m acc1 =
                  match combined_gene dna1 dna2 m (tape p) with
                  | Some g => Some g
                  | None => JsMap.get m acc
                  end).
    { subst acc1. destruct (combined_gene dna1 dna2 m (tape p));
        [apply get_set_eq | reflexivity]. }
    refine (conj _ (conj _ (conj _ (conj _ _)))).
    + intros n Hn. simpl in Hn. rewrite Ha by tauto. apply Hother. intuition.
    + intros n [<-|Hin] Hboth.
      * rewrite Ha, Hm1 by exact Hm. unfold combined_gene, in_both in *.
        destruct (DNA.getGene m dna1), (DNA.getGene m dna2);
          try reflexivity; discriminate.
      * rewrite (Hb n Hin Hboth).
        destruct (combined_gene dna1 dna2 n 0); [reflexivity|].
        apply Hother. intros ->. contradiction.
    + intros i n Hi. simpl in Hi. subst p1.
      destruct (in_both dna1 dna2 m) eqn:Em.
      * destruct i as [|i]; simpl in Hi.
        -- injection Hi as <-. rewrite Ha, Hm1 by exact Hm.
           rewrite Nat.add_0_r. unfold combined_gene, in_both in *.
           destruct (DNA.getGene m dna1), (DNA.getGene m dna2);
             try reflexivity; discriminate.
        -- rewrite (Hc i n Hi). do 2 f_equal. lia.
      * exact (Hc i n Hi).
    + rewrite Hd. subst p1. simpl.
      destruct (in_both dna1 dna2 m); simpl; lia.
    + intros Hacc. apply He. subst acc1.
      destruct (combined_gene dna1 dna2 m (tape p)) as [g|] eqn:Eg; [|exact Hacc].
      assert (Hg : name g = m).
      { unfold combined_gene, inherit in Eg.
        destruct (DNA.getGene m dna1) as [g1|] eqn:E1;
          destruct (DNA.getGene m dna2) as [g2|] eqn:E2; try discriminate;
          injection Eg as <-;
          try (now apply (wf_getGene _ _ _ H1 E1));
          try (now apply (wf_getGene _ _ _ H2 E2)).
        destruct (Qltb (tape p) (4 # 10));
          [now apply (wf_getGene _ _ _ H1 E1)|].
        destruct (Qltb (tape p) (8 # 10));
          [now apply (wf_getGene _ _ _ H2 E2) | reflexivity]. }
      rewrite <- Hg. now apply wf_addGene.
Qed.

Lemma NoDup_keys_length {V W} (m : JsMap.t V) (m' : JsMap.t W) :
  JsMap.wf m -> (forall n, In n (JsMap.keys m) -> In n (JsMap.keys m')) ->
  (length m <= length m')%nat.
Proof.
  intros Hnd Hincl.
  rewrite <- (length_map fst m), <- (length_map fst m').
  apply List.NoDup_incl_length; [now apply NoDup_ListNoDup | exact Hincl].
Qed.

Lemma shared_names_iff (a b : DNA.t) (n : string) :
  In n (shared_names a b) <-> in_both a b n = true.
Proof.
  destruct (Set_of_spec (JsMap.keys a ++ JsMap.keys b)) as [_ Hin].
  unfold shared_names. rewrite List.filter_In, Hin, in_app_iff.
  split; [tauto|]. intros E. split; [|exact E]. left.
  apply get_is_Some_keys. unfold in_both, DNA.getGene in E.
  destruct (JsMap.get n a); [eauto | discriminate].
Qed.

(** Every name of the result holds the gene that the specification puts
    there, for some draw. *)
Lemma combine_lookup (tape : nat -> Q) (p : nat) (a b : DNA.t) (n : string) :
  DNA.wf a -> DNA.wf b ->
  exists u, DNA.getGene n (fst (DNA.combine a b tape p)) = combined_gene a b n u.
Proof.
  intros Ha Hb.
  destruct (Set_of_spec (JsMap.keys a ++ JsMap.keys b)) as [Hnd Hin].
  destruct (combine_loop a b tape _ Ha Hb Hnd (DNA.new None) p)
    as (Hout & Hone & Hboth & _ & _).
  fold (DNA.combine a b) in Hout, Hone, Hboth.
  fold (shared_names a b) in Hboth.
  destruct (in_both a b n) eqn:E.
  - apply shared_names_iff, list_elem_of_In, list_elem_of_lookup in E as [i Hi].
    eexists. exact (Hboth i n Hi).
  - exists 0.
    destruct (in_dec string_dec n (Set_of (JsMap.keys a ++ JsMap.keys b)))
      as [Hn|Hn].
    + unfold DNA.getGene. rewrite (Hone n Hn E).
      destruct (combined_gene a b n 0); reflexivity.
    + unfold DNA.getGene. rewrite (Hout n Hn). simpl.
      rewrite Hin, in_app_iff in Hn. unfold combined_gene.
      destruct (DNA.getGene n a) eqn:E1.
      { exfalso. apply Hn. left. apply get_is_Some_keys.
        unfold DNA.getGene in E1. eauto. }
      destruct (DNA.getGene n b) eqn:E2; [|reflexivity].
      exfalso. apply Hn. right. apply get_is_Some_keys.
      unfold DNA.getGene in E2. eauto.
Qed.

Lemma combine_keys (tape : nat -> Q) (p : nat) (a b : DNA.t) (n : string) :
  DNA.wf a -> DNA.wf b ->
  In n (JsMap.keys (fst (DNA.combine a b tape p))) <->
  In n (JsMap.keys a) \/ In n (JsMap.keys b).
Proof.
  intros Ha Hb. rewrite <- !get_is_Some_keys.
  destruct (combine_lookup tape p a b n Ha Hb) as [u Hu].
  unfold DNA.getGene in Hu. rewrite Hu. unfold combined_gene, DNA.getGene.
  destruct (JsMap.get n a), (JsMap.get n b); split; eauto.
  intros [[? E]|[? E]]; discriminate.
Qed.

Lemma combine_wf (tape : nat -> Q) (p : nat) (a b : DNA.t) :
  DNA.wf a -> DNA.wf b -> DNA.wf (fst (DNA.combine a b tape p)).
Proof.
  intros Ha Hb.
  destruct (Set_of_spec (JsMap.keys a ++ JsMap.keys b)) as [Hnd _].
  destruct (combine_loop a b tape _ Ha Hb Hnd (DNA.new None) p)
    as (_ & _ & _ & _ & Hwf).
  apply Hwf, wf_new_None.
Qed.

(** C5. The gene names of [combine(a, b)] are exactly the names of [a]
    together with the names of [b], so the result has at least as many
    genes as either parent; a gene that only one parent carries is copied
    as it is; the [i]-th name that both carry is decided by the [i]-th
    draw of the call, [u]: below 0.4 the gene of [a], below 0.8 the gene
    of [b], and otherwise a new gene whose value and mutationRate are the
    averages of the parents'. *)
Theorem combine_contract (tape : nat -> Q) (p : nat) (a b : DNA.t) :
  DNA.wf a -> DNA.wf b ->
  let c := fst (DNA.combine a b tape p) in
  (forall n, In n (JsMap.keys c) <-> In n (JsMap.keys a) \/ In n (JsMap.keys b)) /\
  (length a <= length c)%nat /\ (length b <= length c)%nat /\
  (forall n g, DNA.getGene n a = Some g -> DNA.getGene n b = None ->
               DNA.getGene n c = Some g) /\
  (forall n g, DNA.getGene n a = None -> DNA.getGene n b = Some g ->
               DNA.getGene n c = Some g) /\
  (forall n ga gb, DNA.getGene n a = Some ga -> DNA.getGene n b = Some gb ->
     exists i : nat,
       shared_names a b !! i = Some n /\
       (forall j : nat, shared_names a b !! j = Some n -> j = i) /\
       let u := tape (p + i)%nat in
       DNA.getGene n c =
       Some (if Qltb u (4 # 10) then ga
             else if Qltb u (8 # 10) then gb
             else mkGene n ((value ga + value gb) / 2)
                    ((mutationRate ga + mutationRate gb) / 2))) /\
  snd (DNA.combine a b tape p) = (p + length (shared_names a b))%nat /\
  DNA.wf c.
Proof.
  intros Ha Hb c.
  destruct (Set_of_spec (JsMap.keys a ++ JsMap.keys b)) as [Hnd Hin].
  destruct (combine_loop a b tape _ Ha Hb Hnd (DNA.new None) p)
    as (_ & _ & Hboth & Hpos & _).
  fold (DNA.combine a b) in Hboth, Hpos. fold c in Hboth.
  fold (shared_names a b) in Hboth, Hpos.
  pose proof (fun n => combine_keys tape p a b n Ha Hb) as Hnames. fold c in Hnames.
  pose proof (fun n => combine_lookup tape p a b n Ha Hb) as Hget. fold c in Hget.
  refine (conj Hnames (conj _ (conj _ (conj _ (conj _ (conj _ (conj Hpos _))))))).
  - apply NoDup_keys_length; [apply Ha|]. intros n Hn. apply Hnames. now left.
  - apply NoDup_keys_length; [apply Hb|]. intros n Hn. apply Hnames. now right.
  - intros n g E1 E2. destruct (Hget n) as [u Hu]. rewrite Hu.
    unfold combined_gene. now rewrite E1, E2.
  - intros n g E1 E2. destruct (Hget n) as [u Hu]. rewrite Hu.
    unfold combined_gene. now rewrite E1, E2.
  - intros n ga gb E1 E2.
    assert (E : in_both a b n = true) by (unfold in_both; now rewrite E1, E2).
    apply shared_names_iff, list_elem_of_In, list_elem_of_lookup in E as [i Hi].
    exists i. split; [exact Hi|]. split.
    + intros j Hj. eapply NoDup_lookup; [|exact Hj|exact Hi].
      unfold shared_names. apply NoDup_ListNoDup, List.NoDup_filter.
      now apply NoDup_ListNoDup.
    + simpl. unfold DNA.getGene at 1. rewrite (Hboth i n Hi).
      unfold combined_gene, inherit. now rewrite E1, E2.
  - now apply combine_wf.
Qed.

(** ** Lemmas on the world *)

Ltac msimpl :=
  unfold bind, ret, fail, when, the_world, gets, modify, update_world; simpl.

Lemma addAnimal_full (animal : loc) (s : State) :
  (JsMap.size (animals (world s)) >= maxPopulation (world s))%Z ->
  addAnimal animal s =
  Some (false,
        if (populationPressure (world s) <? 5)%Z
        then set_world s (set_populationPressure (world s)
                            (populationPressure (world s) + 1)%Z)
        else s).
Proof.
  intros H. unfold addAnimal. msimpl.
  destruct (Z.geb_spec (JsMap.size (animals (world s))) (maxPopulation (world s)));
    [|lia].
  now destruct (populationPressure (world s) <? 5)%Z.
Qed.

Lemma addAnimal_room (animal : loc) (a : Animal) (s : State) :
  (JsMap.size (animals (world s)) < maxPopulation (world s))%Z ->
  heap s !! animal = Some (OAnimal a) ->
  addAnimal animal s =
  Some (true,
        set_world s
          (mkWorld (width (world s)) (height (world s)) (grid (world s))
             (JsMap.set (id a) animal (animals (world s)))
             (maxPopulation (world s))
             (pressure_of
                (JsMap.size (JsMap.set (id a) animal (animals (world s))))
                (maxPopulation (world s))))).
Proof.
  intros H Ha. unfold addAnimal. msimpl.
  destruct (Z.geb_spec (JsMap.size (animals (world s))) (maxPopulation (world s)));
    [lia|].
  unfold read_animal, read. msimpl. rewrite Ha. reflexivity.
Qed.

Lemma World_new_fields (w h : Z) tape p :
  let world := fst (World_new w h tape p) in
  width world = w /\ height world = h /\ animals world = JsMap.empty /\
  maxPopulation world = Math_floor (inject_Z (w * h) * (3 # 10)) /\
  populationPressure world = 0%Z.
Proof.
  unfold World_new, Rand.bind.
  destruct (pushTimes (Z.to_nat h) (pushTimes (Z.to_nat w) seedTile) tape p).
  simpl. tauto.
Qed.

(** Animals with ids that are new to the registry and distinct from one
    another all enter a world that has room for them. *)
Lemma addAnimals_room (locs : list loc) : forall (ids : list string) (s : State),
  Forall2 (fun l i => id_at (heap s) l = Some i) locs ids ->
  NoDup ids ->
  (forall i, In i ids -> JsMap.get i (animals (world s)) = None) ->
  (JsMap.size (animals (world s)) + Z.of_nat (length locs)
   <= maxPopulation (world s))%Z ->
  exists s',
    addAnimals locs s = Some (repeat true (length locs), s') /\
    heap s' = heap s /\
    maxPopulation (world s') = maxPopulation (world s) /\
    JsMap.size (animals (world s')) =
    (JsMap.size (animals (world s)) + Z.of_nat (length locs))%Z.
Proof.
  induction locs as [|l locs IH]; intros ids s Hids Hnd Hnew Hroom.
  - exists s. simpl. msimpl. repeat split. lia.
  - apply Forall2_cons_inv_l in Hids as (i & ids' & Hi & Hids & ->).
    apply NoDup_cons in Hnd as [Hi' Hnd]. rewrite list_elem_of_In in Hi'.
    unfold id_at in Hi.
    destruct (heap s !! l) as [[a| | |]|] eqn:El; try discriminate.
    injection Hi as <-.
    simpl length in Hroom.
    assert (Hlt : (JsMap.size (animals (world s)) < maxPopulation (world s))%Z) by lia.
    pose proof (addAnimal_room l a s Hlt El) as Hadd.
    set (s1 := set_world s _) in Hadd.
    assert (Hsize1 : JsMap.size (animals (world s1)) =
                     (JsMap.size (animals (world s)) + 1)%Z).
    { subst s1. simpl. apply size_set_absent. apply Hnew. now left. }
    destruct (IH ids' s1) as (s' & Hrun & Hheap & Hmax & Hsize).
    + exact Hids.
    + exact Hnd.
    + intros i Hin. subst s1. simpl. rewrite get_set_ne.
      * apply Hnew. now right.
      * intros E. apply Hi'. now rewrite E.
    + rewrite Hsize1. subst s1. simpl. simpl in Hroom. lia.
    + exists s'. simpl. unfold bind at 1. rewrite Hadd.
      unfold bind at 1. rewrite Hrun. msimpl. repeat split.
      * exact Hheap.
      * exact Hmax.
      * rewrite Hsize, Hsize1. lia.
Qed.

(** C7. [addAnimal] on a registry that holds [maxPopulation] animals or
    more returns false and leaves the registry as it is; below capacity
    it stores the animal under its id, returns true and sets
    [populationPressure] to [min(10, floor(size/maxPopulation*10))] for
    the new size.  A 10 by 10 world has [maxPopulation = 30]: after 30
    animals with distinct ids have been added, each call returning true,
    one more call returns false. *)
Theorem addAnimal_contract :
  (forall (s : State) (animal : loc),
      (JsMap.size (animals (world s)) >= maxPopulation (world s))%Z ->
      exists s',
        addAnimal animal s = Some (false, s') /\
        animals (world s') = animals (world s) /\
        JsMap.size (animals (world s')) = JsMap.size (animals (world s)) /\
        heap s' = heap s) /\
  (forall (s : State) (animal : loc) (a : Animal),
      (JsMap.size (animals (world s)) < maxPopulation (world s))%Z ->
      heap s !! animal = Some (OAnimal a) ->
      exists s',
        addAnimal animal s = Some (true, s') /\
        animals (world s') = JsMap.set (id a) animal (animals (world s)) /\
        JsMap.get (id a) (animals (world s')) = Some animal /\
        populationPressure (world s') =
        Z.min 10
          (Math_floor
             (inject_Z (JsMap.size (animals (world s')))
              / inject_Z (maxPopulation (world s')) * 10))) /\
  (forall (s : State) tape p (locs : list loc) (ids : list string) (extra : loc),
      world s = fst (World_new 10 10 tape p) ->
      length locs = 30%nat ->
      Forall2 (fun l i => id_at (heap s) l = Some i) locs ids ->
      NoDup ids ->
      maxPopulation (world s) = 30%Z /\
      exists s' s'',
        addAnimals locs s = Some (repeat true 30, s') /\
        addAnimal extra s' = Some (false, s'') /\
        JsMap.size (animals (world s'')) = 30%Z).
Proof.
  split; [|split].
  - intros s animal H. eexists. split; [apply (addAnimal_full _ _ H)|].
    destruct (populationPressure (world s) <? 5)%Z; simpl; auto.
  - intros s animal a H Ha. eexists. split; [apply (addAnimal_room _ _ _ H Ha)|].
    simpl. split; [reflexivity|]. split; [apply get_set_eq | reflexivity].
  - intros s tape p locs ids extra Hw Hlen Hids Hnd.
    destruct (World_new_fields 10 10 tape p) as (_ & _ & Han & Hmax & _).
    rewrite <- Hw in Han, Hmax.
    assert (Hmax' : maxPopulation (world s) = 30%Z) by (rewrite Hmax; reflexivity).
    split; [exact Hmax'|].
    destruct (addAnimals_room locs ids s Hids Hnd) as (s' & Hrun & Hheap & Hm & Hsize).
    + intros i _. now rewrite Han.
    + rewrite Han, Hmax', Hlen. unfold JsMap.size. simpl. lia.
    + rewrite Hlen in Hrun. rewrite Han, Hlen in Hsize.
      change (JsMap.size JsMap.empty + Z.of_nat 30)%Z with 30%Z in Hsize.
      assert (Hfull : (JsMap.size (animals (world s')) >= maxPopulation (world s'))%Z).
      { rewrite Hsize, Hm, Hmax'. simpl. lia. }
      exists s'. eexists. split; [exact Hrun|].
      split; [apply (addAnimal_full _ _ Hfull)|].
      destruct (populationPressure (world s') <? 5)%Z; simpl; rewrite Hsize; reflexivity.
Qed.

Lemma removeAnimal_run (i : string) (s : State) :
  removeAnimal i s =
  Some (tt, set_world s (set_animals (world s) (JsMap.delete i (animals (world s))))).
Proof. reflexivity. Qed.

(** C10. [removeAnimal] deletes the id from the registry and leaves
    [populationPressure] (and [maxPopulation]) as they are; a successful
    [addAnimal] is what sets the pressure to [min(10,
    floor(size/maxPopulation*10))], a refused one only adds 1 to a
    pressure below 5.  So after a removal the pressure can
    be strictly greater than that formula gives for the current size: in
    the 2 by 2 world, filled by one successful [addAnimal], the pressure
    is 10 and stays 10 when the animal is removed, while the formula
    gives 0 for the empty registry. *)
Theorem removeAnimal_keeps_pressure :
  (forall (s : State) (i : string),
      exists s',
        removeAnimal i s = Some (tt, s') /\
        animals (world s') = JsMap.delete i (animals (world s)) /\
        populationPressure (world s') = populationPressure (world s) /\
        maxPopulation (world s') = maxPopulation (world s)) /\
  (forall (s : State) (animal : loc) (a : Animal),
      (JsMap.size (animals (world s)) < maxPopulation (world s))%Z ->
      heap s !! animal = Some (OAnimal a) ->
      exists s',
        addAnimal animal s = Some (true, s') /\
        populationPressure (world s') =
        pressure_of (JsMap.size (animals (world s'))) (maxPopulation (world s'))) /\
  (forall (s : State) (animal : loc),
      (JsMap.size (animals (world s)) >= maxPopulation (world s))%Z ->
      exists s',
        addAnimal animal s = Some (false, s') /\
        populationPressure (world s') =
        (if (populationPressure (world s) <? 5)%Z
         then populationPressure (world s) + 1
         else populationPressure (world s))%Z) /\
  (exists (s0 s1 s2 : State) (animal : loc),
      maxPopulation (world s0) = Math_floor (inject_Z (2 * 2) * (3 # 10)) /\
      animals (world s0) = JsMap.empty /\
      addAnimal animal s0 = Some (true, s1) /\
      removeAnimal "a" s1 = Some (tt, s2) /\
      animals (world s2) = JsMap.empty /\
      (populationPressure (world s2) >
       pressure_of (JsMap.size (animals (world s2))) (maxPopulation (world s2)))%Z).
Proof.
  split; [|split; [|split]].
  - intros s i. eexists. split; [apply removeAnimal_run|]. simpl. auto.
  - intros s animal a H Ha. eexists. split; [apply (addAnimal_room _ _ _ H Ha)|].
    reflexivity.
  - intros s animal H. eexists. split; [apply (addAnimal_full _ _ H)|].
    now destruct (populationPressure (world s) <? 5)%Z.
  - exists (set_world crowded_state
              (set_populationPressure (set_animals (world crowded_state) JsMap.empty) 0)).
    exists crowded_state.
    exists (set_world crowded_state (set_animals (world crowded_state) JsMap.empty)).
    exists 0%nat.
    repeat split.
Qed.

(** ** Lemmas on the heap *)

Lemma bind_run {A B} (c : M A) (k : A -> M B) (s s' : State) (v : A) :
  c s = Some (v, s') -> bind c k s = k v s'.
Proof. intros H. unfold bind. now rewrite H. Qed.

Lemma alloc_run (o : Obj) (s : State) :
  alloc o s = Some (length (heap s), set_heap s (heap s ++ [o])).
Proof. reflexivity. Qed.

Lemma lookup_alloc_old (h : list Obj) (o o' : Obj) (l : loc) :
  h !! l = Some o -> (h ++ [o']) !! l = Some o.
Proof. intros H. now apply lookup_app_l_Some. Qed.

Lemma lookup_alloc_new (h : list Obj) (o : Obj) :
  (h ++ [o]) !! length h = Some o.
Proof. rewrite lookup_app_r by lia. now rewrite Nat.sub_diag. Qed.

Lemma lookup_write_same (h : list Obj) (o o' : Obj) (l : loc) :
  h !! l = Some o -> <[l := o']> h !! l = Some o'.
Proof. intros H. apply list_lookup_insert_eq. now apply lookup_lt_Some in H. Qed.

Lemma lookup_write_other (h : list Obj) (o' : Obj) (l l' : loc) :
  l <> l' -> <[l := o']> h !! l' = h !! l'.
Proof. intros H. now apply list_lookup_insert_ne. Qed.

Lemma read_animal_run (s : State) (l : loc) (a : Animal) :
  heap s !! l = Some (OAnimal a) -> read_animal l s = Some (a, s).
Proof. intros H. unfold read_animal, read, bind. now rewrite H. Qed.

Lemma read_stats_run (s : State) (l : loc) (st : AnimalStats) :
  heap s !! l = Some (OStats st) -> read_stats l s = Some (st, s).
Proof. intros H. unfold read_stats, read, bind. now rewrite H. Qed.

Lemma read_dna_run (s : State) (l : loc) (d : DNA.t) :
  heap s !! l = Some (ODNA d) -> read_dna l s = Some (d, s).
Proof. intros H. unfold read_dna, read, bind. now rewrite H. Qed.

Lemma read_position_run (s : State) (l : loc) (p : Position) :
  heap s !! l = Some (OPosition p) -> read_position l s = Some (p, s).
Proof. intros H. unfold read_position, read, bind. now rewrite H. Qed.

Lemma write_run (s : State) (l : loc) (o o' : Obj) :
  heap s !! l = Some o ->
  write l o' s = Some (tt, set_heap s (<[l := o']> (heap s))).
Proof. intros H. unfold write. now rewrite H. Qed.

Lemma this_stats_run s this a d p st :
  owns s this a d p st -> this_stats this s = Some (st, s).
Proof.
  intros [Ha _ _ Hst]. unfold this_stats, bind.
  now rewrite (read_animal_run _ _ _ Ha), (read_stats_run _ _ _ Hst).
Qed.

Lemma this_dna_run s this a d p st :
  owns s this a d p st -> this_dna this s = Some (d, s).
Proof.
  intros [Ha Hd _ _]. unfold this_dna, bind.
  now rewrite (read_animal_run _ _ _ Ha), (read_dna_run _ _ _ Hd).
Qed.

Lemma this_position_run s this a d p st :
  owns s this a d p st -> this_position this s = Some (p, s).
Proof.
  intros [Ha _ Hp _]. unfold this_position, bind.
  now rewrite (read_animal_run _ _ _ Ha), (read_position_run _ _ _ Hp).
Qed.

Lemma update_stats_run s this a d p st f :
  owns s this a d p st ->
  update_stats this f s =
  Some (tt, set_heap s (<[stats a := OStats (f st)]> (heap s))).
Proof.
  intros [Ha _ _ Hst]. unfold update_stats, assign_stats, bind.
  rewrite (read_animal_run _ _ _ Ha), (read_stats_run _ _ _ Hst).
  now rewrite (write_run _ _ _ _ Hst).
Qed.

(** Assigning to a field of the stats of [this] keeps what it owns, with
    the new stats. *)
Lemma owns_update_stats s this a d p st st' :
  owns s this a d p st ->
  owns (set_heap s (<[stats a := OStats st']> (heap s))) this a d p st'.
Proof.
  intros [Ha Hd Hp Hst]. split; simpl.
  - rewrite lookup_write_other; [exact Ha | congruence].
  - rewrite lookup_write_other; [exact Hd | congruence].
  - rewrite lookup_write_other; [exact Hp | congruence].
  - now apply (lookup_write_same _ (OStats st)).
Qed.

(** An allocation keeps what every animal owns. *)
Lemma owns_alloc s this a d p st o :
  owns s this a d p st -> owns (set_heap s (heap s ++ [o])) this a d p st.
Proof.
  intros [Ha Hd Hp Hst]. split; simpl; now apply lookup_alloc_old.
Qed.

Lemma setPosition_run s this a l :
  heap s !! this = Some (OAnimal a) ->
  setPosition this l s =
  Some (tt, set_heap s (<[this := OAnimal (set_position a l)]> (heap s))).
Proof.
  intros Ha. unfold setPosition.
  rewrite (bind_run _ _ _ _ _ (read_animal_run _ _ _ Ha)).
  now rewrite (write_run _ _ _ _ Ha).
Qed.

(** [this.position = ref], for a reference to a position object. *)
Lemma owns_setPosition s this a d p st l p' :
  owns s this a d p st ->
  heap s !! l = Some (OPosition p') ->
  owns (set_heap s (<[this := OAnimal (set_position a l)]> (heap s)))
    this (set_position a l) d p' st.
Proof.
  intros [Ha Hd Hp Hst] Hl. split; simpl.
  - now apply (lookup_write_same _ (OAnimal a)).
  - rewrite lookup_write_other; [exact Hd | congruence].
  - rewrite lookup_write_other; [exact Hl | congruence].
  - rewrite lookup_write_other; [exact Hst | congruence].
Qed.

Lemma owns_set_world s this a d p st w :
  owns s this a d p st -> owns (set_world s w) this a d p st.
Proof. intros [Ha Hd Hp Hst]. now split. Qed.

Lemma owns_set_random_pos s this a d p st n :
  owns s this a d p st -> owns (set_random_pos s n) this a d p st.
Proof. intros [Ha Hd Hp Hst]. now split. Qed.

Lemma owns_stats_of s this a d p st :
  owns s this a d p st -> stats_of s this = Some st.
Proof. intros [Ha _ _ Hst]. unfold stats_of. now rewrite Ha, Hst. Qed.

Lemma owns_position_of s this a d p st :
  owns s this a d p st -> position_of s this = Some p.
Proof. intros [Ha _ Hp _]. unfold position_of. now rewrite Ha, Hp. Qed.

Lemma owns_dna_of s this a d p st :
  owns s this a d p st -> dna_of s this = Some d.
Proof. intros [Ha Hd _ _]. unfold dna_of. now rewrite Ha, Hd. Qed.

(** ** Movement *)

Lemma position_valid_iff w p :
  position_valid w p = true <->
  (0 <= x p < width w)%Z /\ (0 <= y p < height w)%Z.
Proof.
  unfold position_valid. rewrite !andb_true_iff.
  rewrite !Z.leb_le, !Z.ltb_lt. tauto.
Qed.

(** C9. For an animal whose position lies in the grid, [move(direction)]
    puts it one step further in that direction, clamped to the grid (so
    at an edge it stays where it is), and takes exactly 1 from its
    energy, whether or not the position changed; nothing else of the
    animal and nothing of the world changes. *)
Theorem move_contract (s : State) (this : loc) (a : Animal) (d : DNA.t)
    (p : Position) (st : AnimalStats) (direction : Direction) :
  owns s this a d p st ->
  position_valid (world s) p = true ->
  exists s',
    move this direction s = Some (tt, s') /\
    position_of s' this = Some (clamp_to_grid (world s) (step direction p)) /\
    position_valid (world s) (clamp_to_grid (world s) (step direction p)) = true /\
    stats_of s' this = Some (mkStats (health st) (energy st - 1) (age st) (hunger st)) /\
    dna_of s' this = Some d /\
    world s' = world s.
Proof.
  intros Ho Hvalid.
  set (newPosition :=
         match direction with
         | north => mkPosition (x p) (Z.max 0 (y p - 1))
         | east => mkPosition (Z.min (width (world s) - 1) (x p + 1)) (y p)
         | south => mkPosition (x p) (Z.min (height (world s) - 1) (y p + 1))
         | west => mkPosition (Z.max 0 (x p - 1)) (y p)
         end).
  apply position_valid_iff in Hvalid as [Hx Hy].
  assert (Hnew : newPosition = clamp_to_grid (world s) (step direction p)).
  { subst newPosition. unfold clamp_to_grid, clampZ.
    destruct direction; simpl; f_equal; lia. }
  assert (Hnewvalid : position_valid (world s) newPosition = true).
  { apply position_valid_iff. subst newPosition.
    destruct direction; simpl; lia. }
  pose proof (owns_alloc _ _ _ _ _ _ (OPosition newPosition) Ho) as Ho1.
  set (s1 := set_heap s (heap s ++ [OPosition newPosition])) in *.
  assert (Hnewloc : heap s1 !! length (heap s) = Some (OPosition newPosition))
    by apply lookup_alloc_new.
  pose proof (owns_setPosition _ _ _ _ _ _ _ _ Ho1 Hnewloc) as Ho2.
  set (s2 := set_heap s1 _) in Ho2.
  pose proof (owns_update_stats _ _ _ _ _ _
                (set_energy st (energy st - 1)) Ho2) as Ho3.
  set (s3 := set_heap s2 _) in Ho3.
  exists (set_random_pos s3 (S (random_pos s3))).
  split.
  - unfold move.
    rewrite (bind_run _ _ _ _ _ (this_position_run _ _ _ _ _ _ Ho)).
    rewrite (bind_run _ _ s s (world s)) by reflexivity.
    fold newPosition. rewrite (bind_run _ _ _ _ _ (alloc_run _ _)).
    rewrite (bind_run _ _ s1 s1 true)
      by (unfold isPositionValid; msimpl; now rewrite Hnewvalid).
    unfold when.
    rewrite (bind_run _ _ _ _ _ (setPosition_run _ _ _ _ (owns_animal _ _ _ _ _ _ Ho1))).
    rewrite (bind_run _ _ _ _ _ (update_stats_run _ _ _ _ _ _ _ Ho2)).
    reflexivity.
  - apply (owns_set_random_pos _ _ _ _ _ _ (S (random_pos s3))) in Ho3.
    rewrite (owns_position_of _ _ _ _ _ _ Ho3), (owns_stats_of _ _ _ _ _ _ Ho3),
      (owns_dna_of _ _ _ _ _ _ Ho3), <- Hnew, Hnewvalid.
    repeat split.
Qed.

(** ** Attack *)

Lemma getDNA_run s this a :
  heap s !! this = Some (OAnimal a) -> getDNA this s = Some (dna a, s).
Proof.
  intros Ha. unfold getDNA.
  now rewrite (bind_run _ _ _ _ _ (read_animal_run _ _ _ Ha)).
Qed.

Lemma die_run s this a :
  heap s !! this = Some (OAnimal a) ->
  die this s =
  Some (tt, set_world s (set_animals (world s)
                           (JsMap.delete (id a) (animals (world s))))).
Proof.
  intros Ha. unfold die.
  now rewrite (bind_run _ _ _ _ _ (read_animal_run _ _ _ Ha)).
Qed.

Lemma floor_draw_bounds (u : Q) (n : Z) :
  (0 < n)%Z -> 0 <= u -> u < 1 ->
  (0 <= Math_floor (u * inject_Z n) < n)%Z.
Proof.
  intros Hn H0 H1. unfold Math_floor. split.
  - change 0%Z with (Qfloor 0). apply Qfloor_resp_le.
    apply Qmult_le_0_compat; [exact H0|].
    change 0 with (inject_Z 0). rewrite <- Zle_Qle. lia.
  - assert (H : inject_Z (Qfloor (u * inject_Z n)) < inject_Z n).
    { apply Qle_lt_trans with (u * inject_Z n); [apply Qfloor_le|].
      assert (0 < inject_Z n) by (change 0 with (inject_Z 0); rewrite <- Zlt_Qlt; lia).
      nra. }
    now rewrite <- Zlt_Qlt in H.
Qed.

(** C6. An attacker with at least 20 energy pays 15 energy on every
    call.  The call succeeds when the next draw is below the success
    chance: then the attacker gains [30 + floor(20 u)] energy for a
    further draw [u] (an amount in [[30, 50)]), capped at 100, its hunger
    drops by 40, floored at 0, the target leaves the registry and the
    result is true.  Otherwise the result is false and nothing else of
    the animals or of the world changes.  In both cases the stats object
    of the attacker is the only object of the heap that changes. *)
Theorem attack_contract (s : State) (this target : loc)
    (a ta : Animal) (d td : DNA.t) (p tp : Position) (st tst : AnimalStats) :
  owns s this a d p st ->
  owns s target ta td tp tst ->
  20 <= energy st ->
  let r := random_tape s (random_pos s) in
  let u := random_tape s (S (random_pos s)) in
  let gain := 30 + inject_Z (Math_floor (u * 20)) in
  let paid := energy st - 15 in
  exists s',
    attack this target s = Some (Qltb r (attack_chance d td), s') /\
    (if Qltb r (attack_chance d td) then
       stats_of s' this =
       Some (mkStats (health st) (Qmin 100 (paid + gain)) (age st)
               (Qmax 0 (hunger st - 40))) /\
       animals (world s') = JsMap.delete (id ta) (animals (world s)) /\
       (JsMap.wf (animals (world s)) ->
        JsMap.get (id ta) (animals (world s')) = None)
     else
       stats_of s' this =
       Some (mkStats (health st) paid (age st) (hunger st)) /\
       world s' = world s) /\
    (forall (l : loc) o, l <> stats a -> heap s !! l = Some o -> heap s' !! l = Some o) /\
    length (heap s') = length (heap s) /\
    (0 <= u -> u < 1 -> 30 <= gain /\ gain < 50).
Proof.
  intros Ho Hto Henergy r u gain paid.
  assert (Hrich : Qltb (energy st) 20 = false) by now apply Qltb_ge.
  pose proof (owns_update_stats _ _ _ _ _ _ (set_energy st paid) Ho) as Ho1.
  set (s1 := set_heap s _) in Ho1.
  assert (Hta1 : heap s1 !! target = Some (OAnimal ta)).
  { subst s1. simpl. rewrite lookup_write_other; [apply Hto|].
    destruct Ho, Hto. congruence. }
  set (s2 := set_random_pos s1 (S (random_pos s))).
  assert (Hrun : attack this target s =
                 (if Qltb r (attack_chance d td) then
                    r' <- Math_random ;;
                    update_stats this (fun st =>
                      set_energy st (Math_min 100 (energy st + (30 + inject_Z (Math_floor (r' * 20)))))) ;;
                    update_stats this (fun st => set_hunger st (Math_max 0 (hunger st - 40))) ;;
                    die target ;;
                    ret true
                  else _ <- Math_random ;; ret false) s2).
  { unfold attack.
    rewrite (bind_run _ _ _ _ _ (this_stats_run _ _ _ _ _ _ Ho)), Hrich.
    rewrite (bind_run _ _ _ _ _ (this_dna_run _ _ _ _ _ _ Ho)).
    rewrite (bind_run _ _ _ _ _ (getDNA_run _ _ _ (owns_animal _ _ _ _ _ _ Hto))).
    rewrite (bind_run _ _ _ _ _ (read_dna_run _ _ _ (owns_dna _ _ _ _ _ _ Hto))).
    rewrite (bind_run _ _ _ _ _ (update_stats_run _ _ _ _ _ _ _ Ho)).
    fold paid. fold s1.
    rewrite (bind_run _ _ s1 s2 r) by reflexivity.
    reflexivity. }
  rewrite Hrun. clear Hrun.
  assert (Hgain : 0 <= u -> u < 1 -> 30 <= gain /\ gain < 50).
  { intros H0 H1. subst gain.
    destruct (floor_draw_bounds u 20 ltac:(lia) H0 H1) as [Hlo Hhi].
    change (inject_Z 20) with 20 in *.
    rewrite Zle_Qle in Hlo. rewrite Zlt_Qlt in Hhi.
    change (inject_Z 0) with 0 in Hlo. change (inject_Z 20) with 20 in Hhi.
    split; lra. }
  destruct (Qltb r (attack_chance d td)) eqn:Ehit.
  - apply (owns_set_random_pos _ _ _ _ _ _ (S (S (random_pos s)))) in Ho1.
    pose proof (owns_update_stats _ _ _ _ _ _
                  (set_energy (set_energy st paid) (Math_min 100 (paid + gain))) Ho1)
      as Ho3.
    set (s3 := set_heap _ _) in Ho3.
    pose proof (owns_update_stats _ _ _ _ _ _
                  (set_hunger (set_energy (set_energy st paid) (Math_min 100 (paid + gain)))
                     (Math_max 0 (hunger st - 40))) Ho3) as Ho4.
    set (s4 := set_heap _ _) in Ho4.
    assert (Hta4 : heap s4 !! target = Some (OAnimal ta)).
    { subst s4 s3. simpl. destruct Ho, Hto.
      rewrite !lookup_write_other by congruence. assumption. }
    eexists. split.
    + rewrite (bind_run _ _ s2 (set_random_pos s1 (S (S (random_pos s)))) u)
        by reflexivity.
      rewrite (bind_run _ _ _ _ _ (update_stats_run _ _ _ _ _ _ _ Ho1)).
      fold s3.
      rewrite (bind_run _ _ _ _ _ (update_stats_run _ _ _ _ _ _ _ Ho3)).
      fold s4.
      rewrite (bind_run _ _ _ _ _ (die_run _ _ _ Hta4)).
      reflexivity.
    + refine (conj (conj _ (conj _ _)) (conj _ (conj _ Hgain))).
      * apply (owns_set_world _ _ _ _ _ _
                 (set_animals (world s4) (JsMap.delete (id ta) (animals (world s4)))))
          in Ho4.
        now rewrite (owns_stats_of _ _ _ _ _ _ Ho4).
      * reflexivity.
      * intros Hwf. simpl. now apply get_delete_eq.
      * intros l o Hl Hlo. simpl. rewrite !lookup_write_other by congruence.
        exact Hlo.
      * simpl. now rewrite !length_insert.
  - eexists. split; [reflexivity|].
    refine (conj (conj _ _) (conj _ (conj _ Hgain))).
    + apply (owns_stats_of _ _ a d p).
      do 2 apply owns_set_random_pos. exact Ho1.
    + reflexivity.
    + intros l o Hl Hlo. simpl. rewrite !lookup_write_other by congruence.
      exact Hlo.
    + simpl. now rewrite !length_insert.
Qed.

(** ** Reproduction *)

Lemma isAdult_run s this a d p st :
  owns s this a d p st -> isAdult this s = Some (adult d st, s).
Proof.
  intros Ho. unfold isAdult.
  rewrite (bind_run _ _ _ _ _ (this_dna_run _ _ _ _ _ _ Ho)).
  rewrite (bind_run _ _ _ _ _ (this_stats_run _ _ _ _ _ _ Ho)).
  reflexivity.
Qed.

Lemma getStats_run s this a d p st :
  owns s this a d p st ->
  getStats this s = Some (length (heap s), set_heap s (heap s ++ [OStats st])).
Proof.
  intros Ho. unfold getStats.
  now rewrite (bind_run _ _ _ _ _ (this_stats_run _ _ _ _ _ _ Ho)).
Qed.

Lemma getPosition_run s this a d p st :
  owns s this a d p st ->
  getPosition this s =
  Some (length (heap s), set_heap s (heap s ++ [OPosition p])).
Proof.
  intros Ho. unfold getPosition.
  now rewrite (bind_run _ _ _ _ _ (this_position_run _ _ _ _ _ _ Ho)).
Qed.

Lemma liftRand_run {A} (c : Rand A) (s : State) :
  liftRand c s =
  Some (fst (c (random_tape s) (random_pos s)),
        set_random_pos s (snd (c (random_tape s) (random_pos s)))).
Proof.
  unfold liftRand. now destruct (c (random_tape s) (random_pos s)).
Qed.

Lemma floor_half (n : Z) : Math_floor (inject_Z n / 2) = (n / 2)%Z.
Proof.
  unfold Math_floor. change 2 with (inject_Z 2). symmetry. apply Zdiv_Qdiv.
Qed.

(** The constructor, for a genome that is not empty: a new stats object
    and the new animal, which takes the [dna] and [position] objects it
    is given. *)
Lemma Animal_new_run (sp : Species) (dnaRef posRef : loc) (s : State)
    (d : DNA.t) :
  heap s !! dnaRef = Some (ODNA d) ->
  d <> [] ->
  Animal_new sp dnaRef posRef s =
  Some (S (length (heap s)),
        set_heap (set_uuid_pos s (S (uuid_pos s)))
          ((heap s ++ [OStats (mkStats 100 100 0 0)])
           ++ [OAnimal (mkAnimal (uuid_tape s (uuid_pos s)) dnaRef posRef
                          (length (heap s)) sp)])).
Proof.
  intros Hd Hne. unfold Animal_new.
  rewrite (bind_run _ _ s (set_uuid_pos s (S (uuid_pos s)))
             (uuid_tape s (uuid_pos s))) by reflexivity.
  rewrite (bind_run _ _ _ _ _ (alloc_run _ _)).
  rewrite (bind_run _ _ _ _ _ (alloc_run _ _)).
  simpl heap. rewrite length_app. simpl length. rewrite Nat.add_1_r.
  erewrite (bind_run (read_dna dnaRef))
    by (apply read_dna_run; simpl; apply lookup_alloc_old, lookup_alloc_old, Hd).
  destruct d as [|e d]; [contradiction|]. reflexivity.
Qed.

Lemma mutate_nonempty tape q (d : DNA.t) :
  DNA.wf d -> d <> [] -> fst (DNA.mutate d tape q) <> [].
Proof.
  intros Hwf Hne E.
  destruct (mutate_mutates tape q d Hwf) as [Hm _].
  apply mutates_length in Hm. rewrite E in Hm.
  destruct d; [contradiction | discriminate].
Qed.

Lemma combine_nonempty tape q (a b : DNA.t) :
  DNA.wf a -> DNA.wf b -> a <> [] ->
  fst (DNA.combine a b tape q) <> [] /\ DNA.wf (fst (DNA.combine a b tape q)).
Proof.
  intros Ha Hb Hne. split; [|now apply combine_wf].
  assert (Hlen : (length a <= length (fst (DNA.combine a b tape q)))%nat).
  { apply NoDup_keys_length; [apply Ha|].
    intros n Hn. apply combine_keys; auto. }
  intros E. rewrite E in Hlen.
  destruct a; [contradiction | simpl in Hlen; lia].
Qed.

Lemma createOffspring_run (this : loc) (a : Animal) (dnaRef posRef : loc)
    (s : State) (d : DNA.t) :
  heap s !! this = Some (OAnimal a) ->
  heap s !! dnaRef = Some (ODNA d) ->
  d <> [] ->
  createOffspring this dnaRef posRef s =
  Some (S (length (heap s)),
        set_heap (set_uuid_pos s (S (uuid_pos s)))
          ((heap s ++ [OStats (mkStats 100 100 0 0)])
           ++ [OAnimal (mkAnimal (uuid_tape s (uuid_pos s)) dnaRef posRef
                          (length (heap s)) (species a))])).
Proof.
  intros Ha Hd Hne. unfold createOffspring.
  rewrite (bind_run _ _ _ _ _ (read_animal_run _ _ _ Ha)).
  now apply (Animal_new_run _ _ _ _ d).
Qed.

Lemma preserved_refl l0 h : preserved_except l0 h h.
Proof. intros l o _ H. exact H. Qed.

Lemma preserved_alloc l0 h h' o :
  preserved_except l0 h h' -> preserved_except l0 h (h' ++ [o]).
Proof. intros H l o' Hl Hlo. apply lookup_alloc_old. now apply H. Qed.

Lemma preserved_write l0 h h' o :
  preserved_except l0 h h' -> preserved_except l0 h (<[l0 := o]> h').
Proof.
  intros H l o' Hl Hlo. rewrite lookup_write_other by congruence. now apply H.
Qed.

Lemma lookup_alloc_at (h : list Obj) (o : Obj) (l : loc) :
  l = length h -> (h ++ [o]) !! l = Some o.
Proof. intros ->. apply lookup_alloc_new. Qed.

Ltac reproduce_guards Ho Hpo Ead Ead' Een Een' :=
  unfold reproduce;
  rewrite (bind_run _ _ _ _ _ (isAdult_run _ _ _ _ _ _ Ho));
  rewrite ?Ead; cbv beta iota delta [negb];
  try (erewrite (bind_run (bind (isAdult _) _))
         by (rewrite (bind_run _ _ _ _ _ (isAdult_run _ _ _ _ _ _ Hpo));
             reflexivity);
       rewrite ?Ead'; cbv beta iota delta [negb];
       try (rewrite (bind_run _ _ _ _ _ (this_stats_run _ _ _ _ _ _ Ho));
            rewrite ?Een; cbv beta iota;
            try (erewrite (bind_run (bind (getStats _) _))
                   by (rewrite (bind_run _ _ _ _ _ (getStats_run _ _ _ _ _ _ Hpo));
                       erewrite (bind_run (read_stats _))
                         by (apply read_stats_run; simpl; apply lookup_alloc_new);
                       reflexivity);
                 rewrite ?Een'; cbv beta iota))).

Ltac reproduce_draw Ho1 s1 s d :=
  rewrite (bind_run _ _ s1 s1 (populationPressure (world s))) by reflexivity;
  rewrite (bind_run _ _ _ _ _ (this_dna_run _ _ _ _ _ _ Ho1));
  cbv zeta;
  rewrite (bind_run _ _ s1 (set_random_pos s1 (S (random_pos s)))
             (random_tape s (random_pos s))) by reflexivity;
  change (Math_max (1 # 10) _)
    with (reproduction_chance d (populationPressure (world s))).

Lemma owns_set_uuid_pos s this a d p st n :
  owns s this a d p st -> owns (set_uuid_pos s n) this a d p st.
Proof. intros [Ha Hd Hp Hst]. now split. Qed.

(** The successful branch of [reproduce]. *)
Lemma reproduce_success (s : State) (this partner : loc)
    (a a' : Animal) (d d' : DNA.t) (p p' : Position) (st st' : AnimalStats) :
  owns s this a d p st ->
  owns s partner a' d' p' st' ->
  DNA.wf d -> DNA.wf d' -> d <> [] ->
  adult d st = true -> adult d' st' = true ->
  Qltb (energy st) 50 = false -> Qltb (energy st') 50 = false ->
  Qltb (reproduction_chance d (populationPressure (world s)))
    (random_tape s (random_pos s)) = false ->
  let comb := DNA.combine d d' (random_tape s) (S (random_pos s)) in
  let mut := DNA.mutate (fst comb) (random_tape s) (snd comb) in
  let room := (JsMap.size (animals (world s)) <? maxPopulation (world s))%Z in
  exists s' off child,
    reproduce this partner s = Some ((if room then Some off else None), s') /\
    stats_of s' this =
    Some (mkStats (health st) (energy st - 30) (age st) (hunger st)) /\
    owns s' off child (fst mut) (midpoint p p') (mkStats 100 100 0 0) /\
    species child = species a /\
    id child = uuid_tape s (uuid_pos s) /\
    DNA.wf (fst mut) /\ fst mut <> [] /\
    heap s !! off = None /\
    preserved_except (stats a) (heap s) (heap s') /\
    animals (world s') =
    (if room then JsMap.set (id child) off (animals (world s))
     else animals (world s)) /\
    maxPopulation (world s') = maxPopulation (world s).
Proof.
  intros Ho Hpo Hwf Hwf' Hne Ead Ead' Een Een' Ehit comb0 mut0 room.
  subst comb0 mut0.
  reproduce_guards Ho Hpo Ead Ead' Een Een'.
  pose proof (owns_alloc _ _ _ _ _ _ (OStats st') Ho) as Ho1.
  pose proof (owns_alloc _ _ _ _ _ _ (OStats st') Hpo) as Hpo1.
  set (s1 := set_heap s (heap s ++ [OStats st'])) in *.
  reproduce_draw Ho1 s1 s d.
  rewrite Ehit.
  set (tape := random_tape s). set (pos := random_pos s).
  set (comb := DNA.combine d d' tape (S pos)).
  set (mut := DNA.mutate (fst comb) tape (snd comb)).
  apply (owns_set_random_pos _ _ _ _ _ _ (S pos)) in Ho1, Hpo1.
  set (s2 := set_random_pos s1 (S pos)) in *.
  rewrite (bind_run _ _ _ _ _ (this_dna_run _ _ _ _ _ _ Ho1)).
  rewrite (bind_run _ _ _ _ _ (getDNA_run _ _ _ (owns_animal _ _ _ _ _ _ Hpo1))).
  rewrite (bind_run _ _ _ _ _ (read_dna_run _ _ _ (owns_dna _ _ _ _ _ _ Hpo1))).
  rewrite (bind_run _ _ _ _ _ (liftRand_run _ _)).
  change (DNA.combine d d' (random_tape s2) (random_pos s2)) with comb.
  apply (owns_set_random_pos _ _ _ _ _ _ (snd comb)) in Ho1, Hpo1.
  set (s3 := set_random_pos s2 (snd comb)) in *.
  rewrite (bind_run _ _ _ _ _ (alloc_run _ _)).
  apply (owns_alloc _ _ _ _ _ _ (ODNA (fst comb))) in Ho1, Hpo1.
  set (s4 := set_heap s3 (heap s3 ++ [ODNA (fst comb)])) in *.
  rewrite (bind_run _ _ _ _ _ (liftRand_run _ _)).
  change (DNA.mutate (fst comb) (random_tape s4) (random_pos s4)) with mut.
  apply (owns_set_random_pos _ _ _ _ _ _ (snd mut)) in Ho1, Hpo1.
  set (s5 := set_random_pos s4 (snd mut)) in *.
  rewrite (bind_run _ _ _ _ _ (alloc_run _ _)).
  apply (owns_alloc _ _ _ _ _ _ (ODNA (fst mut))) in Ho1, Hpo1.
  assert (Hm : (heap s5 ++ [ODNA (fst mut)]) !! length (heap s5) = Some (ODNA (fst mut)))
    by apply lookup_alloc_new.
  set (Lm := length (heap s5)) in *.
  set (s6 := set_heap s5 (heap s5 ++ [ODNA (fst mut)])) in *.
  change (heap s5 ++ [ODNA (fst mut)]) with (heap s6) in Hm.
  rewrite (bind_run _ _ _ _ _ (this_position_run _ _ _ _ _ _ Ho1)).
  rewrite (bind_run _ _ _ _ _ (getPosition_run _ _ _ _ _ _ Hpo1)).
  apply (owns_alloc _ _ _ _ _ _ (OPosition p')) in Ho1, Hpo1.
  apply (lookup_alloc_old _ _ (OPosition p')) in Hm.
  erewrite (bind_run (read_position _))
    by (apply read_position_run; simpl; apply lookup_alloc_new).
  set (s7 := set_heap s6 (heap s6 ++ [OPosition p'])) in *.
  change (heap s6 ++ [OPosition p']) with (heap s7) in Hm.
  rewrite (bind_run _ _ _ _ _ (getPosition_run _ _ _ _ _ _ Hpo1)).
  apply (owns_alloc _ _ _ _ _ _ (OPosition p')) in Ho1, Hpo1.
  apply (lookup_alloc_old _ _ (OPosition p')) in Hm.
  erewrite (bind_run (read_position _))
    by (apply read_position_run; simpl; apply lookup_alloc_new).
  set (s8 := set_heap s7 (heap s7 ++ [OPosition p'])) in *.
  change (heap s7 ++ [OPosition p']) with (heap s8) in Hm.
  rewrite !floor_half. fold (midpoint p p').
  rewrite (bind_run _ _ _ _ _ (alloc_run _ _)).
  apply (owns_alloc _ _ _ _ _ _ (OPosition (midpoint p p'))) in Ho1, Hpo1.
  apply (lookup_alloc_old _ _ (OPosition (midpoint p p'))) in Hm.
  assert (Hc : (heap s8 ++ [OPosition (midpoint p p')]) !! length (heap s8)
               = Some (OPosition (midpoint p p')))
    by apply lookup_alloc_new.
  set (Lc := length (heap s8)) in *.
  set (s9 := set_heap s8 (heap s8 ++ [OPosition (midpoint p p')])) in *.
  change (heap s8 ++ [OPosition (midpoint p p')]) with (heap s9) in Hm, Hc.
  rewrite (bind_run _ _ _ _ _ (update_stats_run _ _ _ _ _ _ _ Ho1)).
  assert (Hm10 : <[stats a := OStats (set_energy st (energy st - 30))]> (heap s9)
                 !! Lm = Some (ODNA (fst mut))).
  { rewrite lookup_write_other; [exact Hm|]. intros E.
    pose proof (owns_stats _ _ _ _ _ _ Ho1) as Hs. rewrite E in Hs.
    pose proof (eq_trans (eq_sym Hs) Hm). discriminate. }
  assert (Hc10 : <[stats a := OStats (set_energy st (energy st - 30))]> (heap s9)
                 !! Lc = Some (OPosition (midpoint p p'))).
  { rewrite lookup_write_other; [exact Hc|]. intros E.
    pose proof (owns_stats _ _ _ _ _ _ Ho1) as Hs. rewrite E in Hs.
    pose proof (eq_trans (eq_sym Hs) Hc). discriminate. }
  apply (owns_update_stats _ _ _ _ _ _ (set_energy st (energy st - 30))) in Ho1.
  set (s10 := set_heap s9 _) in *.
  change (<[stats a := OStats (set_energy st (energy st - 30))]> (heap s9))
    with (heap s10) in Hm10, Hc10.
  assert (Hmne : DNA.wf (fst mut) /\ fst mut <> []).
  { destruct (combine_nonempty tape (S pos) d d' Hwf Hwf' Hne) as [Hcne Hcwf].
    split; [apply (mutate_mutates _ _ _ Hcwf) | now apply mutate_nonempty]. }
  destruct Hmne as [Hmwf Hmne].
  rewrite (bind_run _ _ _ _ _
             (createOffspring_run this a Lm Lc s10 _
                (owns_animal _ _ _ _ _ _ Ho1) Hm10 Hmne)).
  set (child := mkAnimal (uuid_tape s10 (uuid_pos s10)) Lm Lc (length (heap s10))
                  (species a)).
  set (fresh := mkStats 100 100 0 0).
  apply (owns_set_uuid_pos _ _ _ _ _ _ (S (uuid_pos s10))) in Ho1.
  apply (owns_alloc _ _ _ _ _ _ (OStats fresh)) in Ho1.
  apply (owns_alloc _ _ _ _ _ _ (OAnimal child)) in Ho1.
  simpl heap in Ho1.
  set (s11 := set_heap (set_uuid_pos s10 (S (uuid_pos s10)))
                ((heap s10 ++ [OStats fresh]) ++ [OAnimal child])) in *.
  set (off := S (length (heap s10))).
  assert (Hoff : owns s11 off child (fst mut) (midpoint p p') fresh).
  { split; simpl.
    - apply lookup_alloc_at. rewrite length_app. unfold off. simpl. lia.
    - apply lookup_alloc_old, lookup_alloc_old, Hm10.
    - apply lookup_alloc_old, lookup_alloc_old, Hc10.
    - apply lookup_alloc_old, lookup_alloc_new. }
  assert (Hnew : heap s !! off = None).
  { apply lookup_ge_None. subst off s10 s9 s8 s7 s6 s5 s4 s3 s2 s1. simpl.
    rewrite length_insert, !length_app. lia. }
  assert (Hframe : preserved_except (stats a) (heap s) (heap s11)).
  { subst s11 s10 s9 s8 s7 s6 s5 s4 s3 s2 s1. simpl.
    repeat first [apply preserved_alloc | apply preserved_write].
    apply preserved_refl. }
  destruct (Z.ltb_spec (JsMap.size (animals (world s))) (maxPopulation (world s)))
    as [Hroom|Hfull]; subst room.
  - assert (Hroom' : (JsMap.size (animals (world s11)) < maxPopulation (world s11))%Z)
      by exact Hroom.
    rewrite (bind_run _ _ _ _ _ (addAnimal_room off child s11 Hroom' (owns_animal _ _ _ _ _ _ Hoff))).
    eexists _, off, child. split; [reflexivity|].
    rewrite (owns_stats_of _ _ a d p (set_energy st (energy st - 30)))
      by now apply owns_set_world.
    repeat split; try assumption; try apply Hoff; apply Hmwf.
  - assert (Hfull' : (JsMap.size (animals (world s11)) >= maxPopulation (world s11))%Z)
      by (apply Z.le_ge; exact Hfull).
    rewrite (bind_run _ _ _ _ _ (addAnimal_full off s11 Hfull')).
    eexists _, off, child. split; [reflexivity|].
    destruct (populationPressure (world s11) <? 5)%Z.
    + rewrite (owns_stats_of _ _ a d p (set_energy st (energy st - 30)))
        by now apply owns_set_world.
      repeat split; try assumption; try apply Hoff; apply Hmwf.
    + rewrite (owns_stats_of _ _ a d p (set_energy st (energy st - 30)))
        by assumption.
      repeat split; try assumption; try apply Hoff; apply Hmwf.
Qed.

(** The branches of [reproduce] that return before the draw. *)
Lemma reproduce_denied (s : State) (this partner : loc)
    (a a' : Animal) (d d' : DNA.t) (p p' : Position) (st st' : AnimalStats) :
  owns s this a d p st ->
  owns s partner a' d' p' st' ->
  eligible d d' st st' = false ->
  exists s',
    reproduce this partner s = Some (None, s') /\
    (forall (l : loc) o, heap s !! l = Some o -> heap s' !! l = Some o) /\
    world s' = world s /\
    random_pos s' = random_pos s.
Proof.
  intros Ho Hpo Hel. unfold eligible in Hel.
  destruct (adult d st) eqn:Ead.
  2:{ exists s. split; [|auto]. reproduce_guards Ho Hpo Ead Ead Ead Ead. reflexivity. }
  destruct (adult d' st') eqn:Ead'.
  2:{ exists s. split; [|auto]. reproduce_guards Ho Hpo Ead Ead' Ead Ead. reflexivity. }
  destruct (Qltb (energy st) 50) eqn:Een.
  { exists s. split; [|auto]. reproduce_guards Ho Hpo Ead Ead' Een Een. reflexivity. }
  destruct (Qltb (energy st') 50) eqn:Een'; [|discriminate].
  exists (set_heap s (heap s ++ [OStats st'])). split.
  - reproduce_guards Ho Hpo Ead Ead' Een Een'. reflexivity.
  - repeat split. intros l o Hl. simpl. now apply lookup_alloc_old.
Qed.

(** The branch of [reproduce] in which the draw exceeds the chance. *)
Lemma reproduce_failure (s : State) (this partner : loc)
    (a a' : Animal) (d d' : DNA.t) (p p' : Position) (st st' : AnimalStats) :
  owns s this a d p st ->
  owns s partner a' d' p' st' ->
  eligible d d' st st' = true ->
  Qltb (reproduction_chance d (populationPressure (world s)))
    (random_tape s (random_pos s)) = true ->
  exists s',
    reproduce this partner s = Some (None, s') /\
    stats_of s' this =
    Some (mkStats (health st) (energy st - 10) (age st) (hunger st)) /\
    preserved_except (stats a) (heap s) (heap s') /\
    world s' = world s.
Proof.
  intros Ho Hpo Hel Emiss. unfold eligible in Hel.
  apply andb_true_iff in Hel as [Hel Een']. apply andb_true_iff in Hel as [Hel Een].
  apply andb_true_iff in Hel as [Ead Ead'].
  apply negb_true_iff in Een, Een'.
  pose proof (owns_alloc _ _ _ _ _ _ (OStats st') Ho) as Ho1.
  set (s1 := set_heap s (heap s ++ [OStats st'])) in *.
  pose proof (owns_set_random_pos _ _ _ _ _ _ (S (random_pos s)) Ho1) as Ho2.
  pose proof (owns_update_stats _ _ _ _ _ _ (set_energy st (energy st - 10)) Ho2)
    as Ho3.
  eexists. split.
  - reproduce_guards Ho Hpo Ead Ead' Een Een'. fold s1.
    reproduce_draw Ho1 s1 s d. rewrite Emiss.
    rewrite (bind_run _ _ _ _ _ (update_stats_run _ _ _ _ _ _ _ Ho2)).
    reflexivity.
  - rewrite (owns_stats_of _ _ _ _ _ _ Ho3). repeat split.
    subst s1. simpl. apply preserved_write, preserved_alloc, preserved_refl.
Qed.

(** C3. [reproduce(partner)]: when a participant is not adult or has
    less than 50 energy the result is none and no object of the heap
    changes, so nobody loses energy; when the draw exceeds the success
    chance the result is none and the caller's stats lose exactly 10
    energy; otherwise the caller's stats lose exactly 30 energy and an
    offspring is built whose genome is [mutate(combine(d, d'))], whose
    position is the floor of the midpoint of the parents' positions, and
    which is passed to [addAnimal]: with room in the world it is
    registered and returned, at capacity the registry stays as it is and
    the result is none, the 30 energy staying spent.  In every case the
    caller's stats object is the only earlier object that changes.  The
    parents' genomes are maps with distinct names and the caller's is
    not empty, as the constructors leave them; the offspring's genome is
    such a map again. *)
Theorem reproduce_contract (s : State) (this partner : loc)
    (a a' : Animal) (d d' : DNA.t) (p p' : Position) (st st' : AnimalStats) :
  owns s this a d p st ->
  owns s partner a' d' p' st' ->
  DNA.wf d -> DNA.wf d' -> d <> [] ->
  let r := random_tape s (random_pos s) in
  let chance := reproduction_chance d (populationPressure (world s)) in
  let combined := DNA.combine d d' (random_tape s) (S (random_pos s)) in
  let mutated := DNA.mutate (fst combined) (random_tape s) (snd combined) in
  let room := (JsMap.size (animals (world s)) <? maxPopulation (world s))%Z in
  exists s' result,
    reproduce this partner s = Some (result, s') /\
    preserved_except (stats a) (heap s) (heap s') /\
    if negb (eligible d d' st st') then
      result = None /\
      (forall (l : loc) o, heap s !! l = Some o -> heap s' !! l = Some o) /\
      world s' = world s
    else if Qltb chance r then
      result = None /\
      stats_of s' this =
      Some (mkStats (health st) (energy st - 10) (age st) (hunger st)) /\
      world s' = world s
    else
      stats_of s' this =
      Some (mkStats (health st) (energy st - 30) (age st) (hunger st)) /\
      exists off child,
        owns s' off child (fst mutated) (midpoint p p') (mkStats 100 100 0 0) /\
        species child = species a /\
        DNA.wf (fst mutated) /\ fst mutated <> [] /\
        heap s !! off = None /\
        if room then
          result = Some off /\
          animals (world s') = JsMap.set (id child) off (animals (world s))
        else
          result = None /\ animals (world s') = animals (world s).
Proof.
  intros Ho Hpo Hwf Hwf' Hne r chance combined mutated room.
  destruct (eligible d d' st st') eqn:Hel; simpl negb; cbv iota.
  - destruct (Qltb chance r) eqn:Ehit.
    + destruct (reproduce_failure _ _ _ _ _ _ _ _ _ _ _ Ho Hpo Hel Ehit)
        as (s' & Hrun & Hst & Hframe & Hw).
      exists s', None. auto.
    + pose proof Hel as Hel'. unfold eligible in Hel'.
      apply andb_true_iff in Hel' as [Hel' Een'].
      apply andb_true_iff in Hel' as [Hel' Een].
      apply andb_true_iff in Hel' as [Ead Ead'].
      apply negb_true_iff in Een, Een'.
      destruct (reproduce_success _ _ _ _ _ _ _ _ _ _ _ Ho Hpo Hwf Hwf' Hne
                  Ead Ead' Een Een' Ehit)
        as (s' & off & child & Hrun & Hst & Hoff & Hsp & Hid & Hmwf & Hmne & Hnew
            & Hframe & Hreg & _).
      exists s'. eexists. split; [exact Hrun|]. split; [exact Hframe|].
      split; [exact Hst|]. exists off, child.
      refine (conj Hoff (conj Hsp (conj Hmwf (conj Hmne (conj Hnew _))))).
      fold room in Hreg |- *. destruct room; auto.
  - destruct (reproduce_denied _ _ _ _ _ _ _ _ _ _ _ Ho Hpo Hel)
      as (s' & Hrun & Hframe & Hw & _).
    exists s', None. split; [exact Hrun|]. split; [|auto].
    intros l o _. apply Hframe.
Qed.

(** ** Disasters *)

Lemma stats_of_extends (s s' : State) (l : loc) (st : AnimalStats) :
  (forall (l : loc) o, heap s !! l = Some o -> heap s' !! l = Some o) ->
  stats_of s l = Some st -> stats_of s' l = Some st.
Proof.
  intros Hext. unfold stats_of.
  destruct (heap s !! l) as [[a| | |]|] eqn:Ea; try discriminate.
  destruct (heap s !! stats a) as [[| | |st0]|] eqn:Est; try discriminate.
  intros [= ->]. now rewrite (Hext _ _ Ea), (Hext _ _ Est).
Qed.

Lemma getStats_run' (s : State) (this : loc) (st : AnimalStats) :
  stats_of s this = Some st ->
  getStats this s = Some (length (heap s), set_heap s (heap s ++ [OStats st])).
Proof.
  unfold stats_of. intros H.
  destruct (heap s !! this) as [[a| | |]|] eqn:Ea; try discriminate.
  destruct (heap s !! stats a) as [[| | |st0]|] eqn:Est; try discriminate.
  injection H as ->. unfold getStats, this_stats.
  erewrite (bind_run (bind (read_animal this) _)).
  2:{ rewrite (bind_run _ _ _ _ _ (read_animal_run _ _ _ Ea)).
      apply (read_stats_run _ _ _ Est). }
  reflexivity.
Qed.

(** [stats = animal.getStats(); stats.f = ...]: the assignment goes to
    the copy, and every object that was there before stays as it was. *)
Lemma assign_to_copy (s : State) (this : loc) (st : AnimalStats)
    (f : AnimalStats -> AnimalStats) :
  stats_of s this = Some st ->
  exists s',
    (stats <- getStats this ;; assign_stats stats f) s = Some (tt, s') /\
    (forall (l : loc) o, heap s !! l = Some o -> heap s' !! l = Some o) /\
    heap s' !! length (heap s) = Some (OStats (f st)) /\
    world s' = world s /\ disaster s' = disaster s /\
    random_pos s' = random_pos s /\ random_tape s' = random_tape s.
Proof.
  intros Hst. eexists. split.
  - rewrite (bind_run _ _ _ _ _ (getStats_run' _ _ _ Hst)).
    unfold assign_stats.
    erewrite (bind_run (read_stats _))
      by (apply read_stats_run; simpl; apply lookup_alloc_new).
    eapply write_run. simpl. apply lookup_alloc_new.
  - simpl. repeat split.
    + intros l o Hl. rewrite lookup_write_other.
      * now apply lookup_alloc_old.
      * apply lookup_lt_Some in Hl. lia.
    + eapply lookup_write_same, lookup_alloc_new.
Qed.

Lemma injure_spares (chance damage : Q) (animals : list loc) : forall s : State,
  Forall (fun l => is_Some (stats_of s l)) animals ->
  exists s',
    injure animals chance damage s = Some (tt, s') /\
    (forall (l : loc) o, heap s !! l = Some o -> heap s' !! l = Some o) /\
    world s' = world s /\ disaster s' = disaster s.
Proof.
  induction animals as [|animal animals IH]; intros s Hall.
  - exists s. repeat split; auto.
  - apply Forall_cons in Hall as [[st Hst] Hall].
    assert (Hstep : exists s1,
      (r <- Math_random ;;
       when (Qltb r chance)
         (stats <- getStats animal ;;
          assign_stats stats (fun st => set_health st (health st - damage)) ;;
          _ <- Math_random ;;
          ret tt)) s = Some (tt, s1) /\
      (forall (l : loc) o, heap s !! l = Some o -> heap s1 !! l = Some o) /\
      world s1 = world s /\ disaster s1 = disaster s).
    { rewrite (bind_run _ _ s (set_random_pos s (S (random_pos s)))
                 (random_tape s (random_pos s))) by reflexivity.
      destruct (Qltb (random_tape s (random_pos s)) chance); unfold when.
      - destruct (assign_to_copy (set_random_pos s (S (random_pos s))) animal st
                    (fun st => set_health st (health st - damage)) Hst)
          as (s1 & Hrun & Hext & _ & Hw & Hd & _).
        unfold bind in Hrun.
        destruct (getStats animal (set_random_pos s (S (random_pos s))))
          as [[ref s0]|] eqn:Eg; [|discriminate].
        eexists. split.
        + unfold bind at 1. rewrite Eg. unfold bind at 1. rewrite Hrun.
          reflexivity.
        + simpl. auto.
      - eexists. split; [reflexivity|]. simpl. auto. }
    destruct Hstep as (s1 & Hrun1 & Hext1 & Hw1 & Hd1).
    destruct (IH s1) as (s' & Hrun & Hext & Hw & Hd).
    { eapply Forall_impl; [exact Hall|]. intros l [st0 H0].
      exists st0. eapply stats_of_extends; eauto. }
    exists s'. split.
    + unfold injure in *. simpl forEach.
      rewrite (bind_run _ _ _ _ _ Hrun1). exact Hrun.
    + repeat split; [auto | congruence | congruence].
Qed.

(** C2, as the code has it.  While the disaster is a disease, the
    per-tick effect draws for every registered animal and subtracts
    [floor(10 * intensity)] from the health of a copy of its stats, made
    by [getStats()]: every object of the heap, so the live stats of every
    animal, and the world are after the call what they were before. *)
Theorem disease_spares_live_stats (s : State) :
  disasterType (disaster s) = "disease"%string ->
  Forall (fun l => is_Some (stats_of s l)) (JsMap.values (animals (world s))) ->
  exists s',
    applyDisasterEffects s = Some (tt, s') /\
    (forall (l : loc) o, heap s !! l = Some o -> heap s' !! l = Some o) /\
    (forall (l : loc) st, stats_of s l = Some st -> stats_of s' l = Some st) /\
    world s' = world s.
Proof.
  intros Hkind Hall.
  destruct (injure_spares (disasterIntensity (disaster s) * (15 # 100))
              (inject_Z (Math_floor (10 * disasterIntensity (disaster s))))
              _ s Hall) as (s' & Hrun & Hext & Hw & _).
  exists s'. split.
  - unfold applyDisasterEffects, getAllAnimals, getDisaster.
    rewrite (bind_run _ _ s s (JsMap.values (animals (world s)))) by reflexivity.
    rewrite (bind_run _ _ s s (disaster s)) by reflexivity.
    cbv zeta. rewrite Hkind. exact Hrun.
  - split; [exact Hext|]. split; [|exact Hw].
    intros l st. now apply stats_of_extends.
Qed.

(** ** Accessors *)

Lemma owns_write_new (s s' : State) (this : loc) a d p st (o o' : Obj) :
  owns s this a d p st ->
  heap s' = <[length (heap s) := o']> (heap s ++ [o]) ->
  owns s' this a d p st.
Proof.
  intros [Ha Hd Hp Hst] Hh.
  split; rewrite Hh;
    (rewrite lookup_write_other;
     [now apply lookup_alloc_old
     | match goal with H : heap s !! ?l = Some _ |- _ <> ?l =>
         apply lookup_lt_Some in H; lia end]).
Qed.

Lemma addGene_at_run (s : State) (ref : loc) (d : DNA.t) (g : Gene) :
  heap s !! ref = Some (ODNA d) ->
  addGene_at ref g s =
  Some (tt, set_heap s (<[ref := ODNA (DNA.addGene g d)]> (heap s))).
Proof.
  intros Hd. unfold addGene_at.
  rewrite (bind_run _ _ _ _ _ (read_dna_run _ _ _ Hd)).
  now rewrite (write_run _ _ _ _ Hd).
Qed.

(** C8, as the code has it.  [getPosition()] and [getStats()] return a
    new object: whatever is written to it, the animal keeps its
    position, its stats and its genome.  [getDNA()] returns the
    animal's own [DNA] object: a gene added through the returned
    reference is a gene of the animal's genome. *)
Theorem accessors_contract (s : State) (this : loc) (a : Animal) (d : DNA.t)
    (p : Position) (st : AnimalStats) :
  owns s this a d p st ->
  (exists ref s1,
      getPosition this s = Some (ref, s1) /\
      heap s !! ref = None /\ heap s1 !! ref = Some (OPosition p) /\
      forall o, exists s2,
          write ref o s1 = Some (tt, s2) /\ owns s2 this a d p st) /\
  (exists ref s1,
      getStats this s = Some (ref, s1) /\
      heap s !! ref = None /\ heap s1 !! ref = Some (OStats st) /\
      forall o, exists s2,
          write ref o s1 = Some (tt, s2) /\ owns s2 this a d p st) /\
  (getDNA this s = Some (dna a, s) /\
   forall g, exists s2,
       addGene_at (dna a) g s = Some (tt, s2) /\
       dna_of s2 this = Some (DNA.addGene g d) /\
       DNA.getGene (name g) (DNA.addGene g d) = Some g).
Proof.
  intros Ho. split; [|split].
  - exists (length (heap s)), (set_heap s (heap s ++ [OPosition p])).
    split; [apply (getPosition_run _ _ _ _ _ _ Ho)|].
    split; [apply lookup_ge_None; lia|].
    split; [apply lookup_alloc_new|].
    intros o. eexists. split.
    + eapply write_run. simpl. apply lookup_alloc_new.
    + eapply owns_write_new; [exact Ho | reflexivity].
  - exists (length (heap s)), (set_heap s (heap s ++ [OStats st])).
    split; [apply (getStats_run _ _ _ _ _ _ Ho)|].
    split; [apply lookup_ge_None; lia|].
    split; [apply lookup_alloc_new|].
    intros o. eexists. split.
    + eapply write_run. simpl. apply lookup_alloc_new.
    + eapply owns_write_new; [exact Ho | reflexivity].
  - split; [apply getDNA_run, Ho|].
    intros g. eexists.
    split; [apply (addGene_at_run _ _ _ _ (owns_dna _ _ _ _ _ _ Ho))|].
    split; [|apply get_set_eq].
    destruct Ho as [Ha Hd Hp Hst]. unfold dna_of. simpl.
    rewrite lookup_write_other by congruence. rewrite Ha.
    now rewrite (lookup_write_same _ _ _ _ Hd).
Qed.

(** ** What the constructors establish *)

Lemma forEach_addGene_at (ref : loc) (genes : list Gene) :
  forall (s : State) (d : DNA.t),
    heap s !! ref = Some (ODNA d) ->
    exists s',
      forEach genes (addGene_at ref) s = Some (tt, s') /\
      heap s' !! ref =
      Some (ODNA (fold_left (fun acc g => DNA.addGene g acc) genes d)) /\
      forall (l : loc), l <> ref -> heap s' !! l = heap s !! l.
Proof.
  induction genes as [|g genes IH]; intros s d Hd.
  - exists s. repeat split. exact Hd.
  - destruct (IH (set_heap s (<[ref := ODNA (DNA.addGene g d)]> (heap s)))
                (DNA.addGene g d)) as (s' & Hrun & Href & Hother).
    { simpl. now apply (lookup_write_same _ (ODNA d)). }
    exists s'. split; [|split].
    + simpl forEach. rewrite (bind_run _ _ _ _ _ (addGene_at_run _ _ _ g Hd)).
      exact Hrun.
    + exact Href.
    + intros l Hl. rewrite (Hother l Hl). simpl.
      apply lookup_write_other. congruence.
Qed.

Lemma wf_fold_addGene (genes : list Gene) : forall d : DNA.t,
  DNA.wf d -> DNA.wf (fold_left (fun acc g => DNA.addGene g acc) genes d).
Proof.
  induction genes as [|g genes IH]; intros d Hd; simpl; [exact Hd|].
  apply IH. now apply wf_addGene.
Qed.

(** Every animal leaves its constructor with a well-formed genome that
    is not empty: the one it was given, or the standard genes of its
    species when that was empty. *)
Lemma Animal_new_genome (sp : Species) (dnaRef posRef : loc) (s : State)
    (d : DNA.t) :
  heap s !! dnaRef = Some (ODNA d) ->
  DNA.wf d ->
  exists this s' a d',
    Animal_new sp dnaRef posRef s = Some (this, s') /\
    heap s' !! this = Some (OAnimal a) /\
    dna a = dnaRef /\ position a = posRef /\ species a = sp /\
    heap s' !! dnaRef = Some (ODNA d') /\
    heap s' !! stats a = Some (OStats (mkStats 100 100 0 0)) /\
    DNA.wf d' /\ d' <> [] /\
    (d <> [] -> d' = d).
Proof.
  intros Hd Hwf.
  set (a := mkAnimal (uuid_tape s (uuid_pos s)) dnaRef posRef (length (heap s)) sp).
  set (s1 := set_heap (set_uuid_pos s (S (uuid_pos s)))
               ((heap s ++ [OStats (mkStats 100 100 0 0)]) ++ [OAnimal a])).
  assert (Hd1 : heap s1 !! dnaRef = Some (ODNA d))
    by (simpl; apply lookup_alloc_old, lookup_alloc_old, Hd).
  assert (Ha1 : heap s1 !! S (length (heap s)) = Some (OAnimal a)).
  { simpl. apply lookup_alloc_at. rewrite length_app. simpl. lia. }
  assert (Hs1 : heap s1 !! length (heap s) = Some (OStats (mkStats 100 100 0 0)))
    by (simpl; apply lookup_alloc_old, lookup_alloc_new).
  destruct d as [|e d].
  - destruct (forEach_addGene_at dnaRef
                (DNA.getAllGenes (DNA.createStandard (Some (species_overrides sp))))
                s1 [] Hd1) as (s' & Hrun & Href & Hother).
    exists (S (length (heap s))), s', a. eexists.
    split; [|split; [|split; [|split; [|split; [|split; [exact Href|]]]]]];
      try reflexivity.
    + unfold Animal_new.
      rewrite (bind_run _ _ s (set_uuid_pos s (S (uuid_pos s)))
                 (uuid_tape s (uuid_pos s))) by reflexivity.
      rewrite (bind_run _ _ _ _ _ (alloc_run _ _)).
      rewrite (bind_run _ _ _ _ _ (alloc_run _ _)).
      simpl heap. rewrite length_app. simpl length. rewrite Nat.add_1_r.
      fold a. fold s1.
      rewrite (bind_run _ _ _ _ _ (read_dna_run _ _ _ Hd1)).
      unfold when. simpl Nat.eqb. cbv iota zeta.
      rewrite (bind_run _ _ _ _ _ Hrun). reflexivity.
    + rewrite Hother; [exact Ha1|]. apply lookup_lt_Some in Hd. lia.
    + split.
      { rewrite Hother; [exact Hs1|]. apply lookup_lt_Some in Hd. simpl. lia. }
      split; [apply wf_fold_addGene, wf_new_None|].
      split; [destruct sp; discriminate | intros H; now contradiction H].
  - exists (S (length (heap s))), s1, a, (e :: d).
    split; [apply (Animal_new_run sp dnaRef posRef s (e :: d) Hd); discriminate|].
    repeat split; try assumption; try apply Hwf; discriminate.
Qed.


(** ** Bounds *)

(** C1, as the code has it.  The bounds of the data model do not survive
    every operation: [update()] followed by a [move] leaves an animal
    that had 0.5 energy with -1; the regrowth of [World.update()] takes
    a grass tile from 9.95 to 10.04; and [createStandard] with the
    override [size: 5] yields a gene of value 5, while the catalog
    declares 1 as the greatest value of [size]. *)
Theorem bounds_can_break :
  (exists s' st,
      Animal_update (fun this => move this north) 0%nat tired_state
      = Some (tt, s') /\
      stats_of s' 0%nat = Some st /\ energy st == - (1) /\ energy st < 0) /\
  (forall (act : loc -> M unit) (fuel : nat),
      exists s' tile,
        World_update act fuel lush_state = Some (tt, s') /\
        grid (world s') = [[tile]] /\ type tile = grass /\
        foodValue tile == 1004 # 100 /\ 10 < foodValue tile) /\
  (exists g,
      DNA.getGene "size" (DNA.createStandard (Some [("size"%string, 5)])) = Some g /\
      value g = 5 /\ 1 < value g) /\
  (exists gd,
      find (fun gd => String.eqb (gd_name gd) "size") DNA.STANDARD_GENES = Some gd /\
      maxValue gd = Some 1).
Proof.
  split; [|split; [|split]].
  - eexists _, _. split; [vm_compute; reflexivity|].
    split; [vm_compute; reflexivity|]. split; reflexivity.
  - intros act fuel. eexists _, _. split.
    + unfold World_update. destruct fuel; vm_compute; reflexivity.
    + repeat split.
  - eexists. repeat split.
  - eexists. split; reflexivity.
Qed.

(** ** The theorems at concrete inputs *)

Lemma owns_pair_a :
  owns pair_state 0%nat pair_a pair_dna (mkPosition 2%Z 3%Z) pair_stats.
Proof. split; reflexivity. Defined.

Lemma owns_pair_b :
  owns pair_state 4%nat pair_b pair_dna (mkPosition 3%Z 3%Z) pair_stats.
Proof. split; reflexivity. Defined.

Lemma mutate_contract_witness :
  DNA.wf pair_dna /\
  DNA.values_in_unit (fst (DNA.mutate pair_dna (fun _ => 1 # 20) 0%nat)) /\
  (exists g,
      DNA.getGene "speed" (fst (DNA.mutate pair_dna (fun _ => 1 # 20) 0%nat))
      = Some g /\ value g == 41 # 100).
Proof.
  split; [apply wf_createStandard|].
  destruct (mutate_contract (fun _ => 1 # 20) 0%nat pair_dna
              (wf_createStandard _)) as (_ & _ & _ & _ & Hunit).
  split.
  - apply Hunit. unfold DNA.values_in_unit.
    repeat constructor; simpl; discriminate.
  - eexists. split; [vm_compute; reflexivity | reflexivity].
Defined.

Lemma combine_contract_witness :
  DNA.wf pair_dna /\ DNA.wf (DNA.createStandard None) /\
  (exists g,
      DNA.getGene "reproductiveUrge"
        (fst (DNA.combine pair_dna (DNA.createStandard None) (fun _ => 9 # 10) 0%nat))
      = Some g /\ value g == 7 # 10) /\
  snd (DNA.combine pair_dna (DNA.createStandard None) (fun _ => 9 # 10) 0%nat)
  = 12%nat.
Proof.
  split; [apply wf_createStandard|]. split; [apply wf_createStandard|].
  destruct (combine_contract (fun _ => 9 # 10) 0%nat pair_dna (DNA.createStandard None)
              (wf_createStandard _) (wf_createStandard _))
    as (_ & _ & _ & _ & _ & Hboth & Hpos & _).
  split.
  - destruct (Hboth "reproductiveUrge"%string
                (mkGene "reproductiveUrge" (9 # 10) (1 # 10))
                (mkGene "reproductiveUrge" (5 # 10) (1 # 10))
                eq_refl eq_refl) as (i & _ & _ & Hg).
    eexists. split; [exact Hg|]. reflexivity.
  - rewrite Hpos. reflexivity.
Defined.

Lemma move_contract_witness :
  position_valid (world pair_state) (mkPosition 2%Z 3%Z) = true /\
  exists s',
    move 0%nat north pair_state = Some (tt, s') /\
    position_of s' 0%nat = Some (mkPosition 2%Z 2%Z) /\
    stats_of s' 0%nat = Some (mkStats 100 (80 - 1) 30 10).
Proof.
  split; [reflexivity|].
  destruct (move_contract pair_state 0%nat _ _ _ _ north owns_pair_a eq_refl)
    as (s' & Hrun & Hpos & _ & Hst & _).
  exists s'. auto.
Defined.

Lemma reproduce_contract_witness :
  DNA.wf pair_dna /\ pair_dna <> [] /\
  exists s' off child,
    reproduce 0%nat 4%nat pair_state = Some (Some off, s') /\
    stats_of s' 0%nat = Some (mkStats 100 (80 - 30) 30 10) /\
    heap s' !! off = Some (OAnimal child) /\
    position_of s' off = Some (mkPosition 2%Z 3%Z) /\
    JsMap.get (id child) (animals (world s')) = Some off.
Proof.
  split; [apply wf_createStandard|]. split; [discriminate|].
  destruct (reproduce_contract pair_state 0%nat 4%nat _ _ _ _ _ _ _ _
              owns_pair_a owns_pair_b (wf_createStandard _) (wf_createStandard _)
              ltac:(discriminate))
    as (s' & result & Hrun & _ & Hcase).
  assert (E1 : eligible pair_dna pair_dna pair_stats pair_stats = true)
    by reflexivity.
  assert (E2 : Qltb (reproduction_chance pair_dna (populationPressure (world pair_state)))
                 (random_tape pair_state (random_pos pair_state)) = false)
    by reflexivity.
  assert (E3 : (JsMap.size (animals (world pair_state))
                <? maxPopulation (world pair_state))%Z = true) by reflexivity.
  rewrite E1, E2, E3 in Hcase. simpl negb in Hcase. cbv iota in Hcase.
  destruct Hcase as (Hst & off & child & Hoff & _ & _ & _ & _ & -> & Hreg).
  exists s', off, child. split; [exact Hrun|]. split; [exact Hst|].
  split; [apply Hoff|]. split; [apply (owns_position_of _ _ _ _ _ _ Hoff)|].
  rewrite Hreg. apply get_set_eq.
Defined.

Lemma disease_spares_live_stats_witness :
  disasterType (disaster plague_state) = "disease"%string /\
  Qltb (random_tape plague_state 0%nat)
    (disasterIntensity (disaster plague_state) * (15 # 100)) = true /\
  Math_floor (10 * disasterIntensity (disaster plague_state)) = 10%Z /\
  exists s',
    applyDisasterEffects plague_state = Some (tt, s') /\
    stats_of s' 0%nat = Some (mkStats 100 80 30 10) /\
    stats_of s' 4%nat = Some (mkStats 100 80 30 10).
Proof.
  split; [reflexivity|]. split; [reflexivity|]. split; [reflexivity|].
  destruct (disease_spares_live_stats plague_state eq_refl)
    as (s' & Hrun & _ & Hst & _).
  - repeat constructor; eexists; reflexivity.
  - exists s'. split; [exact Hrun|]. split; apply Hst; reflexivity.
Defined.

Lemma accessors_contract_witness :
  exists s2,
    addGene_at 1%nat (mkGene "size" 1 0) pair_state = Some (tt, s2) /\
    dna_of pair_state 0%nat = Some pair_dna /\
    DNA.getGene "size" pair_dna = Some (mkGene "size" (5 # 10) (5 # 100)) /\
    (exists d2, dna_of s2 0%nat = Some d2 /\
                DNA.getGene "size" d2 = Some (mkGene "size" 1 0)).
Proof.
  destruct (accessors_contract pair_state 0%nat _ _ _ _ owns_pair_a)
    as (_ & _ & _ & Hdna).
  destruct (Hdna (mkGene "size" 1 0)) as (s2 & Hrun & Hd2 & Hg).
  exists s2. split; [exact Hrun|]. split; [reflexivity|]. split; [reflexivity|].
  eexists. split; [exact Hd2 | exact Hg].
Defined.

Lemma addAnimal_contract_witness :
  length ark_locs = 30%nat /\
  maxPopulation (world ark_state) = 30%Z /\
  exists s' s'',
    addAnimals ark_locs ark_state = Some (repeat true 30, s') /\
    addAnimal 0%nat s' = Some (false, s'') /\
    JsMap.size (animals (world s'')) = 30%Z.
Proof.
  split; [reflexivity|].
  destruct (proj2 (proj2 addAnimal_contract) ark_state (fun _ => 1 # 2) 0%nat
              ark_locs (map ark_id (seq 0 30)) 0%nat eq_refl eq_refl)
    as (Hmax & s' & s'' & H).
  - vm_compute. repeat constructor.
  - vm_compute.
    repeat (apply NoDup_cons_2;
            [rewrite list_elem_of_In; simpl; intuition discriminate|]).
    apply NoDup_nil_2.
  - split; [exact Hmax|]. exists s', s''. exact H.
Defined.

Lemma removeAnimal_keeps_pressure_witness :
  exists s',
    removeAnimal "a" crowded_state = Some (tt, s') /\
    animals (world s') = JsMap.empty /\
    populationPressure (world s') = 10%Z /\
    pressure_of (JsMap.size (animals (world s'))) (maxPopulation (world s')) = 0%Z.
Proof.
  destruct (proj1 removeAnimal_keeps_pressure crowded_state "a"%string)
    as (s' & Hrun & Han & Hp & Hm).
  exists s'. split; [exact Hrun|]. rewrite Han, Hp, Hm. repeat split.
Defined.

(** C6, counterexample: the energy gained on success is not [30 +
    uniform(0, 20)] for the draw made.  With the draw 0.51 an attacker of
    50 energy ends at [50 - 15 + 30 + floor(10.2) = 75], not at
    [50 - 15 + 30 + 10.2 = 75.2]. *)
Lemma attack_gain_is_floored :
  exists s' st,
    attack 0%nat 4%nat hunt_state = Some (true, s') /\
    stats_of s' 0%nat = Some st /\
    energy st == 75 /\
    ~ energy st == Qmin 100 (50 - 15 + (30 + uniform 0 20 (random_tape hunt_state 1%nat))).
Proof.
  eexists _, _. split; [vm_compute; reflexivity|].
  split; [vm_compute; reflexivity|]. split; [reflexivity|].
  intros H. vm_compute in H. discriminate.
Qed.

Lemma owns_hunter :
  owns hunt_state 0%nat pair_a pair_dna (mkPosition 2%Z 3%Z) (mkStats 100 50 30 60).
Proof. split; reflexivity. Defined.

Lemma owns_prey :
  owns hunt_state 4%nat pair_b pair_dna (mkPosition 3%Z 3%Z) pair_stats.
Proof. split; reflexivity. Defined.

Lemma attack_contract_witness :
  20 <= 50 /\
  exists s',
    attack 0%nat 4%nat hunt_state = Some (true, s') /\
    stats_of s' 0%nat =
    Some (mkStats 100 (Qmin 100 (50 - 15 + (30 + inject_Z (Math_floor ((51 # 100) * 20)))))
            30 (Qmax 0 (60 - 40))) /\
    JsMap.get "b" (animals (world s')) = None /\
    JsMap.get "a" (animals (world s')) = Some 0%nat.
Proof.
  split; [discriminate|].
  destruct (attack_contract hunt_state 0%nat 4%nat _ _ _ _ _ _ _ _
              owns_hunter owns_prey ltac:(discriminate))
    as (s' & Hrun & Hcase & _).
  assert (E : Qltb (random_tape hunt_state (random_pos hunt_state))
                (attack_chance pair_dna pair_dna) = true) by reflexivity.
  rewrite E in Hrun, Hcase. destruct Hcase as (Hst & Hreg & _).
  exists s'. split; [exact Hrun|]. split; [exact Hst|].
  rewrite Hreg. split; reflexivity.
Defined.

(** * Further properties of the code *)

(** ** [DNA]: genes in and out *)

Lemma keys_set_absent {V} (k : string) (v : V) (m : JsMap.t V) :
  JsMap.get k m = None -> JsMap.keys (JsMap.set k v m) = JsMap.keys m ++ [k].
Proof.
  intros H. rewrite (set_absent _ _ _ H). unfold JsMap.keys.
  now rewrite map_app.
Qed.

(** X1. [addGene] followed by [getGene]: the gene just added is found
    under its name, every other name answers as before; a gene of a new
    name goes to the end of the genome, a gene of a known name takes the
    place of the old one, so the number of genes grows by one or stays. *)
Theorem addGene_getGene (g : Gene) (d : DNA.t) :
  (forall n, DNA.getGene n (DNA.addGene g d) =
             if String.eqb (name g) n then Some g else DNA.getGene n d) /\
  match DNA.getGene (name g) d with
  | None =>
      JsMap.keys (DNA.addGene g d) = JsMap.keys d ++ [name g] /\
      length (DNA.getAllGenes (DNA.addGene g d)) = S (length (DNA.getAllGenes d))
  | Some _ =>
      JsMap.keys (DNA.addGene g d) = JsMap.keys d /\
      length (DNA.getAllGenes (DNA.addGene g d)) = length (DNA.getAllGenes d)
  end.
Proof.
  split.
  - intros n. unfold DNA.getGene, DNA.addGene.
    destruct (String.eqb_spec (name g) n) as [<-|Hne].
    + apply get_set_eq.
    + now apply get_set_ne.
  - unfold DNA.getGene, DNA.addGene, DNA.getAllGenes, JsMap.values.
    destruct (JsMap.get (name g) d) eqn:E.
    + split; [apply keys_set_present; eauto|].
      rewrite !length_map.
      assert (H : JsMap.size (JsMap.set (name g) g d) = JsMap.size d)
        by (apply size_set_present; eauto).
      unfold JsMap.size in H. lia.
    + split; [now apply keys_set_absent|].
      rewrite (set_absent _ _ _ E), !length_map, length_app. simpl. lia.
Qed.

Lemma find_app_first {A} (f : A -> bool) (l l' : list A) :
  List.find f (l ++ l') =
  match List.find f l with Some v => Some v | None => List.find f l' end.
Proof.
  induction l as [|v l IH]; simpl; [reflexivity|].
  destruct (f v); [reflexivity | exact IH].
Qed.

Lemma length_set_le {V} (k : string) (v : V) (m : JsMap.t V) :
  (length (JsMap.set k v m) <= S (length m))%nat.
Proof.
  destruct (JsMap.get k m) eqn:E.
  - assert (H : JsMap.size (JsMap.set k v m) = JsMap.size m)
      by (apply size_set_present; eauto).
    unfold JsMap.size in H. lia.
  - rewrite (set_absent _ _ _ E), length_app. simpl. lia.
Qed.

Lemma new_fold_length (gs : list Gene) : forall acc : DNA.t,
  (length (fold_left (fun d g => JsMap.set (name g) g d) gs acc)
   <= length acc + length gs)%nat.
Proof.
  induction gs as [|g gs IH]; intros acc; simpl; [lia|].
  specialize (IH (JsMap.set (name g) g acc)).
  pose proof (length_set_le (name g) g acc). lia.
Qed.

Lemma new_fold_get (gs : list Gene) : forall (acc : DNA.t) (n : string),
  JsMap.get n (fold_left (fun d g => JsMap.set (name g) g d) gs acc) =
  match List.find (fun g => String.eqb (name g) n) (rev gs) with
  | Some g => Some g
  | None => JsMap.get n acc
  end.
Proof.
  induction gs as [|g gs IH]; intros acc n; simpl; [reflexivity|].
  rewrite IH, find_app_first.
  destruct (List.find (fun g0 => String.eqb (name g0) n) (rev gs));
    [reflexivity|].
  simpl. destruct (String.eqb_spec (name g) n) as [<-|Hne].
  - apply get_set_eq.
  - now apply get_set_ne.
Qed.

Lemma new_fold_wf (gs : list Gene) : forall acc : DNA.t,
  DNA.wf acc -> DNA.wf (fold_left (fun d g => JsMap.set (name g) g d) gs acc).
Proof.
  induction gs as [|g gs IH]; intros acc Hacc; simpl; [exact Hacc|].
  apply IH. exact (wf_addGene g acc Hacc).
Qed.

(** X2. [new DNA(initialGenes)]: a name asks for the last gene of that
    name in the array, the earlier ones of the same name being
    overwritten; names that do not occur are absent; without an array the
    genome is empty.  The genome is keyed by its genes' names without
    repeats. *)
Theorem new_DNA_last_wins (gs : list Gene) (n : string) :
  DNA.getGene n (DNA.new (Some gs)) =
  List.find (fun g => String.eqb (name g) n) (rev gs) /\
  DNA.getGene n (DNA.new None) = None /\
  DNA.wf (DNA.new (Some gs)) /\
  (length (DNA.getAllGenes (DNA.new (Some gs))) <= length gs)%nat.
Proof.
  split; [|split; [reflexivity|split]].
  - unfold DNA.getGene, DNA.new. rewrite new_fold_get.
    now destruct (List.find _ (rev gs)).
  - apply new_fold_wf, wf_new_None.
  - unfold DNA.getAllGenes, JsMap.values, DNA.new. rewrite length_map.
    apply (new_fold_length gs []).
Qed.

Lemma createStandard_fold cv (defs : list GeneDefinition) : forall acc : DNA.t,
  NoDup (map gd_name defs) ->
  (forall n, In n (map gd_name defs) -> JsMap.get n acc = None) ->
  fold_left
    (fun dna geneDef =>
       let value :=
         match cv with
         | Some cv =>
             match JsMap.get (gd_name geneDef) cv with
             | Some v => v
             | None => defaultValue geneDef
             end
         | None => defaultValue geneDef
         end in
       DNA.addGene (mkGene (gd_name geneDef) value (defaultMutationRate geneDef))
         dna)
    defs acc
  = acc ++ map (fun gd => (gd_name gd, standard_gene cv gd)) defs.
Proof.
  induction defs as [|gd defs IH]; intros acc Hnd Hnew; simpl.
  - now rewrite app_nil_r.
  - apply NoDup_cons in Hnd as [Hgd Hnd]. rewrite list_elem_of_In in Hgd.
    unfold DNA.addGene at 2. simpl name.
    rewrite (set_absent _ _ _ (Hnew _ (or_introl eq_refl))).
    rewrite IH; [now rewrite <- app_assoc | exact Hnd |].
    intros n Hn. rewrite get_app, (Hnew n (or_intror Hn)). simpl.
    destruct (String.eqb_spec (gd_name gd) n) as [E|_]; [|reflexivity].
    subst n. contradiction.
Qed.

Lemma STANDARD_GENES_names_NoDup : NoDup (map gd_name DNA.STANDARD_GENES).
Proof.
  simpl.
  repeat (apply NoDup_cons_2;
          [rewrite list_elem_of_In; simpl; intuition discriminate|]).
  apply NoDup_nil_2.
Qed.

Lemma createStandard_entries cv :
  DNA.createStandard cv =
  map (fun gd => (gd_name gd, standard_gene cv gd)) DNA.STANDARD_GENES.
Proof.
  exact (createStandard_fold cv DNA.STANDARD_GENES (DNA.new None)
           STANDARD_GENES_names_NoDup (fun _ _ => eq_refl)).
Qed.

Lemma get_map_entries {A V} (key : A -> string) (f : A -> V) (l : list A) (v : A) :
  NoDup (map key l) -> In v l ->
  JsMap.get (key v) (map (fun e => (key e, f e)) l) = Some (f v).
Proof.
  induction l as [|e l IH]; intros Hnd Hin; [contradiction|].
  simpl in Hnd. apply NoDup_cons in Hnd as [He Hnd].
  rewrite list_elem_of_In in He. simpl.
  destruct Hin as [->|Hin].
  - now rewrite String.eqb_refl.
  - destruct (String.eqb_spec (key e) (key v)) as [E|_]; [|auto].
    exfalso. apply He. rewrite E. now apply in_map.
Qed.

(** X3. [createStandard(customValues)], whatever the overrides: the
    genome has the twelve names of the catalog, in the order of the
    catalog; every gene has the mutation rate of the catalog and, as
    value, the override given under its name or else the default of the
    catalog; an override under a name that is not in the catalog is
    ignored. *)
Theorem createStandard_catalog (customValues : option (list (string * Q))) :
  JsMap.keys (DNA.createStandard customValues) = map gd_name DNA.STANDARD_GENES /\
  length (DNA.getAllGenes (DNA.createStandard customValues)) = 12%nat /\
  (forall geneDef, In geneDef DNA.STANDARD_GENES ->
     DNA.getGene (gd_name geneDef) (DNA.createStandard customValues) =
     Some (mkGene (gd_name geneDef)
             (match customValues with
              | Some cv =>
                  match JsMap.get (gd_name geneDef) cv with
                  | Some v => v
                  | None => defaultValue geneDef
                  end
              | None => defaultValue geneDef
              end)
             (defaultMutationRate geneDef))) /\
  (forall n, ~ In n (map gd_name DNA.STANDARD_GENES) ->
     DNA.getGene n (DNA.createStandard customValues) = None).
Proof.
  rewrite createStandard_entries.
  split; [|split; [|split]].
  - unfold JsMap.keys. rewrite map_map. reflexivity.
  - unfold DNA.getAllGenes, JsMap.values. rewrite !length_map. reflexivity.
  - intros gd Hin. unfold DNA.getGene.
    apply (get_map_entries gd_name (standard_gene customValues)
             DNA.STANDARD_GENES gd STANDARD_GENES_names_NoDup Hin).
  - intros n Hn. unfold DNA.getGene. apply get_None_keys.
    unfold JsMap.keys. now rewrite map_map.
Qed.

(** ** [DNA]: how far inheritance moves a value *)

Lemma clamp01_near (v o : Q) :
  0 <= v -> v <= 1 -> - (1 # 10) <= o -> o <= 1 # 10 ->
  v - (1 # 10) <= clamp01 (v + o) /\ clamp01 (v + o) <= v + (1 # 10).
Proof.
  intros H0 H1 Hlo Hhi. unfold clamp01.
  destruct (Q.max_spec 0 (Qmin 1 (v + o))) as [[Hx Ex]|[Hx Ex]]; rewrite Ex;
    destruct (Q.min_spec 1 (v + o)) as [[Hm Em]|[Hm Em]];
    rewrite ?Em in *; split; lra.
Qed.

Lemma mutates_pointwise tape p l l' q :
  mutates tape p l l' q ->
  (forall n, 0 <= tape n /\ tape n < 1) ->
  DNA.values_in_unit l ->
  forall n g, JsMap.get n l = Some g ->
    exists g', JsMap.get n l' = Some g' /\
               name g' = name g /\ mutationRate g' = mutationRate g /\
               value g - (1 # 10) <= value g' /\ value g' <= value g + (1 # 10).
Proof.
  unfold DNA.values_in_unit.
  induction 1 as [|p k g l l' q Hlt Hm IH|p k g g' l l' q Hlt Hn Hr Hv Hm IH];
    intros Htape Hunit n g0 Hget.
  - discriminate.
  - apply Forall_cons in Hunit as [Hg Hl]. simpl in *.
    destruct (String.eqb k n).
    + injection Hget as <-. exists g. repeat split; lra.
    + now apply IH.
  - apply Forall_cons in Hunit as [Hg Hl]. simpl in *.
    destruct (String.eqb k n).
    + injection Hget as <-. exists g'. split; [reflexivity|].
      split; [exact Hn|]. split; [exact Hr|]. rewrite Hv.
      destruct (Htape (S p)) as [Hu0 Hu1].
      apply clamp01_near; try tauto; unfold uniform; lra.
    + now apply IH.
Qed.

Lemma mutates_draws tape p l l' q :
  mutates tape p l l' q ->
  (p + length l <= q)%nat /\ (q <= p + 2 * length l)%nat.
Proof. induction 1; simpl; lia. Qed.

(** X4. One [mutate()] moves no gene value by more than 0.1: for a
    genome of values in [[0, 1]] and draws of [[0, 1)], every gene is
    found again under its name, with its mutation rate, and with a value
    within 0.1 of the old one.  The call makes at least one and at most
    two draws per gene. *)
Theorem mutate_small_steps (tape : nat -> Q) (p : nat) (d : DNA.t) :
  DNA.wf d ->
  DNA.values_in_unit d ->
  (forall n, 0 <= tape n /\ tape n < 1) ->
  (forall n g, DNA.getGene n d = Some g ->
     exists g', DNA.getGene n (fst (DNA.mutate d tape p)) = Some g' /\
                name g' = name g /\ mutationRate g' = mutationRate g /\
                value g - (1 # 10) <= value g' /\ value g' <= value g + (1 # 10)) /\
  (p + length (DNA.getAllGenes d) <= snd (DNA.mutate d tape p))%nat /\
  (snd (DNA.mutate d tape p) <= p + 2 * length (DNA.getAllGenes d))%nat.
Proof.
  intros Hwf Hunit Htape.
  destruct (mutate_mutates tape p d Hwf) as [Hm _].
  split.
  - intros n g Hg. exact (mutates_pointwise _ _ _ _ _ Hm Htape Hunit n g Hg).
  - unfold DNA.getAllGenes, JsMap.values. rewrite length_map.
    exact (mutates_draws _ _ _ _ _ Hm).
Qed.

Lemma In_get {V} (k : string) (v : V) (m : JsMap.t V) :
  JsMap.wf m -> In (k, v) m -> JsMap.get k m = Some v.
Proof.
  unfold JsMap.wf. induction m as [|[k' v'] m IH]; intros Hnd Hin;
    [contradiction|].
  simpl in Hnd. apply NoDup_cons in Hnd as [Hk Hnd].
  rewrite list_elem_of_In in Hk. simpl.
  destruct Hin as [[= -> ->]|Hin].
  - now rewrite String.eqb_refl.
  - destruct (String.eqb_spec k' k) as [->|_]; [|auto].
    exfalso. apply Hk. apply (in_map fst) in Hin. exact Hin.
Qed.

Lemma values_in_unit_get (d : DNA.t) (n : string) (g : Gene) :
  DNA.values_in_unit d -> DNA.getGene n d = Some g ->
  0 <= value g /\ value g <= 1.
Proof.
  intros Hunit Hg. apply get_Some_In in Hg.
  unfold DNA.values_in_unit in Hunit. rewrite List.Forall_forall in Hunit.
  exact (Hunit _ Hg).
Qed.

Lemma inherit_between (u : Q) (n : string) (ga gb : Gene) :
  Qmin (value ga) (value gb) <= value (inherit u n ga gb) /\
  value (inherit u n ga gb) <= Qmax (value ga) (value gb).
Proof.
  unfold inherit.
  destruct (Q.min_spec (value ga) (value gb)) as [[? Em]|[? Em]];
    destruct (Q.max_spec (value ga) (value gb)) as [[? Ex]|[? Ex]];
    rewrite Em, Ex;
    (destruct (Qltb u (4 # 10)); [|destruct (Qltb u (8 # 10))]); simpl;
    try (split; lra);
    (split; [apply Qle_shift_div_l; lra | apply Qle_shift_div_r; lra]).
Qed.

(** X5. Inheritance keeps gene values where the parents have them: for
    a gene that both parents carry, the value in [combine(a, b)] lies
    between the two parents' values, so parents with values in [[0, 1]]
    combine into a genome with values in [[0, 1]], and so does the
    mutated genome that an offspring receives. *)
Theorem inheritance_keeps_unit_values (tape : nat -> Q) (p : nat) (a b : DNA.t) :
  DNA.wf a -> DNA.wf b ->
  let c := DNA.combine a b tape p in
  (forall n ga gb gc,
      DNA.getGene n a = Some ga -> DNA.getGene n b = Some gb ->
      DNA.getGene n (fst c) = Some gc ->
      Qmin (value ga) (value gb) <= value gc /\
      value gc <= Qmax (value ga) (value gb)) /\
  (DNA.values_in_unit a -> DNA.values_in_unit b ->
   DNA.values_in_unit (fst c) /\
   DNA.values_in_unit (fst (DNA.mutate (fst c) tape (snd c)))).
Proof.
  intros Ha Hb c.
  pose proof (combine_wf tape p a b Ha Hb) as Hc. fold c in Hc.
  split.
  - intros n ga gb gc Ea Eb Ec.
    destruct (combine_lookup tape p a b n Ha Hb) as [u Hu]. fold c in Hu.
    rewrite Ec in Hu. unfold combined_gene in Hu. rewrite Ea, Eb in Hu.
    injection Hu as ->. apply inherit_between.
  - intros Hua Hub.
    assert (Huc : DNA.values_in_unit (fst c)).
    { unfold DNA.values_in_unit. apply List.Forall_forall. intros [k g] Hin.
      simpl. pose proof (In_get k g (fst c) (proj1 Hc) Hin) as Hg.
      destruct (combine_lookup tape p a b k Ha Hb) as [u Hu]. fold c in Hu.
      unfold DNA.getGene in Hu. rewrite Hg in Hu. unfold combined_gene in Hu.
      destruct (DNA.getGene k a) as [ga|] eqn:Ea;
        destruct (DNA.getGene k b) as [gb|] eqn:Eb; try discriminate;
        injection Hu as ->.
      - pose proof (values_in_unit_get _ _ _ Hua Ea).
        pose proof (values_in_unit_get _ _ _ Hub Eb).
        pose proof (inherit_between u k ga gb) as [Hlo Hhi].
        destruct (Q.min_spec (value ga) (value gb)) as [[? Em]|[? Em]];
          destruct (Q.max_spec (value ga) (value gb)) as [[? Ex]|[? Ex]];
          rewrite Em in Hlo; rewrite Ex in Hhi; lra.
      - exact (values_in_unit_get _ _ _ Hua Ea).
      - exact (values_in_unit_get _ _ _ Hub Eb). }
    split; [exact Huc|].
    destruct (mutate_mutates tape (snd c) (fst c) Hc) as [Hm _].
    exact (mutates_values_in_unit _ _ _ _ _ Hm Huc).
Qed.

(** ** [World]: the grid *)

Lemma lookup_map {A B} (f : A -> B) (l : list A) (i : nat) :
  map f l !! i = match l !! i with Some v => Some (f v) | None => None end.
Proof.
  revert i. induction l as [|v l IH]; intros [|i]; simpl; auto.
Qed.

Lemma pushTimes_run {A} (body : Rand A) (c : nat) (tape : nat -> Q) :
  (forall q, snd (body tape q) = (q + c)%nat) ->
  forall (n p : nat),
    pushTimes n body tape p =
    (map (fun i => fst (body tape (p + i * c)%nat)) (seq 0 n), (p + n * c)%nat).
Proof.
  intros Hc. induction n as [|n IH]; intros p.
  - simpl. unfold Rand.ret. f_equal. lia.
  - simpl pushTimes. unfold Rand.bind at 1.
    destruct (body tape p) as [v p'] eqn:E.
    assert (Hp' : p' = (p + c)%nat) by (rewrite <- (Hc p), E; reflexivity).
    subst p'. unfold Rand.bind. rewrite IH. unfold Rand.ret.
    f_equal; [|lia]. simpl. f_equal.
    + rewrite Nat.add_0_r, E. reflexivity.
    + rewrite <- seq_shift, map_map. apply map_ext. intros i.
      do 2 f_equal. lia.
Qed.

Lemma seedTile_run (tape : nat -> Q) (q : nat) :
  seedTile tape q = (seed_of (tape q), S q).
Proof.
  unfold seedTile, seed_of, Rand.bind, Rand.random, Rand.ret.
  destruct (Qltb (tape q) (7 # 10)); [reflexivity|].
  destruct (Qltb (tape q) (9 # 10)); reflexivity.
Qed.

Lemma World_new_grid (w h : Z) (tape : nat -> Q) (p : nat) :
  grid (fst (World_new w h tape p)) =
  map (fun j => map (fun i => seed_of (tape (p + j * Z.to_nat w + i)%nat))
                  (seq 0 (Z.to_nat w)))
      (seq 0 (Z.to_nat h)) /\
  snd (World_new w h tape p) = (p + Z.to_nat h * Z.to_nat w)%nat.
Proof.
  assert (Hrow : forall q,
            pushTimes (Z.to_nat w) seedTile tape q =
            (map (fun i => seed_of (tape (q + i)%nat)) (seq 0 (Z.to_nat w)),
             (q + Z.to_nat w)%nat)).
  { intros q. rewrite (pushTimes_run seedTile 1 tape).
    - f_equal; [|lia]. apply map_ext. intros i. rewrite seedTile_run. simpl.
      do 2 f_equal. lia.
    - intros q'. rewrite seedTile_run. simpl. lia. }
  unfold World_new, Rand.bind.
  rewrite (pushTimes_run (pushTimes (Z.to_nat w) seedTile) (Z.to_nat w) tape)
    by (intros q; now rewrite Hrow).
  unfold Rand.ret. simpl. split; [|reflexivity].
  apply map_ext. intros j. now rewrite Hrow.
Qed.

(** X6. [new World(width, height)]: the grid has [height] rows of
    [width] tiles; the tile at [(x, y)] is made of the draw number
    [y * width + x] of the constructor: grass with 10 food below 0.7,
    water with 5 food below 0.9, rock with no food otherwise; the
    constructor makes [width * height] draws, and the new world has no
    animal, no pressure and room for [floor(width * height * 0.3)]. *)
Theorem World_new_seeds (width height : Z) (tape : nat -> Q) (p : nat) :
  let w := fst (World_new width height tape p) in
  grid_wf w /\
  (forall px py : Z,
      (0 <= px < width)%Z -> (0 <= py < height)%Z ->
      tile_at w (mkPosition px py) =
      Some (seed_of (tape (p + Z.to_nat py * Z.to_nat width + Z.to_nat px)%nat))) /\
  snd (World_new width height tape p)
  = (p + Z.to_nat height * Z.to_nat width)%nat /\
  animals w = JsMap.empty /\ populationPressure w = 0%Z /\
  maxPopulation w = Math_floor (inject_Z (width * height) * (3 # 10)).
Proof.
  intros w.
  destruct (World_new_fields width height tape p) as (Hw & Hh & Han & Hmax & Hp).
  destruct (World_new_grid width height tape p) as [Hgrid Hpos].
  fold w in Hw, Hh, Han, Hmax, Hp, Hgrid.
  refine (conj _ (conj _ (conj Hpos (conj Han (conj Hp Hmax))))).
  - unfold grid_wf. rewrite Hgrid, Hw, Hh, length_map, length_seq.
    split; [reflexivity|]. apply List.Forall_forall. intros row Hin.
    apply in_map_iff in Hin as (j & <- & _). now rewrite length_map, length_seq.
  - intros px py Hx Hy. unfold tile_at, tile_in. simpl x. simpl y.
    rewrite Hgrid, lookup_map, lookup_seq_lt by lia.
    rewrite lookup_map, lookup_seq_lt by lia. reflexivity.
Qed.

Lemma with_grid_same (s : State) : with_grid s (grid (world s)) = s.
Proof. destruct s as [h [w hh g a m pp] d t rp ut up]. reflexivity. Qed.

Lemma grid_wf_cell (w : World) (p : Position) :
  grid_wf w -> position_valid w p = true ->
  exists row tile,
    grid w !! Z.to_nat (y p) = Some row /\
    row !! Z.to_nat (x p) = Some tile /\
    length row = Z.to_nat (width w).
Proof.
  intros [Hlen Hrows] Hv. apply position_valid_iff in Hv.
  destruct (lookup_lt_is_Some_2 (grid w) (Z.to_nat (y p))) as [row Hrow];
    [lia|].
  assert (Hl : length row = Z.to_nat (width w)).
  { eapply List.Forall_forall in Hrows; [exact Hrows|].
    apply list_elem_of_In. eapply list_elem_of_lookup_2. exact Hrow. }
  destruct (lookup_lt_is_Some_2 row (Z.to_nat (x p))) as [tile Htile];
    [lia|].
  exists row, tile. auto.
Qed.

Lemma grid_wf_insert (w : World) (j i : nat) (row : list Tile) (t : Tile) :
  grid_wf w -> grid w !! j = Some row ->
  grid_wf (set_grid w (<[j := <[i := t]> row]> (grid w))).
Proof.
  intros [Hlen Hrows] Hrow. split; simpl.
  - now rewrite length_insert.
  - apply List.Forall_forall. intros r Hin.
    apply list_elem_of_In, list_elem_of_lookup_1 in Hin as [k Hk].
    destruct (decide (k = j)) as [->|Hne].
    + rewrite list_lookup_insert_eq in Hk
        by (eapply lookup_lt_Some; exact Hrow).
      injection Hk as <-. rewrite length_insert.
      eapply List.Forall_forall in Hrows; [exact Hrows|].
      apply list_elem_of_In. eapply list_elem_of_lookup_2. exact Hrow.
    + rewrite list_lookup_insert_ne in Hk by congruence.
      eapply List.Forall_forall in Hrows; [exact Hrows|].
      apply list_elem_of_In. eapply list_elem_of_lookup_2. exact Hk.
Qed.

Lemma getTile_outside (p : Position) (s : State) :
  position_valid (world s) p = false -> getTile p s = Some (None, s).
Proof. intros Hv. unfold getTile, isPositionValid. msimpl. now rewrite Hv. Qed.

Lemma getTile_inside (p : Position) (s : State) (row : list Tile) :
  position_valid (world s) p = true ->
  grid (world s) !! Z.to_nat (y p) = Some row ->
  getTile p s = Some (row !! Z.to_nat (x p), s).
Proof.
  intros Hv Hrow. unfold getTile, isPositionValid, grid_at. msimpl.
  now rewrite Hv, Hrow.
Qed.

Lemma set_foodValue_run (py px : Z) (v : Q) (s : State) row tile :
  grid (world s) !! Z.to_nat py = Some row ->
  row !! Z.to_nat px = Some tile ->
  set_foodValue py px v s =
  Some (tt, with_grid s (<[Z.to_nat py :=
                            <[Z.to_nat px := mkTile (type tile) v]> row]>
                           (grid (world s)))).
Proof.
  intros Hrow Htile. unfold set_foodValue. msimpl.
  now rewrite Hrow, Htile.
Qed.

Lemma consumeFood_run (p : Position) (amount : Q) (s : State) row tile :
  position_valid (world s) p = true ->
  grid (world s) !! Z.to_nat (y p) = Some row ->
  row !! Z.to_nat (x p) = Some tile ->
  consumeFood p amount s =
  Some (Qmin (foodValue tile) amount,
        with_grid s
          (<[Z.to_nat (y p) :=
             <[Z.to_nat (x p) :=
                mkTile (type tile)
                  (foodValue tile - Qmin (foodValue tile) amount)]> row]>
             (grid (world s)))).
Proof.
  intros Hv Hrow Htile. unfold consumeFood.
  rewrite (bind_run _ _ _ _ _ (getTile_inside p s row Hv Hrow)), Htile.
  rewrite (bind_run _ _ _ _ _
             (set_foodValue_run _ _ _ s row tile Hrow Htile)).
  reflexivity.
Qed.

Lemma tile_in_insert_same g (p : Position) row t :
  g !! Z.to_nat (y p) = Some row ->
  (Z.to_nat (x p) < length row)%nat ->
  tile_in (<[Z.to_nat (y p) := <[Z.to_nat (x p) := t]> row]> g) p = Some t.
Proof.
  intros Hrow Hx. unfold tile_in.
  rewrite list_lookup_insert_eq by (eapply lookup_lt_Some; exact Hrow).
  now rewrite list_lookup_insert_eq.
Qed.

Lemma tile_in_insert_other g (j i : nat) (q : Position) row t :
  g !! j = Some row ->
  (Z.to_nat (x q) <> i \/ Z.to_nat (y q) <> j) ->
  tile_in (<[j := <[i := t]> row]> g) q = tile_in g q.
Proof.
  intros Hrow Hne. unfold tile_in.
  destruct (decide (Z.to_nat (y q) = j)) as [Ey|Ny].
  - rewrite Ey, list_lookup_insert_eq, Hrow
      by (eapply lookup_lt_Some; exact Hrow).
    apply list_lookup_insert_ne. intros E. destruct Hne; congruence.
  - now rewrite list_lookup_insert_ne by congruence.
Qed.

(** X7. [consumeFood(position, amount)]: outside the grid nothing is
    eaten and nothing changes; inside, what is eaten is the smaller of
    the tile's food and the amount, the tile keeps its kind and loses
    what was eaten, every other tile of the grid, the animals and the
    heap are as before; for a non-negative amount on a tile with
    non-negative food, what is eaten lies between 0 and the amount and
    the tile's food stays non-negative. *)
Theorem consumeFood_contract (p : Position) (amount : Q) (s : State)
    (Hwf : grid_wf (world s)) :
  (position_valid (world s) p = false ->
   consumeFood p amount s = Some (0, s)) /\
  (position_valid (world s) p = true ->
   exists tile s',
     tile_at (world s) p = Some tile /\
     consumeFood p amount s = Some (Qmin (foodValue tile) amount, s') /\
     tile_at (world s') p =
       Some (mkTile (type tile)
               (foodValue tile - Qmin (foodValue tile) amount)) /\
     (forall q, position_valid (world s) q = true ->
                (x q <> x p \/ y q <> y p) ->
                tile_at (world s') q = tile_at (world s) q) /\
     grid_wf (world s') /\
     s' = with_grid s (grid (world s')) /\
     (0 <= amount -> 0 <= foodValue tile ->
      0 <= Qmin (foodValue tile) amount /\
      Qmin (foodValue tile) amount <= amount /\
      0 <= foodValue tile - Qmin (foodValue tile) amount)).
Proof.
  split; intros Hv.
  - unfold consumeFood.
    now rewrite (bind_run _ _ _ _ _ (getTile_outside p s Hv)).
  - destruct (grid_wf_cell _ _ Hwf Hv) as (row & tile & Hrow & Htile & Hlen).
    exists tile. eexists.
    split; [unfold tile_at, tile_in; now rewrite Hrow|].
    split; [exact (consumeFood_run p amount s row tile Hv Hrow Htile)|].
    refine (conj _ (conj _ (conj _ (conj eq_refl _)))).
    + simpl. unfold tile_at. simpl. apply tile_in_insert_same; [exact Hrow|].
      eapply lookup_lt_Some. exact Htile.
    + intros q Hq Hne. unfold tile_at. simpl.
      apply tile_in_insert_other; [exact Hrow|].
      apply position_valid_iff in Hq. apply position_valid_iff in Hv.
      destruct Hne; [left|right]; lia.
    + apply (grid_wf_insert (world s)); assumption.
    + intros Ha Hf.
      destruct (Q.min_spec (foodValue tile) amount) as [[Hlt E]|[Hle E]];
        rewrite E; repeat split; lra.
Qed.

(** *** Loops over the whole grid *)

Lemma sweep_step {A} (F : A -> A) (l : list A) (k n : nat) (v : A) :
  l !! k = Some v ->
  take (S k) (<[k := F v]> l)
    ++ map F (take n (drop (S k) (<[k := F v]> l)))
    ++ drop (S k + n) (<[k := F v]> l)
  = take k l ++ map F (take (S n) (drop k l)) ++ drop (k + S n) l.
Proof.
  intros Hk. pose proof (lookup_lt_Some _ _ _ Hk) as Hlt.
  rewrite (take_S_r (<[k := F v]> l) k (F v))
    by now apply list_lookup_insert_eq.
  rewrite take_insert_ge by lia.
  rewrite !drop_insert_lt by lia.
  rewrite (drop_S l v k Hk). simpl.
  rewrite <- app_assoc, Nat.add_succ_r. reflexivity.
Qed.

Lemma sweep_cells (body : Z -> Z -> M unit) (f : Tile -> Tile) (j : nat) :
  cell_step body f ->
  forall (n k : nat) (s : State) (row : list Tile),
    (Z.of_nat j < height (world s))%Z ->
    grid (world s) !! j = Some row ->
    (k + n <= length row)%nat ->
    (length row <= Z.to_nat (width (world s)))%nat ->
    forEach (map Z.of_nat (seq k n)) (body (Z.of_nat j)) s =
    Some (tt, with_grid s
                (<[j := take k row ++ map f (take n (drop k row))
                               ++ drop (k + n) row]> (grid (world s)))).
Proof.
  intros Hstep. induction n as [|n IH]; intros k s row Hj Hrow Hkn Hlen.
  - simpl. rewrite Nat.add_0_r, take_drop.
    rewrite (list_insert_id _ _ _ Hrow), with_grid_same. reflexivity.
  - destruct (lookup_lt_is_Some_2 row k) as [tile Htile]; [lia|].
    simpl seq. simpl map. simpl forEach.
    assert (Hv : position_valid (world s)
                   (mkPosition (Z.of_nat k) (Z.of_nat j)) = true)
      by (apply position_valid_iff; simpl; lia).
    rewrite (bind_run _ _ _ _ _
               (Hstep s (Z.of_nat j) (Z.of_nat k) row tile Hv
                  ltac:(now rewrite Nat2Z.id) ltac:(now rewrite Nat2Z.id))).
    rewrite !Nat2Z.id.
    rewrite (IH (S k) _ (<[k := f tile]> row)).
    + simpl. unfold with_grid. simpl.
      rewrite list_insert_insert_eq, <- (sweep_step f row k n tile Htile).
      reflexivity.
    + exact Hj.
    + simpl. apply list_lookup_insert_eq. eapply lookup_lt_Some. exact Hrow.
    + rewrite length_insert. lia.
    + rewrite length_insert. exact Hlen.
Qed.

Lemma sweep_rows (body : Z -> Z -> M unit) (f : Tile -> Tile) (w : Z) :
  cell_step body f ->
  forall (n k : nat) (s : State),
    w = width (world s) ->
    (k + n <= Z.to_nat (height (world s)))%nat ->
    (k + n <= length (grid (world s)))%nat ->
    Forall (fun row => length row = Z.to_nat w) (grid (world s)) ->
    forEach (map Z.of_nat (seq k n))
      (fun py => forEach (upto w) (body py)) s =
    Some (tt, with_grid s
                (take k (grid (world s))
                   ++ map (map f) (take n (drop k (grid (world s))))
                   ++ drop (k + n) (grid (world s)))).
Proof.
  intros Hstep. induction n as [|n IH]; intros k s Hw Hh Hkn Hrows.
  - simpl. rewrite Nat.add_0_r, take_drop, with_grid_same. reflexivity.
  - destruct (lookup_lt_is_Some_2 (grid (world s)) k) as [row Hrow]; [lia|].
    assert (Hl : length row = Z.to_nat w).
    { eapply List.Forall_forall in Hrows; [exact Hrows|].
      apply list_elem_of_In. eapply list_elem_of_lookup_2. exact Hrow. }
    simpl seq. simpl map. simpl forEach. unfold upto at 1.
    rewrite (bind_run _ _ _ _ _
               (sweep_cells body f k Hstep (Z.to_nat w) 0 s row
                  ltac:(lia) Hrow ltac:(lia) ltac:(subst w; lia))).
    replace (take 0 row ++ map f (take (Z.to_nat w) (drop 0 row))
               ++ drop (0 + Z.to_nat w) row) with (map f row)
      by (rewrite <- Hl; simpl; now rewrite firstn_all, drop_all, app_nil_r).
    rewrite (IH (S k)).
    + simpl. unfold with_grid. simpl.
      rewrite <- (sweep_step (map f) (grid (world s)) k n row Hrow).
      reflexivity.
    + exact Hw.
    + simpl. lia.
    + simpl. rewrite length_insert. lia.
    + simpl. apply List.Forall_forall. intros r Hin.
      apply list_elem_of_In, list_elem_of_lookup_1 in Hin as [i Hi].
      destruct (decide (i = k)) as [->|Hne].
      * rewrite list_lookup_insert_eq in Hi
          by (eapply lookup_lt_Some; exact Hrow).
        injection Hi as <-. now rewrite length_map.
      * rewrite list_lookup_insert_ne in Hi by congruence.
        eapply List.Forall_forall in Hrows; [exact Hrows|].
        apply list_elem_of_In. eapply list_elem_of_lookup_2. exact Hi.
Qed.

Lemma sweep_grid (body : Z -> Z -> M unit) (f : Tile -> Tile) (s : State) :
  cell_step body f -> grid_wf (world s) ->
  forEach (upto (height (world s)))
    (fun py => forEach (upto (width (world s))) (body py)) s =
  Some (tt, with_grid s (map (map f) (grid (world s)))).
Proof.
  intros Hstep [Hlen Hrows]. unfold upto at 1.
  rewrite (sweep_rows body f (width (world s)) Hstep
             (Z.to_nat (height (world s))) 0 s eq_refl)
    by (try exact Hrows; lia).
  rewrite <- Hlen. simpl. now rewrite firstn_all, drop_all, app_nil_r.
Qed.

Lemma tile_in_map (f : Tile -> Tile) g (p : Position) :
  tile_in (map (map f) g) p =
  match tile_in g p with Some t => Some (f t) | None => None end.
Proof.
  unfold tile_in. rewrite lookup_map.
  destruct (g !! Z.to_nat (y p)); [apply lookup_map|reflexivity].
Qed.

Lemma grid_wf_map (f : Tile -> Tile) (w : World) :
  grid_wf w -> grid_wf (set_grid w (map (map f) (grid w))).
Proof.
  intros [Hlen Hrows]. split; simpl.
  - now rewrite length_map.
  - apply List.Forall_forall. intros r Hin.
    apply in_map_iff in Hin as (r0 & <- & Hin). rewrite length_map.
    eapply List.Forall_forall in Hrows; [exact Hrows|exact Hin].
Qed.

Lemma insert_same_cell (s : State) (j i : nat) (row : list Tile) tile :
  grid (world s) !! j = Some row -> row !! i = Some tile ->
  with_grid s (<[j := <[i := tile]> row]> (grid (world s))) = s.
Proof.
  intros Hrow Htile.
  rewrite (list_insert_id row i tile Htile).
  rewrite (list_insert_id _ j row Hrow). apply with_grid_same.
Qed.




Lemma reduceWorldFood_cell (percentage : Q) :
  cell_step
    (fun py px =>
       let position := mkPosition px py in
       tile <- getTile position ;;
       match tile with
       | Some tile =>
           match type tile with
           | grass =>
               let reduction := foodValue tile * percentage in
               _ <- consumeFood position reduction ;; ret tt
           | _ => ret tt
           end
       | None => ret tt
       end)
    (shrink_tile percentage).
Proof.
  intros s py px row tile Hv Hrow Htile. cbv zeta.
  rewrite (bind_run _ _ _ _ _ (getTile_inside _ s row Hv Hrow)).
  change (x (mkPosition px py)) with px. rewrite Htile. unfold shrink_tile.
  destruct (type tile) eqn:Ety.
  - rewrite (bind_run _ _ _ _ _
               (consumeFood_run _ _ s row tile Hv Hrow Htile)).
    simpl. now rewrite Ety.
  - unfold ret. now rewrite (insert_same_cell s _ _ row tile).
  - unfold ret. now rewrite (insert_same_cell s _ _ row tile).
Qed.

Lemma reduceWorldFood_run (percentage : Q) (s : State) :
  grid_wf (world s) ->
  reduceWorldFood percentage s =
  Some (tt, with_grid s (map (map (shrink_tile percentage)) (grid (world s)))).
Proof.
  intros Hwf. exact (sweep_grid _ _ s (reduceWorldFood_cell percentage) Hwf).
Qed.

(** X9. [reduceWorldFood(percentage)]: on a well-formed grid the pass
    ends and keeps the dimensions, the kinds of the tiles, the animals
    and the heap; water and rock are as they were; a grass tile with
    non-negative food keeps the share [1 - percentage] of it for a
    percentage between 0 and 1, and nothing for a percentage of 1 or
    more. *)
Theorem reduceWorldFood_contract (percentage : Q) (s : State)
    (Hwf : grid_wf (world s)) :
  exists s',
    reduceWorldFood percentage s = Some (tt, s') /\
    s' = with_grid s (grid (world s')) /\
    grid_wf (world s') /\
    forall p tile,
      tile_at (world s) p = Some tile ->
      exists tile',
        tile_at (world s') p = Some tile' /\
        type tile' = type tile /\
        (type tile <> grass -> tile' = tile) /\
        (type tile = grass -> 0 <= foodValue tile ->
         (0 <= percentage <= 1 ->
          foodValue tile' == foodValue tile * (1 - percentage)) /\
         (1 <= percentage -> foodValue tile' == 0)).
Proof.
  exists (with_grid s (map (map (shrink_tile percentage)) (grid (world s)))).
  split; [exact (reduceWorldFood_run percentage s Hwf)|].
  split; [reflexivity|]. split; [apply (grid_wf_map _ _ Hwf)|].
  intros p tile Ht. exists (shrink_tile percentage tile).
  split.
  { unfold tile_at in *. simpl. now rewrite tile_in_map, Ht. }
  unfold shrink_tile. destruct (type tile) eqn:Ety; simpl.
  - refine (conj eq_refl (conj _ _)); [congruence|].
    intros _ Hf. split; intros Hp.
    + rewrite Q.min_r by nra. ring.
    + rewrite Q.min_l by nra. ring.
  - refine (conj Ety (conj (fun _ => eq_refl) _)). discriminate.
  - refine (conj Ety (conj (fun _ => eq_refl) _)). discriminate.
Qed.

(** ** [World]: the registry *)

Lemma size_nonneg {V} (m : JsMap.t V) : (0 <= JsMap.size m)%Z.
Proof. unfold JsMap.size. lia. Qed.

Lemma size_set_le {V} k (v : V) m :
  (JsMap.size (JsMap.set k v m) <= JsMap.size m + 1)%Z.
Proof.
  destruct (JsMap.get k m) eqn:E.
  - rewrite size_set_present by eauto. lia.
  - rewrite size_set_absent by exact E. lia.
Qed.

Lemma pressure_of_range (size maxPopulation : Z) :
  (0 <= size)%Z -> (0 < maxPopulation)%Z ->
  (0 <= pressure_of size maxPopulation <= 10)%Z.
Proof.
  intros Hs Hm. unfold pressure_of, Math_floor. split; [|apply Z.le_min_l].
  apply Z.min_glb; [lia|].
  change 0%Z with (Qfloor 0). apply Qfloor_resp_le.
  assert (Hq : 0 <= inject_Z size / inject_Z maxPopulation).
  { apply Qle_shift_div_l.
    - change 0 with (inject_Z 0). now rewrite <- Zlt_Qlt.
    - rewrite Qmult_0_l. change 0 with (inject_Z 0). now rewrite <- Zle_Qle. }
  nra.
Qed.

Lemma wf_delete {V} k (m : JsMap.t V) : JsMap.wf m -> JsMap.wf (JsMap.delete k m).
Proof.
  unfold JsMap.wf. induction m as [|[k0 v0] r IH]; simpl; [auto|].
  intros Hnd. apply NoDup_cons in Hnd as [Hnin Hnd].
  destruct (String.eqb k0 k); [exact Hnd|]. simpl.
  apply NoDup_cons. split; [|auto].
  intros Hin. apply Hnin. apply list_elem_of_In in Hin. apply list_elem_of_In.
  clear -Hin. induction r as [|[k1 v1] r IH]; simpl in *; [tauto|].
  destruct (String.eqb k1 k); simpl in *; tauto.
Qed.

Lemma delete_absent {V} k (m : JsMap.t V) :
  JsMap.get k m = None -> JsMap.delete k m = m.
Proof.
  induction m as [|[k0 v0] r IH]; simpl; [reflexivity|].
  destruct (String.eqb k0 k); [discriminate|]. intros H. now rewrite IH.
Qed.

(** X10. The registry of a world stays within its bounds: the world
    that the constructor builds holds at most [max(0, maxPopulation)]
    animals under distinct ids with a congestion scale from 0 to 10, and
    [addAnimal] (whether it accepts or refuses) and [removeAnimal] keep
    it so. *)
Theorem registry_stays_ok :
  (forall (width height : Z) tape p,
      registry_ok (fst (World_new width height tape p))) /\
  (forall (s : State) (animal : loc) (a : Animal),
      registry_ok (world s) ->
      heap s !! animal = Some (OAnimal a) ->
      exists r s', addAnimal animal s = Some (r, s') /\
                   registry_ok (world s') /\
                   maxPopulation (world s') = maxPopulation (world s) /\
                   heap s' = heap s) /\
  (forall (s : State) (i : string),
      registry_ok (world s) ->
      exists s', removeAnimal i s = Some (tt, s') /\
                 registry_ok (world s') /\
                 maxPopulation (world s') = maxPopulation (world s) /\
                 heap s' = heap s).
Proof.
  refine (conj _ (conj _ _)).
  - intros w h tape p.
    destruct (World_new_fields w h tape p) as (_ & _ & Han & _ & Hp).
    unfold registry_ok. rewrite Han, Hp.
    refine (conj _ (conj _ _)); [constructor| |lia].
    unfold JsMap.size, JsMap.empty. simpl. lia.
  - intros s animal a (Hwf & Hsize & Hpr) Ha.
    destruct (Z_lt_ge_dec (JsMap.size (animals (world s)))
                (maxPopulation (world s))) as [Hroom|Hfull].
    + eexists. eexists. split; [exact (addAnimal_room _ _ _ Hroom Ha)|].
      simpl. refine (conj (conj _ (conj _ _)) (conj eq_refl eq_refl)).
      * simpl. now apply wf_set.
      * simpl. pose proof (size_set_le (id a) animal (animals (world s))). lia.
      * simpl. apply pressure_of_range; [apply size_nonneg|].
        pose proof (size_nonneg (animals (world s))). lia.
    + eexists. eexists. split; [exact (addAnimal_full _ _ Hfull)|].
      destruct (Z.ltb_spec (populationPressure (world s)) 5); simpl.
      * refine (conj (conj Hwf (conj Hsize _)) (conj eq_refl eq_refl)).
        simpl. lia.
      * refine (conj (conj Hwf (conj Hsize Hpr)) (conj eq_refl eq_refl)).
  - intros s i (Hwf & Hsize & Hpr). eexists.
    split; [apply removeAnimal_run|]. simpl.
    refine (conj (conj _ (conj _ Hpr)) (conj eq_refl eq_refl)).
    + simpl. now apply wf_delete.
    + simpl. pose proof (size_delete_le i (animals (world s))). lia.
Qed.

(** X11. [die()]: the animal's id leaves the registry and no other id
    does; the population goes down by one when the animal was
    registered; a second [die()] changes nothing; the animal's own
    objects stay on the heap, the grid and the congestion scale are as
    before. *)
Theorem die_contract (s : State) (this : loc) (a : Animal)
    (Ha : heap s !! this = Some (OAnimal a))
    (Hwf : JsMap.wf (animals (world s))) :
  exists s',
    die this s = Some (tt, s') /\
    getAnimal (id a) s' = Some (None, s') /\
    (forall i, i <> id a ->
               JsMap.get i (animals (world s')) =
               JsMap.get i (animals (world s))) /\
    (is_Some (JsMap.get (id a) (animals (world s))) ->
     JsMap.size (animals (world s')) =
     (JsMap.size (animals (world s)) - 1)%Z) /\
    (JsMap.get (id a) (animals (world s)) = None -> s' = s) /\
    die this s' = Some (tt, s') /\
    heap s' = heap s /\ grid (world s') = grid (world s) /\
    populationPressure (world s') = populationPressure (world s).
Proof.
  exists (set_world s (set_animals (world s)
                    (JsMap.delete (id a) (animals (world s))))).
  assert (Hgone : JsMap.get (id a)
                    (JsMap.delete (id a) (animals (world s))) = None)
    by now apply get_delete_eq.
  refine (conj (die_run s this a Ha) (conj _ (conj _ (conj _ (conj _
           (conj _ (conj eq_refl (conj eq_refl eq_refl)))))))).
  - unfold getAnimal. msimpl. now rewrite Hgone.
  - intros i Hne. simpl. apply get_delete_ne. congruence.
  - intros Hin. simpl. now apply size_delete_present.
  - intros Hnone. rewrite (delete_absent _ _ Hnone).
    destruct s as [h [w hh g an m pp] d t rp ut up]. reflexivity.
  - rewrite (die_run _ this a) by exact Ha. simpl.
    now rewrite (delete_absent _ _ Hgone).
Qed.

(** ** [Animal]: one tick of life *)

Lemma heap_insert_insert (h : list Obj) (l : loc) (o o' : Obj) :
  <[l := o]> (<[l := o']> h) = <[l := o]> h.
Proof. apply list_insert_insert_eq. Qed.

Lemma owns_with_stats s this a d p st st' :
  owns s this a d p st -> owns (with_stats s a st') this a d p st'.
Proof. apply owns_update_stats. Qed.

Lemma update_stats_again s this a d p st st1 f :
  owns s this a d p st ->
  update_stats this f (with_stats s a st1) =
  Some (tt, with_stats s a (f st1)).
Proof.
  intros Ho.
  rewrite (update_stats_run _ _ _ _ _ _ f (owns_with_stats _ _ _ _ _ _ st1 Ho)).
  unfold with_stats. simpl. now rewrite heap_insert_insert.
Qed.

Lemma update_stats_first s this a d p st f :
  owns s this a d p st ->
  update_stats this f s = Some (tt, with_stats s a (f st)).
Proof. apply update_stats_run. Qed.

Lemma Animal_update_ages (act : loc -> M unit) s this a d p st :
  owns s this a d p st ->
  Animal_update act this s =
  (if Qle_bool (health st) 0 || Qle_bool 100 (hunger (aged st)) then die this
   else
     dead <- (if Qltb (lifespan d * (7 # 10)) (age (aged st)) then
                r <- Math_random ;;
                if Qltb r (age_death_chance d (age (aged st)))
                then die this ;; ret true
                else ret false
              else ret false) ;;
     if dead : bool then ret tt else act this) (with_stats s a (aged st)).
Proof.
  intros Ho. unfold Animal_update.
  rewrite (bind_run _ _ _ _ _ (update_stats_first _ _ _ _ _ _ _ Ho)).
  rewrite (bind_run _ _ _ _ _ (update_stats_again _ _ _ _ _ _ _ _ Ho)).
  rewrite (bind_run _ _ _ _ _ (update_stats_again _ _ _ _ _ _ _ _ Ho)).
  simpl set_energy.
  pose proof (owns_with_stats _ _ _ _ _ _ (aged st) Ho) as Ho'.
  change (set_energy _ _) with (aged st).
  rewrite (bind_run _ _ _ _ _ (this_stats_run _ _ _ _ _ _ Ho')).
  change (health (aged st)) with (health st).
  destruct (Qle_bool (health st) 0 || Qle_bool 100 (hunger (aged st)));
    [reflexivity|].
  rewrite (bind_run _ _ _ _ _ (this_dna_run _ _ _ _ _ _ Ho')).
  reflexivity.
Qed.

Lemma Math_random_run (s : State) :
  Math_random s =
  Some (random_tape s (random_pos s), set_random_pos s (S (random_pos s))).
Proof. reflexivity. Qed.

Lemma bind_bind_run {A B C} (c : M A) (k : A -> M B) (k' : B -> M C)
    (s s' : State) (v : A) :
  c s = Some (v, s') -> bind (bind c k) k' s = bind (k v) k' s'.
Proof. intros H. unfold bind. now rewrite H. Qed.

(** X12. [update()] of a wounded or starving animal: with health at most
    0, or hunger of 99 or more at the start of the tick, the animal is
    taken out of the registry and [act()] is not run, whatever [act()]
    is; its stats have aged by the tick (age + 1, hunger + 1 capped at
    100, energy - 0.5 floored at 0), no random number is drawn and the
    grid is as before. *)
Theorem update_kills_without_acting (s : State) (this : loc) (a : Animal)
    (d : DNA.t) (p : Position) (st : AnimalStats)
    (Ho : owns s this a d p st)
    (Hwf : JsMap.wf (animals (world s)))
    (Hdying : health st <= 0 \/ 99 <= hunger st) :
  exists s',
    (forall act, Animal_update act this s = Some (tt, s')) /\
    JsMap.get (id a) (animals (world s')) = None /\
    (forall i, i <> id a ->
               JsMap.get i (animals (world s')) =
               JsMap.get i (animals (world s))) /\
    stats_of s' this = Some (aged st) /\
    random_pos s' = random_pos s /\
    grid (world s') = grid (world s).
Proof.
  pose proof (owns_with_stats _ _ _ _ _ _ (aged st) Ho) as Ho'.
  exists (set_world (with_stats s a (aged st))
            (set_animals (world s)
               (JsMap.delete (id a) (animals (world s))))).
  refine (conj _ (conj _ (conj _ (conj _ (conj eq_refl eq_refl))))).
  - intros act. rewrite (Animal_update_ages act _ _ _ _ _ _ Ho).
    assert (Hc : Qle_bool (health st) 0 || Qle_bool 100 (hunger (aged st))
                 = true).
    { apply orb_true_iff. destruct Hdying as [Hh|Hh]; [left|right];
        apply Qle_bool_iff; [exact Hh|].
      unfold aged. simpl. apply Q.min_glb; lra. }
    rewrite Hc. exact (die_run _ _ _ (owns_animal _ _ _ _ _ _ Ho')).
  - simpl. now apply get_delete_eq.
  - intros i Hne. simpl. apply get_delete_ne. congruence.
  - apply (owns_stats_of _ _ a d p). apply owns_set_world. exact Ho'.
Qed.



(** X14. [applyEnvironmentalStress(pressureLevel)] writes to the
    animal's own stats and to nothing else: up to level 5 the state is
    as before; above, hunger rises by at most 0.5 and energy falls by at
    most 0.3, without any cap or floor; health falls only above level 7,
    by 1, when the draw is below 0.05; age, genome, position and world
    are as before, and at most two numbers are drawn. *)
Theorem stress_contract (s : State) (this : loc) (a : Animal) (d : DNA.t)
    (p : Position) (st : AnimalStats) (pressureLevel : Z)
    (Ho : owns s this a d p st) :
  exists s' st',
    applyEnvironmentalStress this pressureLevel s = Some (tt, s') /\
    owns s' this a d p st' /\
    world s' = world s /\
    (random_pos s <= random_pos s' <= random_pos s + 2)%nat /\
    age st' = age st /\
    ((pressureLevel <= 5)%Z -> s' = s /\ st' = st) /\
    ((5 < pressureLevel <= 7)%Z ->
     st' = mkStats (health st) (energy st - (1 # 10)) (age st)
             (hunger st + (3 # 10)) /\
     random_pos s' = random_pos s) /\
    ((7 < pressureLevel)%Z ->
     energy st' = energy st - (3 # 10) /\
     hunger st' = hunger st + (5 # 10) /\
     health st' =
     if Qltb (random_tape s (random_pos s)) (5 # 100)
     then health st - 1 else health st).
Proof.
  unfold applyEnvironmentalStress.
  destruct (Z.gtb_spec pressureLevel 7) as [H7|H7].
  - rewrite (bind_run _ _ _ _ _ (update_stats_first _ _ _ _ _ _ _ Ho)).
    rewrite (bind_run _ _ _ _ _ (update_stats_again _ _ _ _ _ _ _ _ Ho)).
    rewrite (bind_run _ _ _ _ _ (Math_random_run _)).
    change (random_tape (with_stats _ _ _) (random_pos (with_stats _ _ _)))
      with (random_tape s (random_pos s)).
    destruct (Qltb (random_tape s (random_pos s)) (5 # 100)); simpl when.
    + pose proof (owns_set_random_pos _ _ _ _ _ _ (S (random_pos s))
                    (owns_with_stats _ _ _ _ _ _
                       (mkStats (health st) (energy st - (3 # 10)) (age st)
                          (hunger st + (5 # 10))) Ho)) as Ho2.
      rewrite (bind_run _ _ _ _ _ (update_stats_run _ _ _ _ _ _ _ Ho2)).
      eexists. eexists. split; [reflexivity|].
      split.
      { apply owns_set_random_pos.
        exact (owns_update_stats _ _ _ _ _ _ _ Ho2). }
      simpl. repeat split; try lia.
    + eexists. eexists. split; [reflexivity|].
      split.
      { apply owns_set_random_pos.
        apply (owns_with_stats _ _ _ _ _ _ _ Ho). }
      simpl. repeat split; try lia.
  - destruct (Z.gtb_spec pressureLevel 5) as [H5|H5].
    + rewrite (bind_run _ _ _ _ _ (update_stats_first _ _ _ _ _ _ _ Ho)).
      rewrite (update_stats_again _ _ _ _ _ _ _ _ Ho).
      eexists. eexists. split; [reflexivity|].
      split; [apply (owns_with_stats _ _ _ _ _ _ _ Ho)|].
      simpl. repeat split; try lia.
    + exists s, st. split; [reflexivity|]. split; [exact Ho|].
      repeat split; try lia.
Qed.

(** ** [Animal]: maturity and temper *)

(** X15. [isAdult()] reads and changes nothing; an animal younger than 15
    is never adult, whatever its genes; with a maturity gene of at most 1
    (or none) an animal of 35 or more is adult; without the gene the
    threshold is 25, and with the 0.4 of the Fluffles it is 23. *)
Theorem isAdult_thresholds (s : State) (this : loc) (a : Animal) (d : DNA.t)
    (p : Position) (st : AnimalStats)
    (Ho : owns s this a d p st) :
  exists b,
    isAdult this s = Some (b, s) /\
    (age st < 15 -> b = false) /\
    ((forall g, DNA.getGene "maturityAge" d = Some g -> value g <= 1) ->
     35 <= age st -> b = true) /\
    (DNA.getGene "maturityAge" d = None -> (b = true <-> 25 <= age st)) /\
    (forall g, DNA.getGene "maturityAge" d = Some g -> value g == 4 # 10 ->
               (b = true <-> 23 <= age st)).
Proof.
  exists (adult d st). split; [exact (isAdult_run _ _ _ _ _ _ Ho)|].
  unfold adult, maturityAge.
  refine (conj _ (conj _ (conj _ _))).
  - intros Hage. destruct (Qle_bool _ (age st)) eqn:E; [|reflexivity].
    apply Qle_bool_iff in E.
    pose proof (Q.le_max_l 15 (25 + match DNA.getGene "maturityAge" d with
                                     | Some g => value g * 20 - 10
                                     | None => 0
                                     end)).
    lra.
  - intros Hg Hage. apply Qle_bool_iff. apply Q.max_lub; [lra|].
    destruct (DNA.getGene "maturityAge" d) as [g|]; [|lra].
    specialize (Hg g eq_refl). lra.
  - intros ->. rewrite Qle_bool_iff. rewrite Q.max_r by lra. split; lra.
  - intros g -> Hv. rewrite Qle_bool_iff. rewrite Q.max_r by lra.
    split; lra.
Qed.

(** X16. [shouldBeAggressive()] draws one number and changes nothing
    else; the answer is true exactly when the draw is below the tendency
    [0.3 aggression + 0.2 max(0, 1 - energy/100) + 0.4 hunger/100 - 0.3
    friendship] (absent genes counting 0.3 and 0.5).  For genes between 0
    and 1, energy of at least 0 and hunger of at most 100 the tendency is
    at most 0.9; a rested animal without hunger whose aggression does not
    exceed its friendship is never aggressive. *)
Theorem shouldBeAggressive_contract (s : State) (this : loc) (a : Animal)
    (d : DNA.t) (p : Position) (st : AnimalStats)
    (Ho : owns s this a d p st) :
  let aggression := gene_or "aggression" (3 # 10) d in
  let friendship := gene_or "friendship" (5 # 10) d in
  let tendency :=
    aggression * (3 # 10) + Qmax 0 (1 - energy st / 100) * (2 # 10)
    + hunger st / 100 * (4 # 10) - friendship * (3 # 10) in
  let r := random_tape s (random_pos s) in
  shouldBeAggressive this s =
    Some (Qltb r tendency, set_random_pos s (S (random_pos s))) /\
  (aggression <= 1 -> 0 <= friendship -> 0 <= energy st ->
   hunger st <= 100 -> tendency <= 9 # 10) /\
  (aggression <= friendship -> 100 <= energy st -> hunger st <= 0 ->
   0 <= r -> Qltb r tendency = false).
Proof.
  intros aggression friendship tendency r.
  refine (conj _ (conj _ _)).
  - unfold shouldBeAggressive.
    rewrite (bind_run _ _ _ _ _ (this_dna_run _ _ _ _ _ _ Ho)).
    rewrite (bind_run _ _ _ _ _ (this_stats_run _ _ _ _ _ _ Ho)).
    rewrite (bind_run _ _ _ _ _ (Math_random_run _)).
    reflexivity.
  - intros Ha Hf He Hh. unfold tendency, Qdiv.
    change (/ 100) with (1 # 100).
    assert (Hmax : Qmax 0 (1 - energy st * (1 # 100)) <= 1)
      by (apply Q.max_lub; lra).
    lra.
  - intros Haf He Hh Hr. apply Qltb_ge. unfold tendency, Qdiv.
    change (/ 100) with (1 # 100).
    rewrite Q.max_l by lra. lra.
Qed.

(** ** [Simulation]: disasters and challenges *)

Lemma spared_refl (s : State) : spared s s.
Proof. unfold spared. auto 10. Qed.

Lemma spared_trans (s1 s2 s3 : State) :
  spared s1 s2 -> spared s2 s3 -> spared s1 s3.
Proof.
  intros (H1 & H2 & H3 & H4 & H5 & H6 & H7) (K1 & K2 & K3 & K4 & K5 & K6 & K7).
  unfold spared. refine (conj _ (conj _ (conj _ (conj _ (conj _ (conj _ _))))));
    try congruence.
  intros l o Hl. apply K1, H1, Hl.
Qed.

Lemma spared_stats (s s' : State) (ls : list loc) :
  spared s s' ->
  Forall (fun l => is_Some (stats_of s l)) ls ->
  Forall (fun l => is_Some (stats_of s' l)) ls.
Proof.
  intros (Hext & _) Hall. eapply Forall_impl; [exact Hall|].
  intros l [st Hst]. exists st. now apply (stats_of_extends s s').
Qed.

Lemma kinds_rows (g g' : list (list Tile)) :
  map (map type) g' = map (map type) g ->
  length g' = length g /\
  forall n, Forall (fun row => length row = n) g ->
            Forall (fun row => length row = n) g'.
Proof.
  intros E. split.
  - now rewrite <- (length_map (map type) g'), E, length_map.
  - intros n Hall. apply List.Forall_forall. intros r' Hin.
    apply list_elem_of_In, list_elem_of_lookup_1 in Hin as [i Hi].
    pose proof (lookup_map (map type) g' i) as L'.
    pose proof (lookup_map (map type) g i) as L.
    rewrite Hi in L'. rewrite E, L in L'.
    destruct (g !! i) as [r|] eqn:Er; [|discriminate].
    injection L' as L'.
    rewrite <- (length_map type r'), <- L', length_map.
    eapply List.Forall_forall in Hall; [exact Hall|].
    apply list_elem_of_In. eapply list_elem_of_lookup_2. exact Er.
Qed.

Lemma spared_grid_wf (s s' : State) :
  spared s s' -> grid_wf (world s) -> grid_wf (world s').
Proof.
  intros (_ & _ & _ & _ & Hw & Hh & Hk) [Hlen Hrows].
  destruct (kinds_rows _ _ Hk) as [Hl Hr]. split.
  - now rewrite Hl, Hh.
  - rewrite Hw. now apply Hr.
Qed.

Lemma map_insert {A B} (f : A -> B) (l : list A) (i : nat) (v : A) :
  map f (<[i := v]> l) = <[i := f v]> (map f l).
Proof.
  revert i. induction l as [|w l IH]; intros [|i]; simpl; auto.
  now rewrite IH.
Qed.

Lemma spared_cell (s : State) (j i : nat) (row : list Tile) (tile : Tile)
    (v : Q) :
  grid (world s) !! j = Some row -> row !! i = Some tile ->
  spared s (with_grid s (<[j := <[i := mkTile (type tile) v]> row]>
                           (grid (world s)))).
Proof.
  intros Hrow Htile. unfold spared. simpl.
  refine (conj (fun _ _ H => H) (conj eq_refl (conj eq_refl (conj eq_refl
           (conj eq_refl (conj eq_refl _)))))).
  rewrite !map_insert. simpl.
  rewrite (list_insert_id (map type row) i (type tile))
    by (now rewrite lookup_map, Htile).
  apply list_insert_id. now rewrite lookup_map, Hrow.
Qed.

Lemma spared_shrink (s : State) (percentage : Q) :
  spared s (with_grid s (map (map (shrink_tile percentage)) (grid (world s)))).
Proof.
  unfold spared. simpl.
  refine (conj (fun _ _ H => H) (conj eq_refl (conj eq_refl (conj eq_refl
           (conj eq_refl (conj eq_refl _)))))).
  rewrite map_map. apply map_ext. intros row.
  rewrite map_map. apply map_ext. intros tile.
  unfold shrink_tile. now destruct (type tile) eqn:E.
Qed.

Lemma spared_heap (s s' : State) :
  (forall (l : loc) o, heap s !! l = Some o -> heap s' !! l = Some o) ->
  world s' = world s -> spared s s'.
Proof. intros Hext Hw. unfold spared. rewrite Hw. auto 10. Qed.

(** A loop whose every turn spares the state spares it. *)
Lemma forEach_spared {X} (Inv : State -> Prop) (body : X -> M unit)
    (xs : list X) :
  (forall v s, In v xs -> Inv s ->
     exists s', body v s = Some (tt, s') /\ spared s s' /\ Inv s' /\
                disaster s' = disaster s) ->
  forall s, Inv s ->
    exists s', forEach xs body s = Some (tt, s') /\ spared s s' /\ Inv s' /\
               disaster s' = disaster s.
Proof.
  induction xs as [|v xs IH]; intros Hbody s Hs.
  - exists s. split; [reflexivity|]. split; [apply spared_refl|]. auto.
  - destruct (Hbody v s (or_introl eq_refl) Hs) as (s1 & Hrun1 & Hsp1 & Hi1 & Hd1).
    destruct (IH (fun w t Hin => Hbody w t (or_intror Hin)) s1 Hi1)
      as (s' & Hrun & Hsp & Hi & Hd).
    exists s'. split.
    + simpl. now rewrite (bind_run _ _ _ _ _ Hrun1).
    + split; [eapply spared_trans; eauto|]. split; [exact Hi|congruence].
Qed.

Lemma untouched_refl (s : State) : untouched s s.
Proof. unfold untouched. auto. Qed.

Lemma untouched_trans (s1 s2 s3 : State) :
  untouched s1 s2 -> untouched s2 s3 -> untouched s1 s3.
Proof.
  intros (H1 & H2 & H3) (K1 & K2 & K3). unfold untouched.
  refine (conj _ (conj _ _)); try congruence.
  intros l o Hl. apply K1, H1, Hl.
Qed.

Lemma untouched_spared (s s' : State) : untouched s s' -> spared s s'.
Proof. intros (H1 & H2 & _). now apply spared_heap. Qed.

Lemma untouched_draw (s : State) :
  untouched s (set_random_pos s (S (random_pos s))).
Proof. unfold untouched. auto. Qed.

(** A loop over animals whose every turn leaves the state untouched. *)
Lemma forEach_untouched (body : loc -> M unit) (animals : list loc) :
  (forall animal s, is_Some (stats_of s animal) ->
     exists s', body animal s = Some (tt, s') /\ untouched s s') ->
  forall s, Forall (fun l => is_Some (stats_of s l)) animals ->
    exists s', forEach animals body s = Some (tt, s') /\ untouched s s'.
Proof.
  intros Hbody. induction animals as [|animal animals IH]; intros s Hall.
  - exists s. split; [reflexivity | apply untouched_refl].
  - apply Forall_cons in Hall as [Hst Hall].
    destruct (Hbody animal s Hst) as (s1 & Hrun1 & Hun1).
    destruct (IH s1) as (s' & Hrun & Hun).
    { eapply Forall_impl; [exact Hall|]. intros l [st0 H0].
      exists st0. eapply stats_of_extends; [apply Hun1 | exact H0]. }
    exists s'. split.
    + simpl. now rewrite (bind_run _ _ _ _ _ Hrun1).
    + eapply untouched_trans; eauto.
Qed.

Lemma assign_stats_run (s : State) (ref : loc) (st : AnimalStats)
    (f : AnimalStats -> AnimalStats) :
  heap s !! ref = Some (OStats st) ->
  assign_stats ref f s =
  Some (tt, set_heap s (<[ref := OStats (f st)]> (heap s))).
Proof.
  intros H. unfold assign_stats.
  rewrite (bind_run _ _ _ _ _ (read_stats_run _ _ _ H)).
  exact (write_run _ _ _ _ H).
Qed.

Lemma lookup_copy_written (h : list Obj) (o o' v : Obj) (l : loc) :
  h !! l = Some v -> <[length h := o']> (h ++ [o]) !! l = Some v.
Proof.
  intros H. rewrite lookup_write_other.
  - now apply lookup_alloc_old.
  - apply lookup_lt_Some in H. lia.
Qed.

(** [const stats = animal.getStats(); stats.f = ...]. *)
Lemma copy_step (f : AnimalStats -> AnimalStats) (animal : loc) (s : State) :
  is_Some (stats_of s animal) ->
  exists s',
    (stats <- getStats animal ;; assign_stats stats f) s = Some (tt, s') /\
    untouched s s'.
Proof.
  intros [st Hst].
  destruct (assign_to_copy s animal st f Hst)
    as (s' & Hrun & Hext & _ & Hw & Hd & _).
  exists s'. split; [exact Hrun|]. unfold untouched. auto.
Qed.

(** The loop of the cold snap. *)
Lemma coldSnap_step (f1 f2 : AnimalStats -> AnimalStats) (chance : Q)
    (animal : loc) (s : State) :
  is_Some (stats_of s animal) ->
  exists s',
    (stats <- getStats animal ;;
     assign_stats stats f1 ;;
     r <- Math_random ;;
     when (Qltb r chance)
       (assign_stats stats f2 ;;
        _ <- Math_random ;;
        ret tt)) s = Some (tt, s') /\
    untouched s s'.
Proof.
  intros [st Hst].
  rewrite (bind_run _ _ _ _ _ (getStats_run' _ _ _ Hst)).
  erewrite (bind_run (assign_stats _ _))
    by (apply assign_stats_run; simpl; apply lookup_alloc_new).
  rewrite (bind_run _ _ _ _ _ (Math_random_run _)).
  destruct (Qltb _ chance); simpl when.
  - erewrite (bind_run (assign_stats _ _)).
    2:{ apply (assign_stats_run _ _ (f1 st)). simpl.
        apply (lookup_write_same _ (OStats st)). apply lookup_alloc_new. }
    rewrite (bind_run _ _ _ _ _ (Math_random_run _)).
    eexists. split; [reflexivity|]. unfold untouched. simpl.
    refine (conj _ (conj eq_refl eq_refl)). intros l o Hl.
    rewrite heap_insert_insert. now apply lookup_copy_written.
  - eexists. split; [reflexivity|]. unfold untouched. simpl.
    refine (conj _ (conj eq_refl eq_refl)). intros l o Hl.
    now apply lookup_copy_written.
Qed.

Lemma injure_untouched (chance damage : Q) (animals : list loc) (s : State) :
  Forall (fun l => is_Some (stats_of s l)) animals ->
  exists s', injure animals chance damage s = Some (tt, s') /\ untouched s s'.
Proof.
  intros Hall.
  destruct (injure_spares chance damage animals s Hall)
    as (s' & Hrun & Hext & Hw & Hd).
  exists s'. split; [exact Hrun|]. unfold untouched. auto.
Qed.

(** One turn of the loop that damages the terrain in an earthquake. *)
Lemma quake_turn (intensity : Q) (s : State) :
  grid_wf (world s) ->
  exists s',
    (w <- the_world ;;
     rx <- Math_random ;;
     let px := Math_floor (rx * inject_Z (width w)) in
     ry <- Math_random ;;
     let py := Math_floor (ry * inject_Z (height w)) in
     let position := mkPosition px py in
     tile <- getTile position ;;
     match tile with
     | Some tile =>
         match type tile with
         | grass =>
             _ <- consumeFood position (foodValue tile * intensity) ;;
             ret tt
         | _ => ret tt
         end
     | None => ret tt
     end) s = Some (tt, s') /\
    spared s s' /\ grid_wf (world s') /\ heap s' = heap s /\
    disaster s' = disaster s.
Proof.
  intros Hwf.
  rewrite (bind_run _ _ s s (world s)) by reflexivity.
  rewrite (bind_run _ _ _ _ _ (Math_random_run _)).
  cbv zeta.
  rewrite (bind_run _ _ _ _ _ (Math_random_run _)).
  set (s1 := set_random_pos s (S (random_pos s))).
  set (s2 := set_random_pos s1 (S (random_pos s1))).
  set (position := mkPosition _ _).
  assert (Hs2 : spared s s2) by (apply spared_heap; [auto | reflexivity]).
  assert (Hwf2 : grid_wf (world s2)) by exact Hwf.
  destruct (position_valid (world s2) position) eqn:Hv.
  - destruct (grid_wf_cell _ _ Hwf2 Hv) as (row & tile & Hrow & Htile & _).
    rewrite (bind_run _ _ _ _ _ (getTile_inside _ s2 row Hv Hrow)), Htile.
    destruct (type tile) eqn:Ety.
    + rewrite (bind_run _ _ _ _ _
                 (consumeFood_run _ _ s2 row tile Hv Hrow Htile)).
      eexists. split; [reflexivity|].
      refine (conj _ (conj _ (conj eq_refl eq_refl))).
      * eapply spared_trans; [exact Hs2|].
        apply (spared_cell s2 _ _ row tile); assumption.
      * apply (grid_wf_insert (world s2)); assumption.
    + exists s2. auto.
    + exists s2. auto.
  - rewrite (bind_run _ _ _ _ _ (getTile_outside _ s2 Hv)).
    exists s2. auto.
Qed.

Lemma quake_terrain (intensity : Q) (n : Z) (s : State) :
  grid_wf (world s) ->
  exists s',
    forEach (upto n) (fun _ : Z =>
      w <- the_world ;;
      rx <- Math_random ;;
      let px := Math_floor (rx * inject_Z (width w)) in
      ry <- Math_random ;;
      let py := Math_floor (ry * inject_Z (height w)) in
      let position := mkPosition px py in
      tile <- getTile position ;;
      match tile with
      | Some tile =>
          match type tile with
          | grass =>
              _ <- consumeFood position (foodValue tile * intensity) ;;
              ret tt
          | _ => ret tt
          end
      | None => ret tt
      end) s = Some (tt, s') /\
    spared s s' /\ heap s' = heap s /\ disaster s' = disaster s.
Proof.
  intros Hwf.
  destruct (forEach_spared
              (fun t => grid_wf (world t) /\ heap t = heap s)
              _ (upto n)
              (fun _ t _ Hi =>
                 match quake_turn intensity t (proj1 Hi) with
                 | ex_intro _ t' (conj Hrun (conj Hsp (conj Hwf' (conj Hh Hd)))) =>
                     ex_intro _ t'
                       (conj Hrun (conj Hsp
                          (conj (conj Hwf' (eq_trans Hh (proj2 Hi))) Hd)))
                 end)
              s (conj Hwf eq_refl))
    as (s' & Hrun & Hsp & [_ Hh] & Hd).
  exists s'. auto.
Qed.

Ltac enter_effects s :=
  unfold applyDisasterEffects, getAllAnimals, getDisaster;
  rewrite (bind_run _ _ s s (JsMap.values (animals (world s)))) by reflexivity;
  rewrite (bind_run _ _ s s (disaster s)) by reflexivity;
  cbv zeta.

Lemma effects_earthquake (s : State) :
  disasterType (disaster s) = "earthquake"%string ->
  grid_wf (world s) ->
  Forall (fun l => is_Some (stats_of s l)) (JsMap.values (animals (world s))) ->
  exists s',
    applyDisasterEffects s = Some (tt, s') /\
    spared s s' /\ disaster s' = disaster s.
Proof.
  intros Hkind Hwf Hall. enter_effects s. rewrite Hkind.
  change ("earthquake" =? "earthquake")%string with true. cbv iota.
  rewrite (bind_run _ _ _ _ _ (Math_random_run _)).
  set (s1 := set_random_pos s (S (random_pos s))).
  assert (Hs1 : spared s s1) by (apply spared_heap; [auto | reflexivity]).
  assert (Hterrain : exists s2,
    when (Qltb (random_tape s (random_pos s)) (3 # 10))
      (forEach (upto 5) (fun _ : Z =>
         w <- the_world ;;
         rx <- Math_random ;;
         let px := Math_floor (rx * inject_Z (width w)) in
         ry <- Math_random ;;
         let py := Math_floor (ry * inject_Z (height w)) in
         let position := mkPosition px py in
         tile <- getTile position ;;
         match tile with
         | Some tile =>
             match type tile with
             | grass =>
                 _ <- consumeFood position
                        (foodValue tile * disasterIntensity (disaster s)) ;;
                 ret tt
             | _ => ret tt
             end
         | None => ret tt
         end)) s1 = Some (tt, s2) /\
    spared s1 s2 /\ heap s2 = heap s1 /\ disaster s2 = disaster s1).
  { destruct (Qltb _ (3 # 10)); simpl when.
    - exact (quake_terrain (disasterIntensity (disaster s)) 5 s1 Hwf).
    - exists s1. split; [reflexivity|]. split; [apply spared_refl|]. auto. }
  destruct Hterrain as (s2 & Hrun2 & Hsp2 & Hh2 & Hd2).
  rewrite (bind_run _ _ _ _ _ Hrun2).
  assert (Hall2 : Forall (fun l => is_Some (stats_of s2 l))
                    (JsMap.values (animals (world s)))).
  { apply (spared_stats s s2); [|exact Hall].
    exact (spared_trans _ _ _ Hs1 Hsp2). }
  destruct (injure_untouched
              (disasterIntensity (disaster s) * (2 # 10))
              (inject_Z (Math_floor (20 * disasterIntensity (disaster s))))
              (JsMap.values (animals (world s))) s2 Hall2)
    as (s' & Hrun & Hun).
  exists s'. split; [exact Hrun|]. split.
  - eapply spared_trans; [exact Hs1|]. eapply spared_trans; [exact Hsp2|].
    now apply untouched_spared.
  - destruct Hun as (_ & _ & Hd). rewrite Hd, Hd2. reflexivity.
Qed.

Lemma effects_drought (s : State) :
  disasterType (disaster s) = "drought"%string ->
  grid_wf (world s) ->
  Forall (fun l => is_Some (stats_of s l)) (JsMap.values (animals (world s))) ->
  exists s',
    applyDisasterEffects s = Some (tt, s') /\
    spared s s' /\ disaster s' = disaster s /\
    grid (world s') =
    if (Z.rem (disasterDuration (disaster s)) 5 =? 0)%Z
    then map (map (shrink_tile ((1 # 10) * disasterIntensity (disaster s))))
           (grid (world s))
    else grid (world s).
Proof.
  intros Hkind Hwf Hall. enter_effects s. rewrite Hkind.
  change ("drought" =? "earthquake")%string with false.
  change ("drought" =? "drought")%string with true. cbv iota.
  assert (Hfood : exists s1,
    when (Z.rem (disasterDuration (disaster s)) 5 =? 0)%Z
      (reduceWorldFood ((1 # 10) * disasterIntensity (disaster s)) ;;
       _ <- Math_random ;;
       ret tt) s = Some (tt, s1) /\
    spared s s1 /\ disaster s1 = disaster s /\
    grid (world s1) =
    if (Z.rem (disasterDuration (disaster s)) 5 =? 0)%Z
    then map (map (shrink_tile ((1 # 10) * disasterIntensity (disaster s))))
           (grid (world s))
    else grid (world s)).
  { destruct (Z.rem (disasterDuration (disaster s)) 5 =? 0)%Z; simpl when.
    - rewrite (bind_run _ _ _ _ _ (reduceWorldFood_run _ s Hwf)).
      rewrite (bind_run _ _ _ _ _ (Math_random_run _)).
      eexists. split; [reflexivity|].
      refine (conj _ (conj eq_refl eq_refl)).
      eapply spared_trans; [apply spared_shrink|].
      apply spared_heap; [auto | reflexivity].
    - exists s. split; [reflexivity|]. split; [apply spared_refl|]. auto. }
  destruct Hfood as (s1 & Hrun1 & Hsp1 & Hd1 & Hg1).
  rewrite (bind_run _ _ _ _ _ Hrun1).
  destruct (forEach_untouched
              (fun animal =>
                 stats <- getStats animal ;;
                 assign_stats stats (fun st =>
                   set_hunger st
                     (hunger st + disasterIntensity (disaster s) * 2)))
              (JsMap.values (animals (world s)))
              (fun animal t Hst => copy_step _ animal t Hst) s1
              (spared_stats s s1 _ Hsp1 Hall))
    as (s' & Hrun & Hext & Hw & Hd).
  exists s'. split; [exact Hrun|]. split.
  - eapply spared_trans; [exact Hsp1|].
    apply untouched_spared. unfold untouched. auto.
  - split; [congruence|]. now rewrite Hw.
Qed.

Lemma effects_other (s : State) :
  disasterType (disaster s) <> "earthquake"%string ->
  disasterType (disaster s) <> "drought"%string ->
  Forall (fun l => is_Some (stats_of s l)) (JsMap.values (animals (world s))) ->
  exists s', applyDisasterEffects s = Some (tt, s') /\ untouched s s'.
Proof.
  intros Hq Hd Hall. enter_effects s.
  destruct (String.eqb_spec (disasterType (disaster s)) "earthquake");
    [contradiction|].
  destruct (String.eqb_spec (disasterType (disaster s)) "drought");
    [contradiction|].
  destruct (String.eqb (disasterType (disaster s)) "disease").
  { apply injure_untouched. exact Hall. }
  destruct (String.eqb (disasterType (disaster s)) "coldSnap").
  { exact (forEach_untouched _ _
             (fun animal t Hst => coldSnap_step _ _ _ animal t Hst) s Hall). }
  exists s. split; [reflexivity | apply untouched_refl].
Qed.


Lemma position_of_extends (s s' : State) (l : loc) (p : Position) :
  (forall (l : loc) o, heap s !! l = Some o -> heap s' !! l = Some o) ->
  position_of s l = Some p -> position_of s' l = Some p.
Proof.
  intros Hext. unfold position_of.
  destruct (heap s !! l) as [[a| | |]|] eqn:Ea; try discriminate.
  destruct (heap s !! position a) as [[| |p0|]|] eqn:Ep; try discriminate.
  intros [= ->]. now rewrite (Hext _ _ Ea), (Hext _ _ Ep).
Qed.

(** X17. The per-tick effects of a disaster, whatever its kind: the
    call ends; no object of the heap changes, so every animal keeps its
    stats and its position (the damage goes to copies made by
    [getStats()]); the registry, the capacity, the congestion scale, the
    dimensions and the kinds of the tiles are as before, and so is the
    disaster itself.  Only the food of the tiles can change: not at all
    unless the kind is earthquake or drought, and for a drought exactly
    on the ticks whose remaining duration is a multiple of 5, when every
    grass tile is reduced by the share [0.1 * intensity]. *)
Theorem disasters_spare_animals (s : State)
    (Hwf : grid_wf (world s))
    (Hall : Forall (fun l => is_Some (stats_of s l))
              (JsMap.values (animals (world s)))) :
  exists s',
    applyDisasterEffects s = Some (tt, s') /\
    spared s s' /\ disaster s' = disaster s /\
    (forall l st, stats_of s l = Some st -> stats_of s' l = Some st) /\
    (forall l p, position_of s l = Some p -> position_of s' l = Some p) /\
    grid_wf (world s') /\
    (disasterType (disaster s) = "drought"%string ->
     grid (world s') =
     if (Z.rem (disasterDuration (disaster s)) 5 =? 0)%Z
     then map (map (shrink_tile ((1 # 10) * disasterIntensity (disaster s))))
            (grid (world s))
     else grid (world s)) /\
    (disasterType (disaster s) <> "earthquake"%string ->
     disasterType (disaster s) <> "drought"%string ->
     world s' = world s).
Proof.
  assert (Hmain : exists s',
    applyDisasterEffects s = Some (tt, s') /\
    spared s s' /\ disaster s' = disaster s /\
    (disasterType (disaster s) = "drought"%string ->
     grid (world s') =
     if (Z.rem (disasterDuration (disaster s)) 5 =? 0)%Z
     then map (map (shrink_tile ((1 # 10) * disasterIntensity (disaster s))))
            (grid (world s))
     else grid (world s)) /\
    (disasterType (disaster s) <> "earthquake"%string ->
     disasterType (disaster s) <> "drought"%string ->
     world s' = world s)).
  { destruct (string_dec (disasterType (disaster s)) "earthquake") as [Hq|Hq].
    { destruct (effects_earthquake s Hq Hwf Hall) as (s' & Hrun & Hsp & Hdis).
      exists s'. refine (conj Hrun (conj Hsp (conj Hdis (conj _ _)))).
      - intros Hd. rewrite Hq in Hd. discriminate.
      - intros Hne. contradiction. }
    destruct (string_dec (disasterType (disaster s)) "drought") as [Hd|Hd].
    { destruct (effects_drought s Hd Hwf Hall)
        as (s' & Hrun & Hsp & Hdis & Hgrid).
      exists s'. refine (conj Hrun (conj Hsp (conj Hdis (conj _ _)))).
      - intros _. exact Hgrid.
      - intros _ Hne. contradiction. }
    destruct (effects_other s Hq Hd Hall) as (s' & Hrun & Hext & Hw & Hdis).
    exists s'. split; [exact Hrun|].
    split; [apply untouched_spared; unfold untouched; auto|].
    split; [exact Hdis|]. split; [contradiction | auto]. }
  destruct Hmain as (s' & Hrun & Hsp & Hdis & Hdrought & Hother).
  exists s'.
  refine (conj Hrun (conj Hsp (conj Hdis (conj _ (conj _ (conj _
           (conj Hdrought Hother))))))).
  - intros l st. apply stats_of_extends. apply Hsp.
  - intros l p. apply position_of_extends. apply Hsp.
  - exact (spared_grid_wf s s' Hsp Hwf).
Qed.





Lemma forEach_untouched_inv {X} (Inv : State -> Prop) (body : X -> M unit)
    (xs : list X) :
  (forall v s, Inv s ->
     exists s', body v s = Some (tt, s') /\ untouched s s' /\ Inv s') ->
  forall s, Inv s ->
    exists s', forEach xs body s = Some (tt, s') /\ untouched s s' /\ Inv s'.
Proof.
  intros Hbody. induction xs as [|v xs IH]; intros s Hs.
  - exists s. split; [reflexivity|]. split; [apply untouched_refl | exact Hs].
  - destruct (Hbody v s Hs) as (s1 & Hrun1 & Hun1 & Hi1).
    destruct (IH s1 Hi1) as (s' & Hrun & Hun & Hi).
    exists s'. split.
    + simpl. now rewrite (bind_run _ _ _ _ _ Hrun1).
    + split; [eapply untouched_trans; eauto | exact Hi].
Qed.

Lemma disease_turn (animals : list loc) (s : State) :
  (0 < length animals)%nat ->
  Forall (fun l => is_Some (stats_of s l)) animals ->
  (forall n, 0 <= random_tape s n /\ random_tape s n < 1) ->
  exists s',
    (r <- Math_random ;;
     let randomIndex :=
       Math_floor (r * inject_Z (Z.of_nat (length animals))) in
     match (if (randomIndex <? 0)%Z then None
            else animals !! Z.to_nat randomIndex) with
     | Some animal =>
         stats <- getStats animal ;;
         assign_stats stats (fun st => set_health st (health st - 20)) ;;
         _ <- Math_random ;;
         ret tt
     | None => fail
     end) s = Some (tt, s') /\
    untouched s s' /\
    Forall (fun l => is_Some (stats_of s' l)) animals /\
    (forall n, 0 <= random_tape s' n /\ random_tape s' n < 1).
Proof.
  intros Hlen Hall Hdraws.
  rewrite (bind_run _ _ _ _ _ (Math_random_run _)). cbv zeta.
  set (s1 := set_random_pos s (S (random_pos s))).
  pose proof (floor_draw_bounds (random_tape s (random_pos s))
                (Z.of_nat (length animals)) ltac:(lia)
                (proj1 (Hdraws _)) (proj2 (Hdraws _))) as Hi.
  destruct (Z.ltb_spec
              (Math_floor (random_tape s (random_pos s)
                           * inject_Z (Z.of_nat (length animals)))) 0);
    [lia|].
  destruct (lookup_lt_is_Some_2 animals
              (Z.to_nat (Math_floor (random_tape s (random_pos s)
                                     * inject_Z (Z.of_nat (length animals))))))
    as [animal Hanimal]; [lia|].
  rewrite Hanimal.
  assert (Hst : is_Some (stats_of s1 animal)).
  { eapply List.Forall_forall in Hall; [exact Hall|].
    apply list_elem_of_In. eapply list_elem_of_lookup_2. exact Hanimal. }
  destruct Hst as [st Hst].
  destruct (assign_to_copy s1 animal st
              (fun st => set_health st (health st - 20)) Hst)
    as (s2 & Hrun2 & Hext2 & _ & Hw2 & Hd2 & _ & Ht2).
  erewrite (bind_run (getStats animal)).
  2:{ exact (getStats_run' _ _ _ Hst). }
  assert (Hrun2' :
    assign_stats (length (heap s1))
      (fun st => set_health st (health st - 20))
      (set_heap s1 (heap s1 ++ [OStats st])) = Some (tt, s2)).
  { rewrite (bind_run _ _ _ _ _ (getStats_run' _ _ _ Hst)) in Hrun2.
    exact Hrun2. }
  rewrite (bind_run _ _ _ _ _ Hrun2').
  rewrite (bind_run _ _ _ _ _ (Math_random_run _)).
  eexists. split; [reflexivity|].
  split; [|split].
  - unfold untouched. simpl. auto.
  - eapply Forall_impl; [exact Hall|]. intros l [st0 H0].
    exists st0. apply (stats_of_extends s); [|exact H0].
    intros l0 o Hl0. simpl. apply Hext2. exact Hl0.
  - intros n. simpl. rewrite Ht2. apply Hdraws.
Qed.

Lemma applyDisease_untouched (s : State) :
  Forall (fun l => is_Some (stats_of s l)) (JsMap.values (animals (world s))) ->
  (forall n, 0 <= random_tape s n /\ random_tape s n < 1) ->
  exists s', applyDisease s = Some (tt, s') /\ untouched s s'.
Proof.
  intros Hall Hdraws. unfold applyDisease, getAllAnimals.
  rewrite (bind_run _ _ s s (JsMap.values (animals (world s)))) by reflexivity.
  cbv zeta.
  destruct (Nat.eq_dec (length (JsMap.values (animals (world s)))) 0%nat)
    as [Hempty|Hsome].
  { rewrite Hempty. exists s. split; [reflexivity | apply untouched_refl]. }
  destruct (forEach_untouched_inv
              (fun t =>
                 Forall (fun l => is_Some (stats_of t l))
                   (JsMap.values (animals (world s))) /\
                 (forall n, 0 <= random_tape t n /\ random_tape t n < 1))
              _ (upto (Math_ceil
                         (inject_Z (Z.of_nat
                            (length (JsMap.values (animals (world s)))))
                          * (2 # 10))))
              (fun (_ : Z) t Hi =>
                 match disease_turn (JsMap.values (animals (world s))) t
                         ltac:(lia) (proj1 Hi) (proj2 Hi) with
                 | ex_intro _ t' (conj Hrun (conj Hun (conj Hall' Hdraws'))) =>
                     ex_intro _ t' (conj Hrun (conj Hun (conj Hall' Hdraws')))
                 end)
              s (conj Hall Hdraws))
    as (s' & Hrun & Hun & _).
  exists s'. auto.
Qed.

Lemma applyHarshWeather_untouched (s : State) :
  Forall (fun l => is_Some (stats_of s l)) (JsMap.values (animals (world s))) ->
  exists s', applyHarshWeather s = Some (tt, s') /\ untouched s s'.
Proof.
  intros Hall. unfold applyHarshWeather, getAllAnimals.
  rewrite (bind_run _ _ s s (JsMap.values (animals (world s)))) by reflexivity.
  exact (forEach_untouched _ _
           (fun animal t Hst => copy_step _ animal t Hst) s Hall).
Qed.

(** X20. [introduceChallenge()], for draws of [[0, 1)]: the call ends,
    and whichever challenge the first draw selects, no object of the
    heap changes, so no animal loses health or energy; a draw below 0.3
    takes the share 0.3 of the food of every grass tile, and from 0.3 on
    (the disease and the harsh weather, whose damage goes to copies of
    the stats) the world is as before too. *)
Theorem challenges_spare_animals (s : State)
    (Hwf : grid_wf (world s))
    (Hall : Forall (fun l => is_Some (stats_of s l))
              (JsMap.values (animals (world s))))
    (Hdraws : forall n, 0 <= random_tape s n /\ random_tape s n < 1) :
  let challengeType := random_tape s (random_pos s) in
  exists s',
    introduceChallenge s = Some (tt, s') /\
    spared s s' /\ disaster s' = disaster s /\
    (forall l st, stats_of s l = Some st -> stats_of s' l = Some st) /\
    (challengeType < 3 # 10 ->
     grid (world s') = map (map (shrink_tile (3 # 10))) (grid (world s))) /\
    (3 # 10 <= challengeType -> world s' = world s).
Proof.
  intros challengeType. unfold introduceChallenge.
  rewrite (bind_run _ _ _ _ _ (Math_random_run _)). fold challengeType.
  set (s1 := set_random_pos s (S (random_pos s))).
  assert (Hs1 : untouched s s1) by apply untouched_draw.
  destruct (Qltb challengeType (3 # 10)) eqn:Efood.
  - apply Qltb_lt in Efood.
    rewrite (reduceWorldFood_run (3 # 10) s1 Hwf).
    eexists. split; [reflexivity|].
    refine (conj _ (conj eq_refl (conj _ (conj (fun _ => eq_refl) _)))).
    + apply (spared_shrink s).
    + intros l st Hst. exact Hst.
    + intros Hge. lra.
  - apply Qltb_ge in Efood.
    assert (Hrest : exists s',
      (if Qltb challengeType (6 # 10) then applyDisease else applyHarshWeather)
        s1 = Some (tt, s') /\ untouched s1 s').
    { destruct (Qltb challengeType (6 # 10)).
      - apply applyDisease_untouched; [exact Hall | exact Hdraws].
      - apply applyHarshWeather_untouched. exact Hall. }
    destruct Hrest as (s' & Hrun & Hun).
    pose proof (untouched_trans _ _ _ Hs1 Hun) as (Hext & Hw & Hd).
    exists s'. split; [exact Hrun|].
    refine (conj _ (conj Hd (conj _ (conj _ (fun _ => Hw))))).
    + apply untouched_spared. unfold untouched. auto.
    + intros l st. now apply stats_of_extends.
    + intros Hlt. lra.
Qed.

(** ** The two species: steps *)

(** What [move] does, with the objects of the animal afterwards. *)
Lemma move_run (s : State) (this : loc) (a : Animal) (d : DNA.t)
    (p : Position) (st : AnimalStats) (direction : Direction) :
  owns s this a d p st ->
  position_valid (world s) p = true ->
  exists s',
    move this direction s = Some (tt, s') /\
    owns s' this (set_position a (length (heap s))) d
      (clamp_to_grid (world s) (step direction p))
      (set_energy st (energy st - 1)) /\
    position_valid (world s) (clamp_to_grid (world s) (step direction p)) = true /\
    world s' = world s /\ disaster s' = disaster s /\
    random_tape s' = random_tape s /\ random_pos s' = S (random_pos s) /\
    (forall (l : loc) o, l <> this -> l <> stats a ->
                         heap s !! l = Some o -> heap s' !! l = Some o).
Proof.
  intros Ho Hvalid.
  set (newPosition :=
         match direction with
         | north => mkPosition (x p) (Z.max 0 (y p - 1))
         | east => mkPosition (Z.min (width (world s) - 1) (x p + 1)) (y p)
         | south => mkPosition (x p) (Z.min (height (world s) - 1) (y p + 1))
         | west => mkPosition (Z.max 0 (x p - 1)) (y p)
         end).
  apply position_valid_iff in Hvalid as [Hx Hy].
  assert (Hnew : newPosition = clamp_to_grid (world s) (step direction p)).
  { subst newPosition. unfold clamp_to_grid, clampZ.
    destruct direction; simpl; f_equal; lia. }
  assert (Hnewvalid : position_valid (world s) newPosition = true).
  { apply position_valid_iff. subst newPosition.
    destruct direction; simpl; lia. }
  pose proof (owns_alloc _ _ _ _ _ _ (OPosition newPosition) Ho) as Ho1.
  set (s1 := set_heap s (heap s ++ [OPosition newPosition])) in *.
  assert (Hnewloc : heap s1 !! length (heap s) = Some (OPosition newPosition))
    by apply lookup_alloc_new.
  pose proof (owns_setPosition _ _ _ _ _ _ _ _ Ho1 Hnewloc) as Ho2.
  set (s2 := set_heap s1 _) in Ho2.
  pose proof (owns_update_stats _ _ _ _ _ _
                (set_energy st (energy st - 1)) Ho2) as Ho3.
  set (s3 := set_heap s2 _) in Ho3.
  exists (set_random_pos s3 (S (random_pos s3))).
  split.
  { unfold move.
    rewrite (bind_run _ _ _ _ _ (this_position_run _ _ _ _ _ _ Ho)).
    rewrite (bind_run _ _ s s (world s)) by reflexivity.
    fold newPosition. rewrite (bind_run _ _ _ _ _ (alloc_run _ _)).
    rewrite (bind_run _ _ s1 s1 true)
      by (unfold isPositionValid; msimpl; now rewrite Hnewvalid).
    unfold when.
    rewrite (bind_run _ _ _ _ _
               (setPosition_run _ _ _ _ (owns_animal _ _ _ _ _ _ Ho1))).
    rewrite (bind_run _ _ _ _ _ (update_stats_run _ _ _ _ _ _ _ Ho2)).
    reflexivity. }
  rewrite <- Hnew.
  refine (conj _ (conj Hnewvalid (conj eq_refl (conj eq_refl (conj eq_refl
           (conj eq_refl _)))))).
  - apply owns_set_random_pos. exact Ho3.
  - intros l o Hl Hl' Hlo. simpl.
    rewrite lookup_write_other by (simpl; congruence).
    rewrite lookup_write_other by congruence.
    now apply lookup_alloc_old.
Qed.


Lemma floor_unique (q : Q) (k : Z) :
  inject_Z k <= q -> q < inject_Z k + 1 -> Math_floor q = k.
Proof.
  intros Hlo Hhi. unfold Math_floor.
  change 1 with (inject_Z 1) in Hhi. rewrite <- inject_Z_plus in Hhi.
  pose proof (Qfloor_le q) as H1. pose proof (Qlt_floor q) as H2.
  assert (Ha : (k < Qfloor q + 1)%Z).
  { rewrite Zlt_Qlt. eapply Qle_lt_trans; [exact Hlo | exact H2]. }
  assert (Hb : (Qfloor q < k + 1)%Z).
  { rewrite Zlt_Qlt. eapply Qle_lt_trans; [exact H1 | exact Hhi]. }
  lia.
Qed.

Lemma direction_by_quarter (r : Q) :
  0 <= r -> r < 1 ->
  direction_at (Math_floor (r * 4)) =
  Some (if Qltb r (1 # 4) then north
        else if Qltb r (2 # 4) then east
        else if Qltb r (3 # 4) then south
        else west).
Proof.
  intros H0 H1.
  destruct (Qltb r (1 # 4)) eqn:E1.
  { apply Qltb_lt in E1. rewrite (floor_unique (r * 4) 0); [reflexivity| |];
      unfold inject_Z; lra. }
  apply Qltb_ge in E1.
  destruct (Qltb r (2 # 4)) eqn:E2.
  { apply Qltb_lt in E2. rewrite (floor_unique (r * 4) 1); [reflexivity| |];
      unfold inject_Z; lra. }
  apply Qltb_ge in E2.
  destruct (Qltb r (3 # 4)) eqn:E3.
  { apply Qltb_lt in E3. rewrite (floor_unique (r * 4) 2); [reflexivity| |];
      unfold inject_Z; lra. }
  apply Qltb_ge in E3.
  rewrite (floor_unique (r * 4) 3); [reflexivity| |];
    unfold inject_Z; lra.
Qed.

(** X22. [wander()], for an animal inside the grid and a draw of
    [[0, 1)]: the four quarters of the draw select north, east, south and
    west; the animal takes one step in that direction, stopped by the
    edge of the grid, so it ends inside the grid, at most 1 away from
    where it was; it pays 1 energy whether or not it moved, two numbers
    are drawn, and the genome and the world are as before. *)
Theorem wander_contract (s : State) (this : loc) (a : Animal) (d : DNA.t)
    (p : Position) (st : AnimalStats)
    (Ho : owns s this a d p st)
    (Hp : position_valid (world s) p = true)
    (Hdraw : 0 <= random_tape s (random_pos s) /\
             random_tape s (random_pos s) < 1) :
  let r := random_tape s (random_pos s) in
  let direction :=
    if Qltb r (1 # 4) then north
    else if Qltb r (2 # 4) then east
    else if Qltb r (3 # 4) then south
    else west in
  let p' := clamp_to_grid (world s) (step direction p) in
  exists s',
    wander this s = Some (tt, s') /\
    position_of s' this = Some p' /\
    position_valid (world s') p' = true /\
    (manhattan p p' <= 1)%Z /\
    stats_of s' this = Some (set_energy st (energy st - 1)) /\
    dna_of s' this = Some d /\
    world s' = world s /\
    random_pos s' = S (S (random_pos s)).
Proof.
  intros r direction p'.
  pose proof (owns_set_random_pos _ _ _ _ _ _ (S (random_pos s)) Ho) as Ho1.
  destruct (move_run _ this a d p st direction Ho1 Hp)
    as (s' & Hmove & Ho' & Hvalid & Hw & _ & _ & Hpos & _).
  exists s'. split.
  { unfold wander. rewrite (bind_run _ _ _ _ _ (Math_random_run _)).
    cbv zeta. fold r.
    rewrite (direction_by_quarter r (proj1 Hdraw) (proj2 Hdraw)).
    exact Hmove. }
  split; [apply (owns_position_of _ _ _ _ _ _ Ho')|].
  split; [rewrite Hw; exact Hvalid|].
  split.
  { apply position_valid_iff in Hp as [Hx Hy].
    unfold manhattan, p', clamp_to_grid, clampZ.
    destruct direction; simpl; lia. }
  split; [apply (owns_stats_of _ _ _ _ _ _ Ho')|].
  split; [apply (owns_dna_of _ _ _ _ _ _ Ho')|].
  split; [exact Hw | exact Hpos].
Qed.

(** ** [World]: neighbours *)

Lemma getPosition_run' (s : State) (this : loc) (p : Position) :
  position_of s this = Some p ->
  getPosition this s =
  Some (length (heap s), set_heap s (heap s ++ [OPosition p])).
Proof.
  unfold position_of. intros H.
  destruct (heap s !! this) as [[a| | |]|] eqn:Ea; try discriminate.
  destruct (heap s !! position a) as [[| |p0|]|] eqn:Ep; try discriminate.
  injection H as ->. unfold getPosition, this_position.
  erewrite (bind_run (bind (read_animal this) _)).
  2:{ rewrite (bind_run _ _ _ _ _ (read_animal_run _ _ _ Ea)).
      apply (read_position_run _ _ _ Ep). }
  reflexivity.
Qed.

Lemma within_extends (s s' : State) (c : Position) (radius : Q) (l : loc) :
  (forall (l : loc) o, heap s !! l = Some o -> heap s' !! l = Some o) ->
  is_Some (position_of s l) ->
  within s' c radius l = within s c radius l.
Proof.
  intros Hext [q Hq]. unfold within.
  now rewrite (position_of_extends s s' l q Hext Hq), Hq.
Qed.

Lemma select_in_radius (center : loc) (c : Position) (radius : Q)
    (ls : list loc) : forall s : State,
  heap s !! center = Some (OPosition c) ->
  Forall (fun l => is_Some (position_of s l)) ls ->
  exists s',
    select ls (fun animal =>
      pos_ref <- getPosition animal ;;
      pos <- read_position pos_ref ;;
      c <- read_position center ;;
      let distance := (Z.abs (x pos - x c) + Z.abs (y pos - y c))%Z in
      ret (Qle_bool (inject_Z distance) radius)) s
    = Some (List.filter (within s c radius) ls, s') /\
    untouched s s' /\ random_pos s' = random_pos s.
Proof.
  induction ls as [|l ls IH]; intros s Hc Hall.
  - exists s. split; [reflexivity|]. split; [apply untouched_refl | reflexivity].
  - apply Forall_cons in Hall as [[q Hq] Hall].
    set (s1 := set_heap s (heap s ++ [OPosition q])).
    assert (Hext1 : forall (l : loc) o,
               heap s !! l = Some o -> heap s1 !! l = Some o)
      by (intros l0 o Hl0; now apply lookup_alloc_old).
    destruct (IH s1) as (s' & Hrun & Hun & Hpos).
    { now apply Hext1. }
    { eapply Forall_impl; [exact Hall|]. intros l0 [q0 H0].
      exists q0. now apply (position_of_extends s s1). }
    exists s'. split.
    + simpl select.
      erewrite (bind_run (bind (getPosition l) _)).
      2:{ rewrite (bind_run _ _ _ _ _ (getPosition_run' _ _ _ Hq)).
          erewrite (bind_run (read_position _))
            by (apply read_position_run; apply lookup_alloc_new).
          erewrite (bind_run (read_position center))
            by (apply read_position_run; apply Hext1; exact Hc).
          reflexivity. }
      rewrite (bind_run _ _ _ _ _ Hrun).
      unfold ret. do 2 f_equal. simpl List.filter.
      replace (List.filter (within s1 c radius) ls)
        with (List.filter (within s c radius) ls).
      * unfold within at 3. rewrite Hq. reflexivity.
      * apply List.filter_ext_in. intros l0 Hin. symmetry.
        apply within_extends; [exact Hext1|].
        eapply List.Forall_forall in Hall; [exact Hall | exact Hin].
    + split; [|exact Hpos].
      eapply untouched_trans; [|exact Hun].
      unfold untouched. auto.
Qed.

(** X23. [getAnimalsInRadius(center, radius)]: the result holds, in the
    order of the registry, exactly the registered animals whose position
    is at a distance [|dx| + |dy|] of at most [radius] from the centre;
    so an animal that asks around its own position finds itself in the
    result for every radius of at least 0.  The call draws no number and
    changes no object, the world or the disaster; it only leaves the
    position copies it has made on the heap. *)
Theorem getAnimalsInRadius_contract (s : State) (center : loc) (c : Position)
    (radius : Q)
    (Hc : heap s !! center = Some (OPosition c))
    (Hall : Forall (fun l => is_Some (position_of s l))
              (JsMap.values (animals (world s)))) :
  exists s',
    getAnimalsInRadius center radius s =
      Some (List.filter (within s c radius) (JsMap.values (animals (world s))),
            s') /\
    untouched s s' /\ random_pos s' = random_pos s /\
    (forall l,
        In l (List.filter (within s c radius) (JsMap.values (animals (world s))))
        <-> In l (JsMap.values (animals (world s))) /\
            exists q, position_of s l = Some q /\
                      inject_Z (manhattan q c) <= radius) /\
    (forall this, In this (JsMap.values (animals (world s))) ->
                  position_of s this = Some c -> 0 <= radius ->
                  In this (List.filter (within s c radius)
                             (JsMap.values (animals (world s))))).
Proof.
  destruct (select_in_radius center c radius
              (JsMap.values (animals (world s))) s Hc Hall)
    as (s' & Hrun & Hun & Hpos).
  assert (Hmem : forall l,
    In l (List.filter (within s c radius) (JsMap.values (animals (world s))))
    <-> In l (JsMap.values (animals (world s))) /\
        exists q, position_of s l = Some q /\
                  inject_Z (manhattan q c) <= radius).
  { intros l. rewrite List.filter_In. unfold within. split.
    - intros [Hin Hw]. split; [exact Hin|].
      destruct (position_of s l) as [q|]; [|discriminate].
      exists q. split; [reflexivity|]. now apply Qle_bool_iff.
    - intros [Hin (q & Hq & Hd)]. split; [exact Hin|].
      rewrite Hq. now apply Qle_bool_iff. }
  exists s'. split; [exact Hrun|]. split; [exact Hun|]. split; [exact Hpos|].
  split; [exact Hmem|].
  intros this Hin Hthis Hr. apply Hmem. split; [exact Hin|].
  exists c. split; [exact Hthis|].
  unfold manhattan. rewrite !Z.sub_diag. simpl. exact Hr.
Qed.

(** ** [Fluffles]: looking for food *)









(** ** [Simulation]: the first population *)

Lemma forEach_addGene_at_state (ref : loc) (genes : list Gene) :
  forall (s : State) (d : DNA.t),
    heap s !! ref = Some (ODNA d) ->
    exists h',
      forEach genes (addGene_at ref) s = Some (tt, set_heap s h') /\
      h' !! ref =
      Some (ODNA (fold_left (fun acc g => DNA.addGene g acc) genes d)) /\
      forall (l : loc), l <> ref -> h' !! l = heap s !! l.
Proof.
  induction genes as [|g genes IH]; intros s d Hd.
  - exists (heap s). split; [|split; [exact Hd | auto]].
    simpl. unfold ret. now destruct s.
  - destruct (IH (set_heap s (<[ref := ODNA (DNA.addGene g d)]> (heap s)))
                (DNA.addGene g d)) as (h' & Hrun & Href & Hother).
    { simpl. now apply (lookup_write_same _ (ODNA d)). }
    exists h'. split; [|split].
    + simpl forEach. rewrite (bind_run _ _ _ _ _ (addGene_at_run _ _ _ g Hd)).
      exact Hrun.
    + exact Href.
    + intros l Hl. rewrite (Hother l Hl). simpl.
      apply lookup_write_other. congruence.
Qed.

Lemma Fluffles_standard_genome :
  fold_left (fun acc g => DNA.addGene g acc)
    (DNA.getAllGenes (DNA.createStandard (Some (species_overrides Fluffles))))
    [] = DNA.createStandard (Some (species_overrides Fluffles)).
Proof. reflexivity. Qed.

(** The constructor of a Fluffles on a new, empty [DNA] object. *)
Lemma Fluffles_new_run (dnaRef posRef : loc) (s : State) :
  heap s !! dnaRef = Some (ODNA []) ->
  exists h',
    Animal_new Fluffles dnaRef posRef s =
    Some (S (length (heap s)), set_heap (set_uuid_pos s (S (uuid_pos s))) h') /\
    h' !! S (length (heap s)) =
      Some (OAnimal (mkAnimal (uuid_tape s (uuid_pos s)) dnaRef posRef
                       (length (heap s)) Fluffles)) /\
    h' !! length (heap s) = Some (OStats (mkStats 100 100 0 0)) /\
    h' !! dnaRef =
      Some (ODNA (DNA.createStandard (Some (species_overrides Fluffles)))) /\
    (forall (l : loc) o, l <> dnaRef -> heap s !! l = Some o ->
                         h' !! l = Some o).
Proof.
  intros Hd.
  set (a := mkAnimal (uuid_tape s (uuid_pos s)) dnaRef posRef
              (length (heap s)) Fluffles).
  set (s1 := set_heap (set_uuid_pos s (S (uuid_pos s)))
               ((heap s ++ [OStats (mkStats 100 100 0 0)]) ++ [OAnimal a])).
  assert (Hd1 : heap s1 !! dnaRef = Some (ODNA []))
    by (simpl; apply lookup_alloc_old, lookup_alloc_old, Hd).
  destruct (forEach_addGene_at_state dnaRef
              (DNA.getAllGenes (DNA.createStandard
                                  (Some (species_overrides Fluffles))))
              s1 [] Hd1) as (h' & Hrun & Href & Hother).
  rewrite Fluffles_standard_genome in Href.
  exists h'. split; [|split; [|split; [|split]]].
  - unfold Animal_new.
    rewrite (bind_run _ _ s (set_uuid_pos s (S (uuid_pos s)))
               (uuid_tape s (uuid_pos s))) by reflexivity.
    rewrite (bind_run _ _ _ _ _ (alloc_run _ _)).
    rewrite (bind_run _ _ _ _ _ (alloc_run _ _)).
    simpl heap. rewrite length_app. simpl length. rewrite Nat.add_1_r.
    fold a. fold s1.
    rewrite (bind_run _ _ _ _ _ (read_dna_run _ _ _ Hd1)).
    simpl when. cbv zeta.
    rewrite (bind_run _ _ _ _ _ Hrun). reflexivity.
  - rewrite Hother.
    + simpl. apply lookup_alloc_at. rewrite length_app. simpl. lia.
    + intros E. apply lookup_lt_Some in Hd. lia.
  - rewrite Hother.
    + simpl. apply lookup_alloc_old, lookup_alloc_new.
    + intros E. apply lookup_lt_Some in Hd. lia.
  - exact Href.
  - intros l o Hl Hlo. rewrite (Hother l Hl). simpl.
    now apply lookup_alloc_old, lookup_alloc_old.
Qed.

Lemma dna_of_extends (s s' : State) (l : loc) (d : DNA.t) :
  (forall (l : loc) o, heap s !! l = Some o -> heap s' !! l = Some o) ->
  dna_of s l = Some d -> dna_of s' l = Some d.
Proof.
  intros Hext. unfold dna_of.
  destruct (heap s !! l) as [[a| | |]|] eqn:Ea; try discriminate.
  destruct (heap s !! dna a) as [[|d0| |]|] eqn:Ed; try discriminate.
  intros [= ->]. now rewrite (Hext _ _ Ea), (Hext _ _ Ed).
Qed.

(** One turn of the loop of [initialize]. *)
Lemma initialize_turn (s : State) :
  (0 < width (world s))%Z -> (0 < height (world s))%Z ->
  (forall n, 0 <= random_tape s n /\ random_tape s n < 1) ->
  (JsMap.size (animals (world s)) < maxPopulation (world s))%Z ->
  exists s',
    (dna <- alloc (ODNA (DNA.new None)) ;;
     w <- the_world ;;
     rx <- Math_random ;;
     ry <- Math_random ;;
     position <-
       alloc (OPosition
                (mkPosition (Math_floor (rx * inject_Z (width w)))
                            (Math_floor (ry * inject_Z (height w))))) ;;
     fluffles <- Animal_new Fluffles dna position ;;
     _ <- addAnimal fluffles ;;
     ret tt) s = Some (tt, s') /\
    animals (world s') =
      JsMap.set (uuid_tape s (uuid_pos s)) (length (heap s) + 3)%nat
        (animals (world s)) /\
    newborn s' (length (heap s) + 3)%nat /\
    (forall (l : loc) o, heap s !! l = Some o -> heap s' !! l = Some o) /\
    width (world s') = width (world s) /\
    height (world s') = height (world s) /\
    grid (world s') = grid (world s) /\
    maxPopulation (world s') = maxPopulation (world s) /\
    random_tape s' = random_tape s /\
    uuid_tape s' = uuid_tape s /\ uuid_pos s' = S (uuid_pos s).
Proof.
  intros Hw Hh Hdraws Hroom.
  rewrite (bind_run _ _ _ _ _ (alloc_run _ _)).
  set (s1 := set_heap s (heap s ++ [ODNA (DNA.new None)])).
  rewrite (bind_run _ _ s1 s1 (world s)) by reflexivity.
  rewrite (bind_run _ _ _ _ _ (Math_random_run _)).
  rewrite (bind_run _ _ _ _ _ (Math_random_run _)).
  set (q := mkPosition _ _).
  rewrite (bind_run _ _ _ _ _ (alloc_run _ _)).
  set (s4 := set_heap _ _).
  assert (Hlen4 : length (heap s4) = (length (heap s) + 2)%nat).
  { unfold s4, s1. simpl. rewrite !length_app. simpl. lia. }
  assert (Hd4 : heap s4 !! length (heap s) = Some (ODNA [])).
  { unfold s4, s1. simpl. apply lookup_alloc_old, lookup_alloc_new. }
  assert (Hp4 : heap s4 !! S (length (heap s)) = Some (OPosition q)).
  { unfold s4, s1. simpl. apply lookup_alloc_at.
    rewrite length_app. simpl. lia. }
  destruct (Fluffles_new_run (length (heap s)) (length (heap s1)) s4 Hd4)
    as (h' & Hnew & Ha & Hst & Hdna & Hframe).
  rewrite (bind_run _ _ _ _ _ Hnew).
  set (s5 := set_heap (set_uuid_pos s4 (S (uuid_pos s4))) h') in *.
  set (a := mkAnimal _ _ _ _ _) in Ha.
  rewrite Hlen4 in Ha, Hst.
  replace (S (length (heap s) + 2)) with (length (heap s) + 3)%nat in Ha by lia.
  replace (S (length (heap s4))) with (length (heap s) + 3)%nat by lia.
  rewrite (bind_run _ _ _ _ _
             (addAnimal_room (length (heap s) + 3)%nat a s5 Hroom Ha)).
  eexists. split; [reflexivity|].
  assert (Hq : position_valid (world s) q = true).
  { apply position_valid_iff. unfold q. simpl.
    split; apply floor_draw_bounds; try assumption; apply Hdraws. }
  assert (Hpos : h' !! S (length (heap s)) = Some (OPosition q)).
  { apply Hframe; [lia | exact Hp4]. }
  split; [reflexivity|]. split.
  { assert (Ho : owns s5 (length (heap s) + 3)%nat a
                   (DNA.createStandard (Some (species_overrides Fluffles)))
                   q (mkStats 100 100 0 0)).
    { split; [exact Ha | exact Hdna | |
             change (stats a) with (length (heap s4)); rewrite Hlen4;
             exact Hst].
      change (position a) with (length (heap s1)).
      replace (length (heap s1)) with (S (length (heap s)))
        by (unfold s1; simpl; rewrite length_app; simpl; lia).
      exact Hpos. }
    apply (owns_set_world _ _ _ _ _ _
             (mkWorld (width (world s)) (height (world s)) (grid (world s))
                (JsMap.set (id a) (length (heap s) + 3)%nat
                   (animals (world s)))
                (maxPopulation (world s))
                (pressure_of
                   (JsMap.size
                      (JsMap.set (id a) (length (heap s) + 3)%nat
                         (animals (world s))))
                   (maxPopulation (world s))))) in Ho.
    exists a, q.
    split; [apply Ho|]. split; [reflexivity|].
    split; [apply get_set_eq|].
    split; [apply (owns_dna_of _ _ _ _ _ _ Ho)|].
    split; [apply (owns_stats_of _ _ _ _ _ _ Ho)|].
    split; [apply (owns_position_of _ _ _ _ _ _ Ho)|].
    exact Hq. }
  split.
  { intros l o Hl. simpl. apply Hframe.
    - apply lookup_lt_Some in Hl. lia.
    - unfold s4, s1. simpl. now apply lookup_alloc_old, lookup_alloc_old. }
  simpl. auto 10.
Qed.

Lemma newborn_kept (s s' : State) (l this : loc) (key : string) :
  newborn s l ->
  (forall (l : loc) o, heap s !! l = Some o -> heap s' !! l = Some o) ->
  width (world s') = width (world s) ->
  height (world s') = height (world s) ->
  animals (world s') = JsMap.set key this (animals (world s)) ->
  ~ In key (JsMap.keys (animals (world s))) ->
  newborn s' l.
Proof.
  intros (a & q & Ha & Hsp & Hreg & Hdna & Hst & Hpos & Hq) Hext Hw Hh Han Hkey.
  exists a, q. split; [now apply Hext|]. split; [exact Hsp|].
  split.
  { rewrite Han, get_set_ne; [exact Hreg|].
    intros E. apply Hkey. rewrite E. apply get_is_Some_keys. eauto. }
  split; [now apply (dna_of_extends s)|].
  split; [now apply (stats_of_extends s)|].
  split; [now apply (position_of_extends s)|].
  apply position_valid_iff in Hq. apply position_valid_iff.
  now rewrite Hw, Hh.
Qed.

Lemma initialize_loop (xs : list Z) : forall s : State,
  (0 < width (world s))%Z -> (0 < height (world s))%Z ->
  (forall n, 0 <= random_tape s n /\ random_tape s n < 1) ->
  (forall i j, uuid_tape s i = uuid_tape s j -> i = j) ->
  (forall key, In key (JsMap.keys (animals (world s))) ->
               exists i, (i < uuid_pos s)%nat /\ key = uuid_tape s i) ->
  Forall (newborn s) (JsMap.values (animals (world s))) ->
  (JsMap.size (animals (world s)) + Z.of_nat (length xs)
   <= maxPopulation (world s))%Z ->
  exists s',
    forEach xs (fun _ : Z =>
      dna <- alloc (ODNA (DNA.new None)) ;;
      w <- the_world ;;
      rx <- Math_random ;;
      ry <- Math_random ;;
      position <-
        alloc (OPosition
                 (mkPosition (Math_floor (rx * inject_Z (width w)))
                             (Math_floor (ry * inject_Z (height w))))) ;;
      fluffles <- Animal_new Fluffles dna position ;;
      _ <- addAnimal fluffles ;;
      ret tt) s = Some (tt, s') /\
    JsMap.size (animals (world s')) =
      (JsMap.size (animals (world s)) + Z.of_nat (length xs))%Z /\
    Forall (newborn s') (JsMap.values (animals (world s'))) /\
    (forall (l : loc) o, heap s !! l = Some o -> heap s' !! l = Some o) /\
    grid (world s') = grid (world s) /\
    maxPopulation (world s') = maxPopulation (world s).
Proof.
  induction xs as [|v xs IH]; intros s Hw Hh Hdraws Hinj Hkeys Hborn Hroom.
  - exists s. split; [reflexivity|]. simpl. rewrite Z.add_0_r. auto.
  - simpl length in Hroom.
    destruct (initialize_turn s Hw Hh Hdraws ltac:(lia))
      as (s1 & Hrun1 & Han1 & Hnew1 & Hext1 & Hw1 & Hh1 & Hg1 & Hm1
          & Hrt1 & Hut1 & Hup1).
    assert (Hfresh : ~ In (uuid_tape s (uuid_pos s))
                       (JsMap.keys (animals (world s)))).
    { intros Hin. destruct (Hkeys _ Hin) as (i & Hi & E).
      apply Hinj in E. lia. }
    assert (Habsent : JsMap.get (uuid_tape s (uuid_pos s)) (animals (world s))
                      = None) by now apply get_None_keys.
    destruct (IH s1) as (s' & Hrun & Hsize & Hborn' & Hext & Hg & Hm).
    + now rewrite Hw1.
    + now rewrite Hh1.
    + now rewrite Hrt1.
    + now rewrite Hut1.
    + intros key Hin. rewrite Han1, (keys_set_absent _ _ _ Habsent) in Hin.
      rewrite Hut1, Hup1. apply in_app_iff in Hin as [Hin|[<-|[]]].
      * destruct (Hkeys key Hin) as (i & Hi & E). exists i. split; [lia|auto].
      * exists (uuid_pos s). split; [lia | reflexivity].
    + rewrite Han1, (set_absent _ _ _ Habsent).
      unfold JsMap.values. rewrite map_app. apply Forall_app. split.
      * eapply Forall_impl; [exact Hborn|]. intros l Hl.
        exact (newborn_kept s s1 l _ _ Hl Hext1 Hw1 Hh1 Han1 Hfresh).
      * constructor; [exact Hnew1 | constructor].
    + rewrite Han1, (size_set_absent _ _ _ Habsent), Hm1. lia.
    + exists s'. split.
      { simpl forEach. now rewrite (bind_run _ _ _ _ _ Hrun1). }
      split.
      { rewrite Hsize, Han1, (size_set_absent _ _ _ Habsent).
        simpl length. lia. }
      split; [exact Hborn'|]. split; [auto|]. split; congruence.
Qed.

(** X25. [initialize(numFluffles)] on a world without animals and with
    a capacity of at least 0, for draws of [[0, 1)] and identifiers that
    do not repeat: the call ends
    with [min(numFluffles, maxPopulation)] animals in the registry (none
    for a negative number); each of them is a Fluffles registered under
    its own id, with the standard genes of the species as the catalog
    and the overrides of the class give them, health and energy 100, age
    and hunger 0, on a cell of the grid; the tiles and the capacity are
    as before. *)
Theorem initialize_contract (s : State) (numFluffles : Z)
    (Hempty : animals (world s) = JsMap.empty)
    (Hw : (0 < width (world s))%Z) (Hh : (0 < height (world s))%Z)
    (Hmax : (0 <= maxPopulation (world s))%Z)
    (Hdraws : forall n, 0 <= random_tape s n /\ random_tape s n < 1)
    (Hinj : forall i j, uuid_tape s i = uuid_tape s j -> i = j) :
  exists s',
    initialize numFluffles s = Some (tt, s') /\
    JsMap.size (animals (world s')) =
      Z.max 0 (Z.min numFluffles (maxPopulation (world s))) /\
    Forall (newborn s') (JsMap.values (animals (world s'))) /\
    (forall (l : loc) o, heap s !! l = Some o -> heap s' !! l = Some o) /\
    grid (world s') = grid (world s) /\
    maxPopulation (world s') = maxPopulation (world s).
Proof.
  destruct (initialize_loop
              (upto (Z.min numFluffles (maxPopulation (world s)))) s
              Hw Hh Hdraws Hinj)
    as (s' & Hrun & Hsize & Hborn & Hext & Hg & Hm).
  - rewrite Hempty. intros key [].
  - rewrite Hempty. constructor.
  - rewrite Hempty. unfold upto. rewrite length_map, length_seq.
    unfold JsMap.size, JsMap.empty. simpl. lia.
  - exists s'. split.
    + unfold initialize, getMaxPopulation.
      rewrite (bind_run _ _ s s (maxPopulation (world s))) by reflexivity.
      exact Hrun.
    + split; [|auto].
      rewrite Hsize, Hempty. unfold upto. rewrite length_map, length_seq.
      unfold JsMap.size, JsMap.empty. simpl. lia.
Qed.

(** ** [World]: the terrain in numbers *)






(** ** The two species: looking for others *)

Lemma owns_extends (s s' : State) this a d p st :
  (forall (l : loc) o, heap s !! l = Some o -> heap s' !! l = Some o) ->
  owns s this a d p st -> owns s' this a d p st.
Proof. intros Hext [Ha Hd Hp Hst]. split; now apply Hext. Qed.

Lemma closer_spec (best : option (loc * Z)) (l : loc) (dist : Z) :
  exists t dt,
    closer best l dist = Some (t, dt) /\ (dt <= dist)%Z /\
    (forall t0 d0, best = Some (t0, d0) -> (dt <= d0)%Z) /\
    (closer best l dist = best \/ (t = l /\ dt = dist)).
Proof.
  unfold closer. destruct best as [[t0 d0]|].
  - destruct (Z.ltb_spec dist d0).
    + exists l, dist. split; [reflexivity|]. split; [lia|].
      split; [intros t1 d1 [= <- <-]; lia | right; auto].
    + exists t0, d0. split; [reflexivity|]. split; [lia|].
      split; [intros t1 d1 [= <- <-]; lia | left; auto].
  - exists l, dist. split; [reflexivity|]. split; [lia|].
    split; [discriminate | right; auto].
Qed.

Lemma nearest_from (s : State) (p : Position) (ls : list loc) :
  Forall (fun l => is_Some (position_of s l)) ls ->
  forall best,
    let r := fold_left
               (fun best l =>
                  match position_of s l with
                  | Some q => closer best l (manhattan q p)
                  | None => best
                  end) ls best in
    (forall l q, In l ls -> position_of s l = Some q ->
                 exists t dt, r = Some (t, dt) /\ (dt <= manhattan q p)%Z) /\
    (forall t0 d0, best = Some (t0, d0) ->
                   exists t dt, r = Some (t, dt) /\ (dt <= d0)%Z) /\
    (r = best \/
     exists t q, r = Some (t, manhattan q p) /\ In t ls /\
                 position_of s t = Some q).
Proof.
  induction ls as [|l ls IH]; intros Hall best; simpl.
  - split; [intros l q []|]. split; [|now left].
    intros t0 d0 ->. exists t0, d0. split; [reflexivity | lia].
  - apply Forall_cons in Hall as [[q Hq] Hall]. rewrite Hq.
    destruct (closer_spec best l (manhattan q p))
      as (t1 & d1 & E1 & Hle1 & Hbest1 & Hcase1).
    destruct (IH Hall (closer best l (manhattan q p)))
      as (Hmin & Hkeep & Hcase).
    destruct (Hkeep t1 d1 E1) as (t & dt & Er & Hdt).
    split; [|split].
    + intros l0 q0 [<-|Hin] Hq0.
      * rewrite Hq in Hq0. injection Hq0 as <-.
        exists t, dt. split; [exact Er | lia].
      * exact (Hmin l0 q0 Hin Hq0).
    + intros t0 d0 Hb. exists t, dt. split; [exact Er|].
      specialize (Hbest1 t0 d0 Hb). lia.
    + destruct Hcase as [E|(t' & q' & E & Hin & Hq')].
      * destruct Hcase1 as [E'|[-> ->]].
        -- left. now rewrite E, E'.
        -- right. exists l, q. rewrite E, E1. auto.
      * right. exists t', q'. auto.
Qed.

(** What the loops find: nobody exactly when the list is empty, and
    otherwise a member of the list that no member is nearer than. *)
Lemma nearest_spec (s : State) (p : Position) (ls : list loc) :
  Forall (fun l => is_Some (position_of s l)) ls ->
  match nearest s p ls with
  | None => ls = []
  | Some (t, dt) =>
      In t ls /\
      exists q, position_of s t = Some q /\ dt = manhattan q p /\
                forall l q', In l ls -> position_of s l = Some q' ->
                             (dt <= manhattan q' p)%Z
  end.
Proof.
  intros Hall. destruct (nearest_from s p ls Hall None) as (Hmin & _ & Hcase).
  cbv zeta in Hmin, Hcase. fold (nearest s p ls) in Hmin, Hcase.
  destruct (nearest s p ls) as [[t dt]|] eqn:E.
  - destruct Hcase as [|(t' & q & [= -> ->] & Hin & Hq)]; [discriminate|].
    split; [exact Hin|]. exists q. split; [exact Hq|]. split; [reflexivity|].
    intros l q' Hl Hq'. destruct (Hmin l q' Hl Hq') as (t2 & d2 & [= <- <-] & H).
    exact H.
  - destruct ls as [|l ls]; [reflexivity|].
    apply Forall_cons in Hall as [[q Hq] _].
    destruct (Hmin l q (or_introl eq_refl) Hq) as (t & dt & Habs & _).
    discriminate.
Qed.

Lemma id_at_animal (h : list Obj) (l : loc) (i : string) :
  id_at h l = Some i -> exists a, h !! l = Some (OAnimal a) /\ id a = i.
Proof.
  unfold id_at. destruct (h !! l) as [[a| | |]|]; try discriminate.
  intros [= <-]. eauto.
Qed.

Lemma position_of_id (s : State) (l : loc) :
  is_Some (position_of s l) -> is_Some (id_at (heap s) l).
Proof.
  unfold position_of, id_at. intros [q H].
  destruct (heap s !! l) as [[a| | |]|]; try discriminate. eauto.
Qed.

Lemma getId_run (s : State) (l : loc) (i : string) :
  id_at (heap s) l = Some i -> getId l s = Some (i, s).
Proof.
  intros H. destruct (id_at_animal _ _ _ H) as (a & Ha & <-).
  unfold getId. now rewrite (bind_run _ _ _ _ _ (read_animal_run _ _ _ Ha)).
Qed.

Lemma id_at_extends (s s' : State) (l : loc) (i : string) :
  (forall (l : loc) o, heap s !! l = Some o -> heap s' !! l = Some o) ->
  id_at (heap s) l = Some i -> id_at (heap s') l = Some i.
Proof.
  intros Hext H. destruct (id_at_animal _ _ _ H) as (a & Ha & <-).
  unfold id_at. now rewrite (Hext _ _ Ha).
Qed.

(** The measuring of one animal in the loops of [seekCompany] and
    [huntOthers]. *)
Lemma measure_run (s0 st : State) (this animal : loc) a d p st0 q
    (best : option (loc * Z)) :
  owns s0 this a d p st0 ->
  (forall (l : loc) o, heap s0 !! l = Some o -> heap st !! l = Some o) ->
  position_of s0 animal = Some q ->
  (pos_ref <- getPosition animal ;;
   pos <- read_position pos_ref ;;
   p <- this_position this ;;
   let distance := (Z.abs (x pos - x p) + Z.abs (y pos - y p))%Z in
   ret (closer best animal distance)) st
  = Some (closer best animal (manhattan q p),
          set_heap st (heap st ++ [OPosition q])).
Proof.
  intros Ho Hext Hq.
  rewrite (bind_run _ _ _ _ _
             (getPosition_run' _ _ _ (position_of_extends s0 st _ _ Hext Hq))).
  erewrite (bind_run (read_position _))
    by (apply read_position_run; apply lookup_alloc_new).
  erewrite (bind_run (this_position this)).
  2:{ apply (this_position_run _ this a d p st0).
      apply owns_alloc. exact (owns_extends s0 st _ _ _ _ _ Hext Ho). }
  reflexivity.
Qed.

Lemma hunt_loop (s0 : State) (this : loc) a d p st0 (ls : list loc) :
  owns s0 this a d p st0 ->
  Forall (fun l => is_Some (position_of s0 l)) ls ->
  forall (st : State) (best : option (loc * Z)),
    (forall (l : loc) o, heap s0 !! l = Some o -> heap st !! l = Some o) ->
    exists st',
      forEach_acc ls
        (fun closest animal =>
           pos_ref <- getPosition animal ;;
           pos <- read_position pos_ref ;;
           p <- this_position this ;;
           let distance := (Z.abs (x pos - x p) + Z.abs (y pos - y p))%Z in
           ret (closer closest animal distance)) best st
      = Some (fold_left
                (fun best l =>
                   match position_of s0 l with
                   | Some q => closer best l (manhattan q p)
                   | None => best
                   end) ls best, st') /\
      untouched st st' /\ random_pos st' = random_pos st.
Proof.
  intros Ho. induction ls as [|l ls IH]; intros Hall st best Hext.
  - exists st. split; [reflexivity|]. split; [apply untouched_refl | reflexivity].
  - apply Forall_cons in Hall as [[q Hq] Hall].
    destruct (IH Hall (set_heap st (heap st ++ [OPosition q]))
                (closer best l (manhattan q p)))
      as (st' & Hrun & Hun & Hpos).
    { intros l0 o Hl0. simpl. apply lookup_alloc_old. now apply Hext. }
    exists st'. split.
    + simpl forEach_acc.
      rewrite (bind_run _ _ _ _ _
                 (measure_run s0 st this l a d p st0 q best Ho Hext Hq)).
      simpl fold_left. rewrite Hq. exact Hrun.
    + split; [|exact Hpos].
      eapply untouched_trans; [|exact Hun].
      unfold untouched. simpl. split; [|auto].
      intros l0 o Hl0. now apply lookup_alloc_old.
Qed.

Lemma company_loop (s0 : State) (this : loc) a d p st0 (ls : list loc) :
  owns s0 this a d p st0 ->
  Forall (fun l => is_Some (position_of s0 l)) ls ->
  forall (st : State) (best : option (loc * Z)),
    (forall (l : loc) o, heap s0 !! l = Some o -> heap st !! l = Some o) ->
    exists st',
      forEach_acc ls
        (fun closest animal =>
           i <- getId animal ;;
           if negb (String.eqb i (id a)) then
             pos_ref <- getPosition animal ;;
             pos <- read_position pos_ref ;;
             p <- this_position this ;;
             let distance :=
               (Z.abs (x pos - x p) + Z.abs (y pos - y p))%Z in
             ret (closer closest animal distance)
           else ret closest) best st
      = Some (fold_left
                (fun best l =>
                   match position_of s0 l with
                   | Some q => closer best l (manhattan q p)
                   | None => best
                   end)
                (List.filter
                   (fun l => match id_at (heap s0) l with
                             | Some i => negb (String.eqb i (id a))
                             | None => false
                             end) ls) best, st') /\
      untouched st st' /\ random_pos st' = random_pos st.
Proof.
  intros Ho. induction ls as [|l ls IH]; intros Hall st best Hext.
  - exists st. split; [reflexivity|]. split; [apply untouched_refl | reflexivity].
  - apply Forall_cons in Hall as [Hl Hall].
    destruct (position_of_id _ _ Hl) as [i Hi]. destruct Hl as [q Hq].
    simpl forEach_acc. simpl List.filter. rewrite Hi.
    rewrite (bind_bind_run _ _ _ _ _ _
               (getId_run st l i (id_at_extends s0 st l i Hext Hi))).
    destruct (negb (String.eqb i (id a))).
    + destruct (IH Hall (set_heap st (heap st ++ [OPosition q]))
                  (closer best l (manhattan q p)))
        as (st' & Hrun & Hun & Hpos).
      { intros l0 o Hl0. simpl. apply lookup_alloc_old. now apply Hext. }
      exists st'. split.
      * rewrite (bind_run _ _ _ _ _
                   (measure_run s0 st this l a d p st0 q best Ho Hext Hq)).
        simpl fold_left. rewrite Hq. exact Hrun.
      * split; [|exact Hpos].
        eapply untouched_trans; [|exact Hun].
        unfold untouched. simpl. split; [|auto].
        intros l0 o Hl0. now apply lookup_alloc_old.
    + destruct (IH Hall st best Hext) as (st' & Hrun & Hun & Hpos).
      exists st'. auto.
Qed.

Lemma select_others (i0 : string) (ls : list loc) (s : State) :
  Forall (fun l => is_Some (id_at (heap s) l)) ls ->
  select ls (fun animal =>
               i <- getId animal ;; ret (negb (String.eqb i i0))) s
  = Some (List.filter
            (fun l => match id_at (heap s) l with
                      | Some i => negb (String.eqb i i0)
                      | None => false
                      end) ls, s).
Proof.
  induction ls as [|l ls IH]; intros Hall; [reflexivity|].
  apply Forall_cons in Hall as [[i Hi] Hall].
  simpl select. simpl List.filter. rewrite Hi.
  rewrite (bind_bind_run _ _ _ _ _ _ (getId_run s l i Hi)).
  unfold ret at 1. unfold bind at 1.
  rewrite (bind_run _ _ _ _ _ (IH Hall)).
  now destruct (negb (String.eqb i i0)).
Qed.

Lemma others_near_facts (s : State) (p : Position) (radius : Q) (i0 : string)
    (l : loc) :
  In l (others_near s p radius i0) ->
  In l (JsMap.values (animals (world s))) /\
  (exists q, position_of s l = Some q /\ inject_Z (manhattan q p) <= radius) /\
  (exists i, id_at (heap s) l = Some i /\ i <> i0).
Proof.
  unfold others_near. rewrite !List.filter_In. intros [[Hin Hw] Hid].
  split; [exact Hin|]. split.
  - unfold within in Hw. destruct (position_of s l) as [q|]; [|discriminate].
    exists q. split; [reflexivity|]. now apply Qle_bool_iff.
  - destruct (id_at (heap s) l) as [i|]; [|discriminate].
    exists i. split; [reflexivity|].
    intros ->. rewrite String.eqb_refl in Hid. discriminate.
Qed.

Lemma near_positions (s : State) (p : Position) (radius : Q) :
  Forall (fun l => is_Some (position_of s l))
    (List.filter (within s p radius) (JsMap.values (animals (world s)))).
Proof.
  apply List.Forall_forall. intros l Hin.
  apply List.filter_In in Hin as [_ Hw]. unfold within in Hw.
  destruct (position_of s l); [eauto | discriminate].
Qed.

Lemma others_positions (s : State) (p : Position) (radius : Q) (i0 : string) :
  Forall (fun l => is_Some (position_of s l)) (others_near s p radius i0).
Proof.
  apply List.Forall_forall. intros l Hin.
  destruct (others_near_facts _ _ _ _ _ Hin) as (_ & (q & Hq & _) & _). eauto.
Qed.

Lemma getAnimalsInRadius_run (s : State) (center : loc) (c : Position)
    (radius : Q) :
  heap s !! center = Some (OPosition c) ->
  Forall (fun l => is_Some (position_of s l))
    (JsMap.values (animals (world s))) ->
  exists s',
    getAnimalsInRadius center radius s =
      Some (List.filter (within s c radius) (JsMap.values (animals (world s))),
            s') /\
    untouched s s' /\ random_pos s' = random_pos s.
Proof.
  intros Hc Hall.
  exact (select_in_radius center c radius _ s Hc Hall).
Qed.

(** X27. [seekCompany()] of both species, every registered animal
    having a position: the animal looks at the registered animals other
    than itself within distance 3 of its cell; when there is none, it
    wanders; otherwise it moves toward a copy of the position of a
    nearest one, the first of them in the order of the registry.  Before
    that step nothing has changed but the heap, which holds the position
    copies made on the way, and no number has been drawn. *)
Theorem seekCompany_contract (s : State) (this : loc) (a : Animal) (d : DNA.t)
    (p : Position) (st : AnimalStats)
    (Ho : owns s this a d p st)
    (Hall : Forall (fun l => is_Some (position_of s l))
              (JsMap.values (animals (world s)))) :
  match nearest s p (others_near s p 3 (id a)) with
  | None =>
      others_near s p 3 (id a) = [] /\
      exists s1,
        untouched s s1 /\ random_pos s1 = random_pos s /\
        seekCompany this s = wander this s1
  | Some (target, dist) =>
      In target (others_near s p 3 (id a)) /\ target <> this /\
      exists q,
        position_of s target = Some q /\ dist = manhattan q p /\
        (dist <= 3)%Z /\
        (forall l q', In l (others_near s p 3 (id a)) ->
                      position_of s l = Some q' -> (dist <= manhattan q' p)%Z) /\
        exists s1 targetPos,
          untouched s s1 /\ random_pos s1 = random_pos s /\
          heap s1 !! targetPos = Some (OPosition q) /\
          seekCompany this s = moveToward this targetPos s1
  end.
Proof.
  destruct (getAnimalsInRadius_run s (position a) p 3 (owns_position _ _ _ _ _ _ Ho)
              Hall) as (s0 & Hnear & Hun0 & Hpos0).
  set (near := List.filter (within s p 3) (JsMap.values (animals (world s))))
    in *.
  assert (Hstart : seekCompany this s =
    (if (0 <? length near)%nat then
       closest <- forEach_acc near
                    (fun closest animal =>
                       i <- getId animal ;;
                       if negb (String.eqb i (id a)) then
                         pos_ref <- getPosition animal ;;
                         pos <- read_position pos_ref ;;
                         p <- this_position this ;;
                         let distance :=
                           (Z.abs (x pos - x p) + Z.abs (y pos - y p))%Z in
                         ret (closer closest animal distance)
                       else ret closest)
                    None ;;
       match closest with
       | Some (closest, _) =>
           targetPos <- getPosition closest ;;
           moveToward this targetPos
       | None => wander this
       end
     else wander this) s0).
  { unfold seekCompany.
    rewrite (bind_run _ _ _ _ _ (read_animal_run _ _ _ (owns_animal _ _ _ _ _ _ Ho))).
    now rewrite (bind_run _ _ _ _ _ Hnear). }
  destruct (company_loop s this a d p st near Ho (near_positions s p 3)
              s0 None (proj1 Hun0))
    as (s0' & Hloop & Hun0' & Hpos0').
  change (fold_left _ _ None)
    with (nearest s p (others_near s p 3 (id a))) in Hloop.
  pose proof (nearest_spec s p (others_near s p 3 (id a))
                (others_positions s p 3 (id a))) as Hspec.
  destruct (nearest s p (others_near s p 3 (id a))) as [[target dist]|].
  - destruct Hspec as (Hin & q & Hq & Hdist & Hmin).
    destruct (others_near_facts _ _ _ _ _ Hin)
      as (_ & (q0 & Hq0 & Hrad) & (i & Hi & Hne)).
    rewrite Hq in Hq0. injection Hq0 as <-.
    split; [exact Hin|]. split.
    { intros ->. unfold id_at in Hi.
      rewrite (owns_animal _ _ _ _ _ _ Ho) in Hi. injection Hi as Hi.
      congruence. }
    exists q. split; [exact Hq|]. split; [exact Hdist|]. split.
    { rewrite Hdist. change 3 with (inject_Z 3) in Hrad.
      now rewrite <- Zle_Qle in Hrad. }
    split; [exact Hmin|].
    assert (Hq' : position_of s0' target = Some q).
    { apply (position_of_extends s); [|exact Hq].
      intros l o Hl. apply Hun0', Hun0, Hl. }
    exists (set_heap s0' (heap s0' ++ [OPosition q])), (length (heap s0')).
    split.
    { eapply untouched_trans; [exact Hun0|].
      eapply untouched_trans; [exact Hun0'|].
      unfold untouched. simpl. split; [|auto].
      intros l o Hl. now apply lookup_alloc_old. }
    split; [simpl; congruence|].
    split; [simpl; apply lookup_alloc_new|].
    rewrite Hstart.
    destruct (Nat.ltb_spec 0 (length near)) as [_|Hempty].
    + rewrite (bind_run _ _ _ _ _ Hloop).
      now rewrite (bind_run _ _ _ _ _ (getPosition_run' _ _ _ Hq')).
    + exfalso. assert (near = []) by (destruct near; simpl in *; [auto | lia]).
      unfold others_near in Hin. fold near in Hin. rewrite H in Hin.
      exact Hin.
  - split; [exact Hspec|].
    destruct (Nat.ltb_spec 0 (length near)) as [_|Hempty].
    + exists s0'. split; [exact (untouched_trans _ _ _ Hun0 Hun0')|].
      split; [congruence|].
      rewrite Hstart. now rewrite (bind_run _ _ _ _ _ Hloop).
    + exists s0. split; [exact Hun0|]. split; [exact Hpos0 | exact Hstart].
Qed.

(** X28. [huntOthers()] of the Fluffles, every registered animal having
    a position: the prey is sought among the registered animals other
    than the hunter within distance 2 of its cell; when there is none,
    the hunter wanders; otherwise it turns to a nearest one, the first of
    them in the order of the registry: at distance 0 or 1 it attacks it,
    at distance 2 it moves toward a copy of its position.  The hunter
    never attacks itself nor an animal further than 1 away; before the
    attack or the step nothing has changed but the heap, which holds the
    position copies, and no number has been drawn. *)
Theorem huntOthers_contract (s : State) (this : loc) (a : Animal) (d : DNA.t)
    (p : Position) (st : AnimalStats)
    (Ho : owns s this a d p st)
    (Hall : Forall (fun l => is_Some (position_of s l))
              (JsMap.values (animals (world s)))) :
  match nearest s p (others_near s p 2 (id a)) with
  | None =>
      others_near s p 2 (id a) = [] /\
      exists s1,
        untouched s s1 /\ random_pos s1 = random_pos s /\
        huntOthers this s = wander this s1
  | Some (target, dist) =>
      In target (others_near s p 2 (id a)) /\ target <> this /\
      exists q,
        position_of s target = Some q /\ dist = manhattan q p /\
        (0 <= dist <= 2)%Z /\
        (forall l q', In l (others_near s p 2 (id a)) ->
                      position_of s l = Some q' -> (dist <= manhattan q' p)%Z) /\
        exists s1,
          untouched s s1 /\ random_pos s1 = random_pos s /\
          if (dist <=? 1)%Z
          then huntOthers this s = (_ <- attack this target ;; ret tt) s1
          else exists targetPos,
                 heap s1 !! targetPos = Some (OPosition q) /\
                 huntOthers this s = moveToward this targetPos s1
  end.
Proof.
  destruct (getAnimalsInRadius_run s (position a) p 2 (owns_position _ _ _ _ _ _ Ho)
              Hall) as (s0 & Hnear & Hun0 & Hpos0).
  set (near := List.filter (within s p 2) (JsMap.values (animals (world s))))
    in *.
  assert (Hids : Forall (fun l => is_Some (id_at (heap s0) l)) near).
  { eapply Forall_impl; [exact (near_positions s p 2)|].
    intros l Hl. destruct (position_of_id _ _ Hl) as [i Hi].
    exists i. exact (id_at_extends s s0 l i (proj1 Hun0) Hi). }
  assert (Hfilter :
    List.filter (fun l => match id_at (heap s0) l with
                          | Some i => negb (String.eqb i (id a))
                          | None => false
                          end) near
    = others_near s p 2 (id a)).
  { unfold others_near. fold near. apply List.filter_ext_in. intros l Hin.
    pose proof (near_positions s p 2) as Hnp. fold near in Hnp.
    eapply List.Forall_forall in Hnp; [|exact Hin].
    destruct (position_of_id _ _ Hnp) as [i Hi].
    now rewrite Hi, (id_at_extends s s0 l i (proj1 Hun0) Hi). }
  assert (Hstart : huntOthers this s =
    (if (0 <? length (others_near s p 2 (id a)))%nat then
       closest <- forEach_acc (others_near s p 2 (id a))
                    (fun closest animal =>
                       pos_ref <- getPosition animal ;;
                       pos <- read_position pos_ref ;;
                       p <- this_position this ;;
                       let distance :=
                         (Z.abs (x pos - x p) + Z.abs (y pos - y p))%Z in
                       ret (closer closest animal distance))
                    None ;;
       match closest with
       | Some (closestTarget, closestDistance) =>
           if (closestDistance <=? 1)%Z then
             _ <- attack this closestTarget ;; ret tt
           else
             targetPos <- getPosition closestTarget ;;
             moveToward this targetPos
       | None => wander this
       end
     else wander this) s0).
  { unfold huntOthers.
    rewrite (bind_run _ _ _ _ _ (read_animal_run _ _ _ (owns_animal _ _ _ _ _ _ Ho))).
    rewrite (bind_run _ _ _ _ _ Hnear).
    rewrite (bind_run _ _ _ _ _ (select_others (id a) near s0 Hids)).
    now rewrite Hfilter. }
  destruct (hunt_loop s this a d p st (others_near s p 2 (id a)) Ho
              (others_positions s p 2 (id a)) s0 None (proj1 Hun0))
    as (s0' & Hloop & Hun0' & Hpos0').
  change (fold_left _ _ None)
    with (nearest s p (others_near s p 2 (id a))) in Hloop.
  pose proof (nearest_spec s p (others_near s p 2 (id a))
                (others_positions s p 2 (id a))) as Hspec.
  destruct (nearest s p (others_near s p 2 (id a))) as [[target dist]|].
  - destruct Hspec as (Hin & q & Hq & Hdist & Hmin).
    destruct (others_near_facts _ _ _ _ _ Hin)
      as (_ & (q0 & Hq0 & Hrad) & (i & Hi & Hne)).
    rewrite Hq in Hq0. injection Hq0 as <-.
    split; [exact Hin|]. split.
    { intros ->. unfold id_at in Hi.
      rewrite (owns_animal _ _ _ _ _ _ Ho) in Hi. injection Hi as Hi.
      congruence. }
    exists q. split; [exact Hq|]. split; [exact Hdist|]. split.
    { rewrite Hdist. change 2 with (inject_Z 2) in Hrad.
      rewrite <- Zle_Qle in Hrad. unfold manhattan in *. lia. }
    split; [exact Hmin|].
    assert (Hsome : (0 <? length (others_near s p 2 (id a)))%nat = true).
    { apply Nat.ltb_lt. destruct (others_near s p 2 (id a)); [destruct Hin|].
      simpl. lia. }
    rewrite Hsome in Hstart. rewrite (bind_run _ _ _ _ _ Hloop) in Hstart.
    destruct (dist <=? 1)%Z.
    + exists s0'. split; [exact (untouched_trans _ _ _ Hun0 Hun0')|].
      split; [congruence | exact Hstart].
    + assert (Hq' : position_of s0' target = Some q).
      { apply (position_of_extends s); [|exact Hq].
        intros l o Hl. apply Hun0', Hun0, Hl. }
      rewrite (bind_run _ _ _ _ _ (getPosition_run' _ _ _ Hq')) in Hstart.
      exists (set_heap s0' (heap s0' ++ [OPosition q])).
      split.
      { eapply untouched_trans; [exact Hun0|].
        eapply untouched_trans; [exact Hun0'|].
        unfold untouched. simpl. split; [|auto].
        intros l o Hl. now apply lookup_alloc_old. }
      split; [simpl; congruence|].
      exists (length (heap s0')).
      split; [simpl; apply lookup_alloc_new | exact Hstart].
  - split; [exact Hspec|]. rewrite Hspec in Hstart.
    exists s0. split; [exact Hun0|]. split; [exact Hpos0 | exact Hstart].
Qed.

Lemma mates_loop (s0 : State) (this : loc) a d p st0 (ls : list loc) :
  owns s0 this a d p st0 ->
  Forall (fun l => exists q, position_of s0 l = Some q /\
                             (manhattan q p <= 2)%Z) ls ->
  forall st : State,
    (forall (l : loc) o, heap s0 !! l = Some o -> heap st !! l = Some o) ->
    match List.filter
            (fun l => match id_at (heap s0) l with
                      | Some i => negb (String.eqb i (id a))
                      | None => false
                      end) ls with
    | [] => searchForMates_from this a ls st = wander this st
    | target :: _ =>
        exists q,
          position_of s0 target = Some q /\
          searchForMates_from this a ls st =
          (if (manhattan q p <=? 1)%Z
           then _ <- reproduce this target ;; ret tt
           else moveToward this (length (heap st)))
            (set_heap st (heap st ++ [OPosition q]))
    end.
Proof.
  intros Ho. induction ls as [|l ls IH]; intros Hall st Hext; [reflexivity|].
  apply Forall_cons in Hall as [(q & Hq & Hd) Hall].
  destruct (position_of_id s0 l ltac:(eauto)) as [i Hi].
  simpl List.filter. rewrite Hi. simpl searchForMates_from.
  rewrite (bind_run _ _ _ _ _
             (getId_run st l i (id_at_extends s0 st l i Hext Hi))).
  destruct (negb (String.eqb i (id a))).
  - exists q. split; [exact Hq|].
    rewrite (bind_run _ _ _ _ _
               (getPosition_run' _ _ _ (position_of_extends s0 st _ _ Hext Hq))).
    erewrite (bind_run (read_position _))
      by (apply read_position_run; apply lookup_alloc_new).
    erewrite (bind_run (this_position this)).
    2:{ apply (this_position_run _ this a d p st0).
        apply owns_alloc. exact (owns_extends s0 st _ _ _ _ _ Hext Ho). }
    cbv zeta. change (Z.abs (x q - x p) + Z.abs (y q - y p))%Z
      with (manhattan q p).
    destruct (manhattan q p <=? 1)%Z; [reflexivity|].
    destruct (Z.leb_spec (manhattan q p) 2); [reflexivity | lia].
  - exact (IH Hall st Hext).
Qed.

(** X29. [searchForMates()] of the Rabbit, every registered animal
    having a position: the Rabbit turns to the first registered animal
    other than itself within distance 2 of its cell, in the order of the
    registry, whether or not another one is nearer: at distance 0 or 1
    it calls [reproduce] with it, at distance 2 it moves toward the copy
    of its position; when there is no such animal it wanders.  Up to
    then nothing has changed but the heap, which holds the position
    copies, and no number has been drawn. *)
Theorem Rabbit_searchForMates_contract (s : State) (this : loc) (a : Animal)
    (d : DNA.t) (p : Position) (st : AnimalStats)
    (Ho : owns s this a d p st)
    (Hall : Forall (fun l => is_Some (position_of s l))
              (JsMap.values (animals (world s)))) :
  match others_near s p 2 (id a) with
  | [] =>
      exists s1,
        untouched s s1 /\ random_pos s1 = random_pos s /\
        Rabbit_searchForMates this s = wander this s1
  | target :: _ =>
      target <> this /\
      exists q s1,
        position_of s target = Some q /\ (manhattan q p <= 2)%Z /\
        untouched s s1 /\ random_pos s1 = random_pos s /\
        if (manhattan q p <=? 1)%Z
        then Rabbit_searchForMates this s
             = (_ <- reproduce this target ;; ret tt) s1
        else exists targetPos,
               heap s1 !! targetPos = Some (OPosition q) /\
               Rabbit_searchForMates this s = moveToward this targetPos s1
  end.
Proof.
  destruct (getAnimalsInRadius_run s (position a) p 2 (owns_position _ _ _ _ _ _ Ho)
              Hall) as (s0 & Hnear & Hun0 & Hpos0).
  assert (Hstart : Rabbit_searchForMates this s =
    searchForMates_from this a
      (List.filter (within s p 2) (JsMap.values (animals (world s)))) s0).
  { unfold Rabbit_searchForMates.
    rewrite (bind_run _ _ _ _ _ (read_animal_run _ _ _ (owns_animal _ _ _ _ _ _ Ho))).
    now rewrite (bind_run _ _ _ _ _ Hnear). }
  assert (Hclose : Forall (fun l => exists q, position_of s l = Some q /\
                                              (manhattan q p <= 2)%Z)
                     (List.filter (within s p 2)
                        (JsMap.values (animals (world s))))).
  { apply List.Forall_forall. intros l Hin.
    apply List.filter_In in Hin as [_ Hw]. unfold within in Hw.
    destruct (position_of s l) as [q|]; [|discriminate].
    exists q. split; [reflexivity|]. apply Qle_bool_iff in Hw.
    change 2 with (inject_Z 2) in Hw. now rewrite <- Zle_Qle in Hw. }
  pose proof (mates_loop s this a d p st _ Ho Hclose s0 (proj1 Hun0)) as Hloop.
  change (List.filter _ (List.filter _ _))
    with (others_near s p 2 (id a)) in Hloop.
  pose proof (fun l => others_near_facts s p 2 (id a) l) as Hfacts.
  destruct (others_near s p 2 (id a)) as [|target rest].
  - exists s0. split; [exact Hun0|]. split; [exact Hpos0|]. congruence.
  - destruct Hloop as (q & Hq & Hloop).
    destruct (Hfacts target (or_introl eq_refl))
      as (_ & (q0 & Hq0 & Hrad) & (i & Hi & Hne)).
    rewrite Hq in Hq0. injection Hq0 as <-.
    split.
    { intros ->. unfold id_at in Hi.
      rewrite (owns_animal _ _ _ _ _ _ Ho) in Hi. injection Hi as Hi.
      congruence. }
    exists q, (set_heap s0 (heap s0 ++ [OPosition q])).
    split; [exact Hq|]. split.
    { change 2 with (inject_Z 2) in Hrad. now rewrite <- Zle_Qle in Hrad. }
    split.
    { eapply untouched_trans; [exact Hun0|].
      unfold untouched. simpl. split; [|auto].
      intros l o Hl. now apply lookup_alloc_old. }
    split; [simpl; exact Hpos0|].
    rewrite Hstart, Hloop.
    destruct (manhattan q p <=? 1)%Z; [reflexivity|].
    exists (length (heap s0)). split; [simpl; apply lookup_alloc_new|].
    reflexivity.
Qed.

(** ** [Animal]: whose position object *)

(** X30. [setPosition(position)] keeps the caller's object: afterwards
    the animal is where that object says, and whatever is then written
    to the object moves the animal, while the object that held its
    position before is as it was (the copies that [getPosition()] hands
    out are the other way round). *)
Theorem setPosition_shares (s : State) (this ref : loc) (a : Animal)
    (d : DNA.t) (p p' : Position) (st : AnimalStats)
    (Ho : owns s this a d p st)
    (Href : heap s !! ref = Some (OPosition p')) :
  exists s1,
    setPosition this ref s = Some (tt, s1) /\
    position_of s1 this = Some p' /\
    stats_of s1 this = Some st /\ dna_of s1 this = Some d /\
    world s1 = world s /\
    heap s1 !! position a = Some (OPosition p) /\
    forall q, exists s2,
      write ref (OPosition q) s1 = Some (tt, s2) /\
      position_of s2 this = Some q.
Proof.
  pose proof (owns_setPosition _ _ _ _ _ _ _ _ Ho Href) as Ho1.
  set (s1 := set_heap s _) in Ho1.
  exists s1. split; [exact (setPosition_run _ _ _ _ (owns_animal _ _ _ _ _ _ Ho))|].
  split; [apply (owns_position_of _ _ _ _ _ _ Ho1)|].
  split; [apply (owns_stats_of _ _ _ _ _ _ Ho1)|].
  split; [apply (owns_dna_of _ _ _ _ _ _ Ho1)|].
  split; [reflexivity|]. split.
  - unfold s1. simpl. rewrite lookup_write_other.
    + apply Ho.
    + intros E. pose proof (owns_position _ _ _ _ _ _ Ho) as Hp.
      rewrite <- E, (owns_animal _ _ _ _ _ _ Ho) in Hp. discriminate.
  - intros q.
    pose proof (owns_position _ _ _ _ _ _ Ho1) as Hp1. simpl position in Hp1.
    exists (set_heap s1 (<[ref := OPosition q]> (heap s1))).
    split; [exact (write_run _ _ _ _ Hp1)|].
    assert (Hne : ref <> this).
    { intros E. rewrite E, (owns_animal _ _ _ _ _ _ Ho) in Href. discriminate. }
    assert (Ha2 : heap (set_heap s1 (<[ref := OPosition q]> (heap s1))) !! this
                  = Some (OAnimal (set_position a ref))).
    { simpl. rewrite lookup_write_other by exact Hne. apply Ho1. }
    assert (Hp2 : heap (set_heap s1 (<[ref := OPosition q]> (heap s1))) !! ref
                  = Some (OPosition q)).
    { simpl. exact (lookup_write_same _ _ _ _ Hp1). }
    unfold position_of. rewrite Ha2. simpl position. now rewrite Hp2.
Qed.

(** ** The further properties at concrete inputs *)

Lemma pair_dna_in_unit : DNA.values_in_unit pair_dna.
Proof. unfold DNA.values_in_unit. repeat constructor; simpl; discriminate. Qed.

Lemma grid_wf_pair : grid_wf (world pair_state).
Proof. split; [reflexivity | repeat constructor]. Qed.

Lemma stats_pair :
  Forall (fun l => is_Some (stats_of pair_state l))
    (JsMap.values (animals (world pair_state))).
Proof. repeat constructor; eexists; reflexivity. Qed.

Lemma draws_pair (n : nat) :
  0 <= random_tape pair_state n /\ random_tape pair_state n < 1.
Proof. simpl. split; lra. Qed.

Lemma mutate_small_steps_witness :
  exists g',
    DNA.getGene "speed" (fst (DNA.mutate pair_dna (fun _ => 1 # 20) 0%nat))
    = Some g' /\
    (5 # 10) - (1 # 10) <= value g' /\ value g' <= (5 # 10) + (1 # 10).
Proof.
  assert (Htape : forall n : nat,
             0 <= (fun _ : nat => 1 # 20) n /\ (fun _ : nat => 1 # 20) n < 1)
    by (intros n; simpl; split; lra).
  destruct (mutate_small_steps (fun _ => 1 # 20) 0%nat pair_dna
              (wf_createStandard _) pair_dna_in_unit Htape) as (Hgenes & _).
  destruct (Hgenes "speed"%string (mkGene "speed" (5 # 10) (1 # 10)) eq_refl)
    as (g' & Hg & _ & _ & Hlo & Hhi).
  exists g'. auto.
Defined.

Lemma inheritance_keeps_unit_values_witness :
  DNA.values_in_unit
    (fst (DNA.combine pair_dna (DNA.createStandard None) (fun _ => 9 # 10) 0%nat)).
Proof.
  destruct (inheritance_keeps_unit_values (fun _ => 9 # 10) 0%nat pair_dna
              (DNA.createStandard None)
              (wf_createStandard _) (wf_createStandard _)) as (_ & Hunit).
  apply Hunit.
  - exact pair_dna_in_unit.
  - unfold DNA.values_in_unit. repeat constructor; simpl; discriminate.
Defined.

Lemma consumeFood_contract_witness :
  exists s',
    consumeFood (mkPosition 2%Z 3%Z) 5 pair_state = Some (Qmin 10 5, s') /\
    tile_at (world s') (mkPosition 2%Z 3%Z) = Some (mkTile grass (10 - Qmin 10 5)) /\
    tile_at (world s') (mkPosition 3%Z 3%Z) = Some (mkTile grass 10).
Proof.
  destruct (consumeFood_contract (mkPosition 2%Z 3%Z) 5 pair_state grid_wf_pair)
    as (_ & Hin).
  destruct (Hin eq_refl) as (tile & s' & Ht & Hrun & Hhere & Hother & _).
  injection Ht as <-.
  exists s'. split; [exact Hrun|]. split; [exact Hhere|].
  rewrite (Hother (mkPosition 3%Z 3%Z) eq_refl); [reflexivity|].
  left. simpl. lia.
Defined.


Lemma reduceWorldFood_contract_witness :
  exists s' tile',
    reduceWorldFood (3 # 10) pair_state = Some (tt, s') /\
    tile_at (world s') (mkPosition 2%Z 3%Z) = Some tile' /\
    foodValue tile' == 7.
Proof.
  destruct (reduceWorldFood_contract (3 # 10) pair_state grid_wf_pair)
    as (s' & Hrun & _ & _ & Htiles).
  destruct (Htiles (mkPosition 2%Z 3%Z) (mkTile grass 10) eq_refl)
    as (tile' & Ht & _ & _ & Hgrass).
  exists s', tile'. split; [exact Hrun|]. split; [exact Ht|].
  destruct (Hgrass eq_refl ltac:(simpl; lra)) as [Hshare _].
  rewrite Hshare by lra. reflexivity.
Defined.

Lemma die_contract_witness :
  exists s',
    die 0%nat pair_state = Some (tt, s') /\
    JsMap.get "a" (animals (world s')) = None /\
    JsMap.get "b" (animals (world s')) = Some 4%nat /\
    JsMap.size (animals (world s')) = 1%Z.
Proof.
  destruct (die_contract pair_state 0%nat pair_a eq_refl)
    as (s' & Hrun & Hgone & Hothers & Hsize & _).
  { unfold JsMap.wf. simpl.
    repeat constructor; rewrite ?list_elem_of_In; simpl; intuition discriminate. }
  exists s'. split; [exact Hrun|].
  unfold getAnimal in Hgone. msimpl. 
  split; [now injection Hgone|].
  split.
  - rewrite (Hothers "b"%string) by discriminate. reflexivity.
  - rewrite Hsize by (eexists; reflexivity). reflexivity.
Defined.

Lemma update_kills_without_acting_witness :
  exists s',
    Animal_update (fun _ => fail) 0%nat
      (with_stats pair_state pair_a (mkStats 100 80 30 99)) = Some (tt, s') /\
    JsMap.get "a" (animals (world s')) = None /\
    stats_of s' 0%nat = Some (aged (mkStats 100 80 30 99)).
Proof.
  destruct (update_kills_without_acting
              (with_stats pair_state pair_a (mkStats 100 80 30 99))
              0%nat pair_a pair_dna (mkPosition 2%Z 3%Z) (mkStats 100 80 30 99)
              (owns_with_stats _ _ _ _ _ _ _ owns_pair_a))
    as (s' & Hrun & Hgone & _ & Hst & _).
  - unfold JsMap.wf. simpl.
    repeat constructor; rewrite ?list_elem_of_In; simpl; intuition discriminate.
  - right. simpl. lra.
  - exists s'. split; [apply Hrun|]. split; [exact Hgone | exact Hst].
Defined.


Lemma stress_contract_witness :
  exists s',
    applyEnvironmentalStress 0%nat 6 pair_state = Some (tt, s') /\
    stats_of s' 0%nat
    = Some (mkStats 100 (80 - (1 # 10)) 30 (10 + (3 # 10))).
Proof.
  destruct (stress_contract pair_state 0%nat pair_a pair_dna
              (mkPosition 2%Z 3%Z) pair_stats 6 owns_pair_a)
    as (s' & st' & Hrun & Ho & _ & _ & _ & _ & Hmid & _).
  exists s'. split; [exact Hrun|].
  rewrite (owns_stats_of _ _ _ _ _ _ Ho).
  destruct (Hmid ltac:(lia)) as [-> _]. reflexivity.
Defined.

Lemma isAdult_thresholds_witness :
  isAdult 0%nat (with_stats pair_state pair_a (mkStats 100 80 40 10))
  = Some (true, with_stats pair_state pair_a (mkStats 100 80 40 10)).
Proof.
  destruct (isAdult_thresholds
              (with_stats pair_state pair_a (mkStats 100 80 40 10))
              0%nat pair_a pair_dna (mkPosition 2%Z 3%Z) (mkStats 100 80 40 10)
              (owns_with_stats _ _ _ _ _ _ _ owns_pair_a))
    as (b & Hrun & _ & Hold & _).
  rewrite Hrun. f_equal. f_equal. apply Hold.
  - intros g Hg. injection Hg as <-. simpl. lra.
  - simpl. lra.
Defined.

Lemma shouldBeAggressive_contract_witness :
  shouldBeAggressive 0%nat
    (with_stats pair_state pair_a (mkStats 100 100 30 0))
  = Some (false,
          set_random_pos (with_stats pair_state pair_a (mkStats 100 100 30 0))
            1%nat).
Proof.
  destruct (shouldBeAggressive_contract
              (with_stats pair_state pair_a (mkStats 100 100 30 0))
              0%nat pair_a pair_dna (mkPosition 2%Z 3%Z) (mkStats 100 100 30 0)
              (owns_with_stats _ _ _ _ _ _ _ owns_pair_a))
    as (Hrun & _ & Hcalm).
  rewrite Hrun, Hcalm; try reflexivity; simpl; unfold gene_or; simpl; lra.
Defined.

Lemma quake_stats :
  Forall (fun l => is_Some (stats_of plague_state l))
    (JsMap.values (animals (world plague_state))).
Proof. repeat constructor; eexists; reflexivity. Qed.

Lemma disasters_spare_animals_witness :
  exists s',
    applyDisasterEffects plague_state = Some (tt, s') /\
    world s' = world plague_state /\
    stats_of s' 4%nat = Some pair_stats.
Proof.
  destruct (disasters_spare_animals plague_state grid_wf_pair quake_stats)
    as (s' & Hrun & _ & _ & Hst & _ & _ & _ & Hworld).
  exists s'. split; [exact Hrun|].
  split; [apply Hworld; discriminate | apply Hst; reflexivity].
Defined.



Lemma challenges_spare_animals_witness :
  exists s',
    introduceChallenge pair_state = Some (tt, s') /\
    world s' = world pair_state /\
    stats_of s' 0%nat = Some pair_stats.
Proof.
  destruct (challenges_spare_animals pair_state grid_wf_pair stats_pair
              draws_pair)
    as (s' & Hrun & _ & _ & Hst & _ & Hworld).
  exists s'. split; [exact Hrun|].
  split; [apply Hworld; simpl; lra | apply Hst; reflexivity].
Defined.

Lemma tally_injective (i j : nat) : tally i = tally j -> i = j.
Proof.
  revert j. induction i as [|i IH]; intros [|j] E; simpl in E;
    try discriminate; [reflexivity|].
  injection E as E. f_equal. now apply IH.
Qed.


Lemma wander_contract_witness :
  exists s',
    wander 0%nat pair_state = Some (tt, s') /\
    position_of s' 0%nat = Some (mkPosition 2%Z 4%Z) /\
    stats_of s' 0%nat = Some (mkStats 100 (80 - 1) 30 10).
Proof.
  destruct (wander_contract pair_state 0%nat pair_a pair_dna
              (mkPosition 2%Z 3%Z) pair_stats owns_pair_a eq_refl
              (draws_pair 0%nat))
    as (s' & Hrun & Hpos & _ & _ & Hst & _).
  exists s'. split; [exact Hrun|]. split; [exact Hpos | exact Hst].
Defined.

Lemma positions_pair :
  Forall (fun l => is_Some (position_of pair_state l))
    (JsMap.values (animals (world pair_state))).
Proof. repeat constructor; eexists; reflexivity. Qed.

Lemma getAnimalsInRadius_contract_witness :
  exists s',
    getAnimalsInRadius 2%nat 0 pair_state = Some ([0%nat], s') /\
    heap s' !! 0%nat = heap pair_state !! 0%nat.
Proof.
  destruct (getAnimalsInRadius_contract pair_state 2%nat (mkPosition 2%Z 3%Z)
              0 eq_refl positions_pair)
    as (s' & Hrun & (Hext & _) & _).
  exists s'. split; [exact Hrun|].
  exact (Hext 0%nat (OAnimal pair_a) eq_refl).
Defined.



Lemma initialize_contract_witness :
  exists s',
    initialize 5 nursery_state = Some (tt, s') /\
    JsMap.size (animals (world s')) = 1%Z /\
    Forall (newborn s') (JsMap.values (animals (world s'))).
Proof.
  destruct (initialize_contract nursery_state 5 eq_refl eq_refl eq_refl
              ltac:(simpl; lia)
              (fun n => conj (Qle_bool_imp_le 0 (1 # 2) eq_refl)
                          (eq_refl : (1 # 2) < 1))
              tally_injective)
    as (s' & Hrun & Hsize & Hborn & _).
  exists s'. split; [exact Hrun|]. split; [exact Hsize | exact Hborn].
Defined.


Lemma seekCompany_contract_witness :
  exists s1 targetPos,
    heap s1 !! targetPos = Some (OPosition (mkPosition 3%Z 3%Z)) /\
    seekCompany 0%nat pair_state = moveToward 0%nat targetPos s1.
Proof.
  pose proof (seekCompany_contract pair_state 0%nat pair_a pair_dna
                (mkPosition 2%Z 3%Z) pair_stats owns_pair_a positions_pair)
    as H.
  change (nearest pair_state (mkPosition 2%Z 3%Z)
            (others_near pair_state (mkPosition 2%Z 3%Z) 3 (id pair_a)))
    with (Some (4%nat, 1%Z)) in H.
  destruct H as (_ & _ & q & Hq & _ & _ & _ & s1 & tp & _ & _ & Htp & Hrun).
  injection Hq as <-. exists s1, tp. split; [exact Htp | exact Hrun].
Defined.

Lemma huntOthers_contract_witness :
  exists s1,
    random_pos s1 = 0%nat /\
    huntOthers 0%nat pair_state = (_ <- attack 0%nat 4%nat ;; ret tt) s1.
Proof.
  pose proof (huntOthers_contract pair_state 0%nat pair_a pair_dna
                (mkPosition 2%Z 3%Z) pair_stats owns_pair_a positions_pair)
    as H.
  change (nearest pair_state (mkPosition 2%Z 3%Z)
            (others_near pair_state (mkPosition 2%Z 3%Z) 2 (id pair_a)))
    with (Some (4%nat, 1%Z)) in H.
  destruct H as (_ & _ & q & _ & _ & _ & _ & s1 & _ & Hpos & Hrun).
  exists s1. split; [exact Hpos | exact Hrun].
Defined.

Lemma Rabbit_searchForMates_contract_witness :
  exists s1,
    random_pos s1 = 0%nat /\
    Rabbit_searchForMates 0%nat pair_state
    = (_ <- reproduce 0%nat 4%nat ;; ret tt) s1.
Proof.
  pose proof (Rabbit_searchForMates_contract pair_state 0%nat pair_a pair_dna
                (mkPosition 2%Z 3%Z) pair_stats owns_pair_a positions_pair)
    as H.
  change (others_near pair_state (mkPosition 2%Z 3%Z) 2 (id pair_a))
    with [4%nat] in H.
  destruct H as (_ & q & s1 & Hq & _ & _ & Hpos & Hrun).
  injection Hq as <-. exists s1. split; [exact Hpos | exact Hrun].
Defined.

Lemma setPosition_shares_witness :
  exists s1 s2,
    setPosition 0%nat 6%nat pair_state = Some (tt, s1) /\
    position_of s1 0%nat = Some (mkPosition 3%Z 3%Z) /\
    write 6%nat (OPosition (mkPosition 9%Z 9%Z)) s1 = Some (tt, s2) /\
    position_of s2 0%nat = Some (mkPosition 9%Z 9%Z).
Proof.
  destruct (setPosition_shares pair_state 0%nat 6%nat pair_a pair_dna
              (mkPosition 2%Z 3%Z) (mkPosition 3%Z 3%Z) pair_stats
              owns_pair_a eq_refl)
    as (s1 & Hrun & Hpos & _ & _ & _ & _ & Hshare).
  destruct (Hshare (mkPosition 9%Z 9%Z)) as (s2 & Hwrite & Hpos2).
  exists s1, s2. auto.
Defined.
